(** * dlmtree: the TDLMM sampler core (src/Fncs.cpp, src/tdlmm_Cpp.cpp)

    A shallow embedding of the utility functions of [Fncs.cpp] and of the
    tree-pair sampler of [tdlmm_Cpp.cpp], with the properties stated for them.

    Conventions of the embedding.
    - In the sampler a C++ [double] is a rational number ([Q]): arithmetic
      is exact, the rounding of IEEE arithmetic is not modelled, and a
      statement made on it is a statement about the computation carried out
      without rounding.  The code whose result depends on rounding (the scan
      of [sampleInt], the running residual) is embedded a second time over
      IEEE binary64 numbers, the primitive floats of Rocq, and the statements
      about it are made there.  [log] and [lgamma] are functions of an
      interface ([Cmath]).
    - A C++ [int] is an integer of [Z]; sizes, indices and the [int]s that
      only count or number things (a move type, an exposure, a number of
      terminal nodes) are [nat].
    - [std::vector<double>] and [Eigen::VectorXd] are lists; an
      [Eigen::MatrixXd] is the list of its columns.
    - R's random-number generator is an interface ([Rmath]): every draw takes
      the generator's state and returns the value drawn and the next state.
    - Entries of Eigen vectors and matrices are read with [vget], [col] and
      [mget], which give 0 outside the bounds.  A read past the end of a
      [std::vector] and a call of [Rcpp::stop] end the computation with an
      error ([Err]).
    - The classes declared in headers that are not part of the sources
      ([Node], [exposureDat], the model estimation, the linear-algebra kernel
      of Eigen) are interfaces as well. *)

From Stdlib Require Import List ZArith QArith Qround Lia Lqa Bool Permutation Sorted.
From Stdlib Require String.
From Stdlib Require PrimFloat FloatOps.
Import String.StringSyntax.
Delimit Scope string_scope with string.
Import ListNotations.
Open Scope Q_scope.

(** ** Scalars, vectors and matrices *)

Definition double : Type := Q.

(** [x < y] on doubles, as a test. *)
Definition Qltb (x y : double) : bool := negb (Qle_bool y x).

Definition vec : Type := list double.

(** A matrix is the list of its columns. *)
Definition mat : Type := list vec.

(** [v(i)], read as 0 outside the vector. *)
Definition vget (v : vec) (i : nat) : double := nth i v 0.

(** [M.col(t)]. *)
Definition col (M : mat) (t : nat) : vec := nth t M [].

(** [l[k] = v]: the list with position [k] overwritten. *)
Fixpoint upd {A : Type} (k : nat) (v : A) (l : list A) : list A :=
  match l, k with
  | [], _ => []
  | _ :: t, O => v :: t
  | h :: t, S k' => h :: upd k' v t
  end.

(** Entry-wise sum and difference.  Eigen requires both sides to have one
    size; on lists of different lengths the shorter one is read as padded
    with zeros. *)
Fixpoint vadd (a b : vec) : vec :=
  match a, b with
  | [], _ => b
  | _, [] => a
  | x :: a', y :: b' => (x + y) :: vadd a' b'
  end.

Fixpoint vsub (a b : vec) : vec :=
  match a, b with
  | [], _ => map Qopp b
  | _, [] => a
  | x :: a', y :: b' => (x - y) :: vsub a' b'
  end.

Definition vscale (k : double) (a : vec) : vec := map (Qmult k) a.

(** Entry-wise product, [(a.array() * b.array()).matrix()]. *)
Fixpoint vmul (a b : vec) : vec :=
  match a, b with
  | x :: a', y :: b' => (x * y) :: vmul a' b'
  | _, _ => []
  end.

(** [v.sum()], accumulated from the left. *)
Definition vsum (v : vec) : double := fold_left Qplus v 0.

(** [a.dot(b)]. *)
Definition dot (a b : vec) : double := vsum (vmul a b).

(** Equality of vectors entry by entry, up to the value of the fractions. *)
Definition veq (a b : vec) : Prop := forall i, vget a i == vget b i.

(** The zero vector of size [n] and the zero matrix of [p] columns. *)
Definition vzero (n : nat) : vec := repeat 0 n.
Definition mzero (n p : nat) : mat := repeat (vzero n) p.

(** [M * v]: the combination of the columns of [M] with the entries of [v]. *)
Fixpoint mat_vec (M : mat) (v : vec) : vec :=
  match M, v with
  | c :: M', x :: v' => vadd (vscale x c) (mat_vec M' v')
  | _, _ => []
  end.

(** [M.transpose() * v]: one dot product per column of [M]. *)
Definition matT_vec (M : mat) (v : vec) : vec := map (fun c => dot c v) M.

(** The sum of a list of terms, from the right; used in statements. *)
Definition Qsum (l : list double) : double := fold_right Qplus 0 l.

(** ** Errors and the sampler's monad *)

Inductive error : Type :=
| OutOfBounds                (* a vector read past its end *)
| Stop (msg : String.string).       (* Rcpp::stop *)

Inductive res (A : Type) : Type :=
| Ok (a : A)
| Err (e : error).
Arguments Ok {A} a.
Arguments Err {A} e.

(** The C mathematical functions the sources call. *)
Class Cmath : Type := {
  log : double -> double;
  lgamma : double -> double
}.

(** R's random-number interface (Rmath.h), called as [R::runif] and
    [R::rgamma].  The second argument of [R::rgamma] is the scale of the
    Gamma distribution, the first its shape. *)
Class Rmath : Type := {
  rng : Type;
  runif : double -> double -> rng -> double * rng;
  rgamma : double -> double -> rng -> double * rng
}.

(** A computation that draws random numbers and may fail. *)
Definition M {G : Rmath} (A : Type) : Type := rng -> res (A * rng).

Definition ret {G : Rmath} {A : Type} (a : A) : M A := fun g => Ok (a, g).

Definition bind {G : Rmath} {A B : Type} (m : M A) (k : A -> M B) : M B :=
  fun g => match m g with
           | Ok (a, g') => k a g'
           | Err e => Err e
           end.

Definition draw {G : Rmath} (d : rng -> double * rng) : M double :=
  fun g => Ok (d g).

Definition lift {G : Rmath} {A : Type} (r : res A) : M A :=
  fun g => match r with
           | Ok a => Ok (a, g)
           | Err e => Err e
           end.

Notation "x <- m ;; k" := (bind m (fun x => k))
  (at level 61, m at next level, right associativity).
Notation "' pat <- m ;; k" := (bind m (fun x => match x with pat => k end))
  (at level 61, pat pattern, m at next level, right associativity).

(** ** Fncs.cpp *)

Section Fncs.
Context {C : Cmath} {G : Rmath}.

(** The scan of [sampleInt], lines 16-20, as the sampler uses it, in exact
    arithmetic ([sampleInt_scan_d] below is the same scan on IEEE doubles,
    for the statements about the index it returns): [rest] is what follows
    [probs[i]], [sum] is [probs[0] + ... + probs[i]].
<<
  while (sum < u) { ++i; sum += probs[i]; }
>> *)
Fixpoint sampleInt_scan (u : double) (rest : vec) (sum : double) (i : nat)
  : res nat :=
  if Qltb sum u then
    match rest with
    | [] => Err OutOfBounds
    | p :: rest' => sampleInt_scan u rest' (sum + p) (S i)
    end
  else Ok i.

(** [sampleInt] once the uniform value [u] is drawn (lines 14-22). *)
Definition sampleInt_at (probs : vec) (u : double) : res nat :=
  match probs with
  | [] => Err OutOfBounds
  | p0 :: rest => sampleInt_scan u rest p0 0
  end.

(** [int sampleInt(const std::vector<double> &probs, double totP = 1)]. *)
Definition sampleInt (probs : vec) (totP : double) : M nat :=
  u <- draw (runif 0 totP) ;;
  lift (sampleInt_at probs u).

(** [int sampleInt(const Eigen::VectorXd &probs)]. *)
Definition sampleInt_Eigen (probs : vec) : M nat :=
  let totP := vsum probs in
  u <- draw (runif 0 totP) ;;
  lift (sampleInt_at probs u).

(** [logDirichletDensity], lines 88-100. *)
Definition logDirichletDensity (x alpha : vec) : res double :=
  if negb (length x =? length alpha)%nat then
    Err (Stop "logDirichletDensity incorrect size"%string)
  else
    Ok (fold_left
          (fun out i =>
             out + ((vget alpha i - 1) * log (vget x i) - lgamma (vget alpha i)))
          (seq 0 (length alpha))
          (lgamma (vsum alpha))).

(** The loop of [rDirichlet], lines 111-114: one Gamma(alpha(i), 1) draw per
    entry, stored in [out] and added to [norm]. *)
Fixpoint rDirichlet_loop (alpha : vec) (out : vec) (norm : double)
  : M (vec * double) :=
  match alpha with
  | [] => ret (out, norm)
  | a :: alpha' =>
      o <- draw (rgamma a 1) ;;
      rDirichlet_loop alpha' (out ++ [o]) (norm + o)
  end.

(** [rDirichlet], lines 108-117. *)
Definition rDirichlet (alpha : vec) : M vec :=
  '(out, norm) <- rDirichlet_loop alpha [] 0 ;;
  ret (map (fun o => o / norm) out).

(** [rHalfCauchyFC], lines 128-135.  [x2] is the value [*x2] on entry;
    [yInv] is [None] for a null pointer and holds [*yInv] otherwise.  The
    result is the pair of [*x2] and [*yInv] on return. *)
Definition rHalfCauchyFC (x2 a b : double) (yInv : option double)
  : M (double * option double) :=
  yi <- draw (rgamma 1 (x2 / (x2 + 1))) ;;
  let yInv' := match yInv with
               | Some _ => Some yi
               | None => None
               end in
  gd <- draw (rgamma ((1 # 2) * (a + 1)) (2 / (b + 2 * yi))) ;;
  ret (1 / gd, yInv').

(** The loop of [intersectAndDiff], lines 168-187.  [o] is [origVec] from
    index [i] on and [n] is [newVec] from index [j] on; the body runs with
    both non-empty.  An empty [n] is the test [j == newVec.size()], which
    appends the rest of [origVec] to [diffVec]; an empty [o] is the exit of
    [while (i < origVec.size())]. *)
Fixpoint intersectAndDiff_loop (o : list Z)
  : list Z -> list Z -> list Z -> list Z * list Z :=
  match o with
  | [] => fun _ intVec diffVec => (intVec, diffVec)
  | oi :: o' =>
      fix scan (n : list Z) (intVec diffVec : list Z) {struct n}
        : list Z * list Z :=
        match n with
        | [] => (intVec, diffVec ++ oi :: o')
        | nj :: n' =>
            if (oi <? nj)%Z then
              intersectAndDiff_loop o' (nj :: n') intVec (diffVec ++ [oi])
            else if (oi =? nj)%Z then
              intersectAndDiff_loop o' n' (intVec ++ [oi]) diffVec
            else
              scan n' intVec diffVec
        end
  end.

(** [intersectAndDiff], lines 146-190. *)
Definition intersectAndDiff (origVec newVec : list Z) : list Z * list Z :=
  match origVec, newVec with
  | [], _ => (origVec, origVec)
  | _, [] => (newVec, origVec)
  | _, _ => intersectAndDiff_loop origVec newVec [] []
  end.

End Fncs.

(** ** The model control object and the trees (modelCtr.h, Node.h)

    The headers that declare these structs are not part of the sources.  The
    records below hold the fields that [tdlmm_Cpp.cpp] reads and writes,
    under their names there. *)

(** Modelled from the spec: the cached value block of a node, [Node::nodevals]
    of Node.h (missing from the sources): the design column of the node, its
    product with the fixed-effect design, and the matrix cached on the root
    of a tree. *)
Record NodeVals : Type := {
  X : vec;
  ZtX : vec;
  tempV : mat
}.

(** Parameters: the types of the headers that the sources only handle
    through pointers: a tree ([Node]), the data of one exposure
    ([exposureDat]), and the part of the control object that only the model
    estimation and the linear-algebra kernel read and write ([famState]:
    Omega, omega2, NBidx, VgChol, gamma, ...). *)
Class Foreign : Type := {
  Node : Type;
  exposureDat : Type;
  famState : Type
}.

(** Modelled from the spec: the model control state, [tdlmCtr] of modelCtr.h
    (missing from the sources), with the fields that the sources use: the
    iteration counters, the configuration, the residuals and fits, the
    variance scales, the exposure-selection probabilities, the exposures and
    sizes of the trees, and the accumulators of a sweep. *)
Record tdlmCtr {F : Foreign} : Type := {
  iter : Z;  burn : Z;  thin : Z;
  b : Z;  record : Z;
  nTrees : nat;  n : nat;  pZ : nat;  nExp : nat;
  stepProb : vec;
  binomial : bool;  zinb : bool;  diagnostics : bool;
  shrinkage : Z;  interaction : Z;
  modKappa : double;
  Ystar : vec;  R : vec;  fhat : vec;  Rmat : mat;
  Zw : mat;  Vg : mat;
  sigma2 : double;  xiInvSigma2 : double;  nu : double;
  tau : vec;  muExp : vec;  muMix : mat;
  expProb : vec;
  tree1Exp : list nat;  tree2Exp : list nat;
  nTerm : vec;  nTerm2 : vec;
  expCount : vec;  expInf : vec;  totTermExp : vec;  sumTermT2Exp : vec;
  mixCount : mat;  totTermMix : mat;  sumTermT2Mix : mat;  mixInf : mat;
  totTerm : double;  sumTermT2 : double;
  family : famState
}.

Module MHR.
(** Modelled from the spec: the transient result of [mixMHR], [treeMHR] of
    modelCtr.h (missing from the sources), with the fields that the sources
    assign. *)
Record treeMHR : Type := {
  Xd : mat;
  tempV : mat;
  drawAll : vec;  draw1 : vec;  draw2 : vec;  drawMix : vec;
  term1T2 : double;  term2T2 : double;  mixT2 : double;
  nTerm1 : nat;  nTerm2 : nat;
  beta : double;
  logVThetaChol : double;
  pXd : nat
}.
End MHR.

(** What the linear-algebra part of [mixMHR] (lines 107-154 and 170-171:
    products, Cholesky factorisations and solves of Eigen, and the normal
    draws) computes from the control object, [ZtR], the arrays [out.Xd],
    [ZtX] and [diagVar], the tree and the flag [newTree]: the matrix stored
    in [out.tempV], the draw [ThetaDraw], the statistic
    [ThetaHat.dot(XtVzInvR)] and the sum of the logarithms of the diagonal
    of [VThetaChol].  No statement below depends on it. *)
Record kernelOut : Type := {
  k_tempV : mat;
  k_ThetaDraw : vec;
  k_beta : double;
  k_logVThetaChol : double
}.

(** Parameters: the operations of the classes [Node] and [exposureDat], the
    functions [tdlmProposeTree] and [tdlmModelEst], whose code is not part of
    the sources, and the linear-algebra part of [mixMHR] ([mhrKernel]).  A
    tree is a value: an operation that changes a tree in place returns the
    tree changed.  A pointer to a terminal node of a tree is the position of
    the node in [listTerminal]: [updateNodeVals e tree k] is
    [e->updateNodeVals(nt)] for the [k]-th terminal node [nt] of [tree].
    [listTerminal tree true] is [tree->listTerminal(1)], the terminal nodes
    of the staged proposal. *)
Class ForeignOps {G : Rmath} {F : Foreign} : Type := {
  nodevals : Node -> NodeVals;
  set_tempV : mat -> Node -> Node;
  nodestruct_get : Node -> nat -> double;
  listTerminal : Node -> bool -> list Node;
  isProposed : Node -> bool;
  accept : Node -> Node;
  reject : Node -> Node;
  copyNode : Node -> Node;
  setUpdate : bool -> Node -> Node;
  replaceNodeVals : Node -> Node -> Node;
  updateNodeVals : exposureDat -> Node -> nat -> Node;
  tdlmProposeTree : Node -> exposureDat -> tdlmCtr -> nat -> M (double * Node);
  tdlmModelEst : tdlmCtr -> M tdlmCtr;
  mhrKernel : tdlmCtr -> vec -> mat -> mat -> vec -> Node -> bool -> M kernelOut
}.

(** ** mixMHR *)

(** The three arrays [mixMHR] fills column by column. *)
Record design : Type := {
  d_Xd : mat;
  d_ZtX : mat;
  d_diagVar : vec
}.

(** The assignments to column [k]:
    [out.Xd.col(k) = x; diagVar(k) = d; ZtX.col(k) = z]. *)
Definition write (k : nat) (x z : vec) (d : double) (st : design) : design :=
  {| d_Xd := upd k x (d_Xd st);
     d_ZtX := upd k z (d_ZtX st);
     d_diagVar := upd k d (d_diagVar st) |}.

Section MixMHR.
Context {C : Cmath} {G : Rmath} {F : Foreign} {O : ForeignOps}.

(** A loop [for (j = j0; j < nodes.size(); ++j)] whose body writes column
    [base + j] from [nodes[j]]; [nodes] is what is left of the vector from
    [j] on. *)
Fixpoint fill (base : nat) (val : Node -> vec * vec * double) (j : nat)
    (nodes : list Node) (st : design) : design :=
  match nodes with
  | [] => st
  | nd :: rest =>
      let '(x, z, d) := val nd in
      fill base val (S j) rest (write (base + j) x z d st)
  end.

(** The column of [ZtX] of a main-effect node (lines 68-72 and 84-88). *)
Definition main_ZtX (ctr : tdlmCtr) (nd : Node) : vec :=
  if binomial ctr || zinb ctr then matT_vec (Zw ctr) (X (nodevals nd))
  else ZtX (nodevals nd).

(** The loop over [i] of lines 93-105; [nodes1] is what is left of the first
    vector from [i] on. *)
Fixpoint fill_mix (ctr : tdlmCtr) (pX1 pX2 : nat) (d : double) (i : nat)
    (nodes1 nodes2 : list Node) (st : design) : design :=
  match nodes1 with
  | [] => st
  | n1 :: rest =>
      fill_mix ctr pX1 pX2 d (S i) rest nodes2
        (fill (pX1 + pX2 + i * pX2)
              (fun n2 => let x := vmul (X (nodevals n1)) (X (nodevals n2)) in
                         (x, matT_vec (Zw ctr) x, d))
              0 nodes2 st)
  end.

(** Lines 42-105 of [mixMHR]: the size [pXd] and the arrays [out.Xd], [ZtX]
    and [diagVar]. *)
Definition mixMHR_pXd (pX1 pX2 : nat) (mixVar : double) : nat :=
  if negb (Qeq_bool mixVar 0) then (pX1 + pX2 + pX1 * pX2)%nat
  else (pX1 + pX2)%nat.

Definition mixMHR_design (nodes1 nodes2 : list Node) (ctr : tdlmCtr)
    (treeVar m1Var m2Var mixVar : double) : design :=
  let pX1 := length nodes1 in
  let pX2 := length nodes2 in
  let pXd := mixMHR_pXd pX1 pX2 mixVar in
  let interaction := negb (Qeq_bool mixVar 0) in
  let st0 := {| d_Xd := mzero (n ctr) pXd;
                d_ZtX := mzero (pZ ctr) pXd;
                d_diagVar := vzero pXd |} in
  let st1 := fill 0 (fun nd => (X (nodevals nd), main_ZtX ctr nd,
                                1 / (m1Var * treeVar))) 0 nodes1 st0 in
  let st2 := fill pX1 (fun nd => (X (nodevals nd), main_ZtX ctr nd,
                                  1 / (m2Var * treeVar))) 0 nodes2 st1 in
  if interaction then
    fill_mix ctr pX1 pX2 (1 / (mixVar * treeVar)) 0 nodes1 nodes2 st2
  else st2.

(** [mixMHR], lines 37-175.  Without interaction the source does not assign
    [out.drawMix] and [out.mixT2] (lines 165-168): the vector is then the
    empty vector of its default construction, and the content of [mixT2] is
    not determined; the field holds 0 here, and neither the sampler nor any
    statement reads it in that case. *)
Definition mixMHR (nodes1 nodes2 : list Node) (ctr : tdlmCtr) (ZtR : vec)
    (treeVar m1Var m2Var mixVar : double) (tree : Node) (newTree : bool)
  : M MHR.treeMHR :=
  let pX1 := length nodes1 in
  let pX2 := length nodes2 in
  let pXd := mixMHR_pXd pX1 pX2 mixVar in
  let interaction := negb (Qeq_bool mixVar 0) in
  let d := mixMHR_design nodes1 nodes2 ctr treeVar m1Var m2Var mixVar in
  ko <- mhrKernel ctr ZtR (d_Xd d) (d_ZtX d) (d_diagVar d) tree newTree ;;
  let ThetaDraw := k_ThetaDraw ko in
  let draw1 := firstn pX1 ThetaDraw in
  let draw2 := firstn pX2 (skipn pX1 ThetaDraw) in
  let drawMix :=
    if interaction
    then skipn (length ThetaDraw - (pXd - pX1 - pX2)) ThetaDraw
    else [] in
  ret {| MHR.Xd := d_Xd d;
         MHR.tempV := k_tempV ko;
         MHR.drawAll := ThetaDraw;
         MHR.draw1 := draw1;
         MHR.draw2 := draw2;
         MHR.drawMix := drawMix;
         MHR.term1T2 := dot draw1 draw1;
         MHR.term2T2 := dot draw2 draw2;
         MHR.mixT2 := if interaction then dot drawMix drawMix else 0;
         MHR.nTerm1 := pX1;
         MHR.nTerm2 := pX2;
         MHR.beta := k_beta ko;
         MHR.logVThetaChol := k_logVThetaChol ko;
         MHR.pXd := pXd |}.

End MixMHR.

(** ** tdlmmTreeMCMC *)

(** Modelled from the spec: the diagnostics log, [tdlmLog] of modelCtr.h
    (missing from the sources): its three growing lists of records.  (The
    matrices of recorded posterior samples are written by the sweep and
    never read by it; they are not modelled.) *)
Record tdlmLog : Type := {
  TreeAccept : list vec;
  DLMexp : list vec;
  MIXexp : list vec
}.

(** An [int] or a size used as a [double]. *)
Definition Qnat (k : nat) : double := inject_Z (Z.of_nat k).

(** [M(r, c)]. *)
Definition mget (A : mat) (r c : nat) : double := vget (col A c) r.

(** [v(k) += x] and [M(r, c) += x]. *)
Definition vaddat (k : nat) (x : double) (v : vec) : vec :=
  upd k (vget v k + x) v.
Definition maddat (r c : nat) (x : double) (A : mat) : mat :=
  upd c (vaddat r x (col A c)) A.

(** [M.rows()]. *)
Definition mrows (A : mat) : nat := length (col A 0).

(** [M.selfadjointView<Eigen::Lower>()]: the symmetric matrix whose lower
    triangle is that of [M]. *)
Definition selfadjointLower (A : mat) : mat :=
  map (fun j => map (fun i => if (j <=? i)%nat then mget A i j else mget A j i)
                    (seq 0 (length A)))
      (seq 0 (length A)).

Fixpoint foldM {G : Rmath} {A B : Type} (f : B -> A -> M B) (l : list A) (b0 : B)
  : M B :=
  match l with
  | [] => ret b0
  | x :: l' => b1 <- f b0 x ;; foldM f l' b1
  end.

(** What a proposal block leaves in the local variables. *)
Record proposal {F : Foreign} : Type := {
  p_step : nat;
  p_success : nat;
  p_stepMhr : double;
  p_newExp : nat;
  p_newExpVar : double;
  p_newMixVar : double;
  p_tree : Node;
  p_newTree : option Node;
  p_newTerm : list Node
}.

(** The local variables of [tdlmmTreeMCMC] that outlive the block of a tree. *)
Record locals {F : Foreign} : Type := {
  l_tree1 : Node;  l_tree2 : Node;
  l_term1 : list Node;  l_term2 : list Node;
  l_m1 : nat;  l_m2 : nat;
  l_m1Var : double;  l_m2Var : double;  l_mixVar : double;
  l_mhr0 : MHR.treeMHR;
  l_ratio : double;
  l_RtR : double;  l_RtZVgZtR : double
}.

Section TreeMCMC.
Context {C : Cmath} {G : Rmath} {F : Foreign} {O : ForeignOps}.

(** The interaction variance of the exposures [a] and [other], lines 209-214,
    252-259 and 372-380: 0 unless interactions are on and the pair is
    admitted, else the entry of [muMix] below the diagonal. *)
Definition pairMixVar (ctr : tdlmCtr) (a other : nat) : double :=
  if negb (interaction ctr =? 0)%Z &&
     ((interaction ctr =? 2)%Z || negb (a =? other)%nat)
  then if (a <=? other)%nat then mget (muMix ctr) other a
       else mget (muMix ctr) a other
  else 0.

(** [Exp[m]]. *)
Definition getExp (Exp : list exposureDat) (m : nat) : M exposureDat :=
  lift (match nth_error Exp m with
        | Some e => Ok e
        | None => Err OutOfBounds
        end).

(** The move actually proposed, lines 228-229 and 350-351. *)
Definition chooseStep (nTerminal : nat) (step : nat) : nat :=
  if (nTerminal =? 1)%nat && (step <? 3)%nat then 0%nat else step.

(** A structural proposal (grow 0, prune 1, change 2), lines 233-236 and
    354-357. *)
Definition proposeStructural (ctr : tdlmCtr) (Exp : list exposureDat)
    (tree : Node) (m : nat) (mVar mixVar : double) (step : nat) : M proposal :=
  e <- getExp Exp m ;;
  '(stepMhr, tree') <- tdlmProposeTree tree e ctr step ;;
  ret {| p_step := step;
         p_success := if isProposed tree' then 1%nat else 0%nat;
         p_stepMhr := stepMhr;
         p_newExp := m;  p_newExpVar := mVar;  p_newMixVar := mixVar;
         p_tree := tree';
         p_newTree := None;
         p_newTerm := listTerminal tree' true |}.

(** A proposal to switch the exposure of the tree, lines 239-260 and
    360-381. *)
Definition proposeSwitch (ctr : tdlmCtr) (Exp : list exposureDat)
    (tree : Node) (m other : nat) (mVar mixVar : double) (step : nat)
  : M proposal :=
  newExp <- sampleInt_Eigen (expProb ctr) ;;
  if negb (newExp =? m)%nat then
    let newTree0 := setUpdate true (copyNode tree) in
    newTree <- foldM (fun tr k => e <- getExp Exp newExp ;;
                                  ret (updateNodeVals e tr k))
                     (seq 0 (length (listTerminal newTree0 false))) newTree0 ;;
    ret {| p_step := step;
           p_success := 1%nat;
           p_stepMhr := 0;
           p_newExp := newExp;
           p_newExpVar := vget (muExp ctr) newExp;
           p_newMixVar := pairMixVar ctr newExp other;
           p_tree := tree;
           p_newTree := Some newTree;
           p_newTerm := listTerminal newTree false |}
  else
    ret {| p_step := step;
           p_success := 0%nat;
           p_stepMhr := 0;
           p_newExp := newExp;  p_newExpVar := mVar;  p_newMixVar := mixVar;
           p_tree := tree;
           p_newTree := None;
           p_newTerm := [] |}.

(** The proposal of an update of one tree, lines 220-261 for the first tree
    of the pair and lines 342-382 for the second (the same text with the
    roles of the two trees exchanged): [tree] with the terminal nodes [term]
    and exposure [m] is the tree updated, [other] is the exposure of the
    other tree. *)
Definition proposeUpdate (ctr : tdlmCtr) (Exp : list exposureDat)
    (tree : Node) (term : list Node) (m other : nat) (mVar mixVar : double)
  : M proposal :=
  sampled <- sampleInt (stepProb ctr) 1 ;;
  let step := chooseStep (length term) sampled in
  if (step <? 3)%nat then proposeStructural ctr Exp tree m mVar mixVar step
  else proposeSwitch ctr Exp tree m other mVar mixVar step.

(** The logarithm of the acceptance ratio before the interaction terms,
    lines 275-293 and 390-406: [nNew] and [nOld] are the numbers of terminal
    nodes of the updated tree in [mhr] and in [mhr0]. *)
Definition logRatio (ctr : tdlmCtr) (stepMhr : double) (mhr mhr0 : MHR.treeMHR)
    (RtR RtZVgZtR treeVar newExpVar mVar : double) (nNew nOld : nat) : double :=
  if binomial ctr || zinb ctr then
    stepMhr + MHR.logVThetaChol mhr - MHR.logVThetaChol mhr0 +
    (1 # 2) * (MHR.beta mhr - MHR.beta mhr0) -
    ((1 # 2) * ((log (treeVar * newExpVar) * Qnat nNew) -
                (log (treeVar * mVar) * Qnat nOld)))
  else
    stepMhr + MHR.logVThetaChol mhr - MHR.logVThetaChol mhr0 -
    ((1 # 2) * (Qnat (n ctr) + 1) *
     (log ((1 # 2) * (RtR - RtZVgZtR - MHR.beta mhr) + xiInvSigma2 ctr) -
      log ((1 # 2) * (RtR - RtZVgZtR - MHR.beta mhr0) + xiInvSigma2 ctr))) -
    ((1 # 2) * ((log (treeVar * newExpVar) * Qnat nNew) -
                (log (treeVar * mVar) * Qnat nOld))).

(** [RtR] and [RtZVgZtR], computed on first use in the Gaussian case
    (lines 282-285 and 396-399). *)
Definition cacheRtR (ctr : tdlmCtr) (ZtR : vec) (RtR RtZVgZtR : double)
  : double * double :=
  if binomial ctr || zinb ctr then (RtR, RtZVgZtR)
  else if Qltb RtR 0
       then (dot (R ctr) (R ctr),
             dot ZtR (mat_vec (selfadjointLower (Vg ctr)) ZtR))
       else (RtR, RtZVgZtR).

(** The row pushed to [dgn->TreeAccept], lines 333-337 and 445-449. *)
Definition acceptRow (which step success m nTerminal : nat)
    (stepMhr ratio : double) : vec :=
  [Qnat which; Qnat step; Qnat success; Qnat m; Qnat nTerminal; stepMhr; ratio].

Definition pushAccept (ctr : tdlmCtr) (dgn : tdlmLog) (row : vec) : tdlmLog :=
  if diagnostics ctr then
    {| TreeAccept := TreeAccept dgn ++ [row];
       DLMexp := DLMexp dgn;
       MIXexp := MIXexp dgn |}
  else dgn.

(** "Update tree 1", lines 219-337.  [ratio0] is the content of the local
    variable [ratio], which the source declares without a value. *)
Definition tdlmmTreeMCMC_tree1 (t : nat) (tree1 tree2 : Node) (ctr : tdlmCtr)
    (dgn : tdlmLog) (Exp : list exposureDat) (ratio0 : double)
  : M (locals * tdlmLog) :=
  let term1 := listTerminal tree1 false in
  let term2 := listTerminal tree2 false in
  let treeVar := nu ctr * vget (tau ctr) t in
  let m1 := nth t (tree1Exp ctr) 0%nat in
  let m2 := nth t (tree2Exp ctr) 0%nat in
  let m1Var := vget (muExp ctr) m1 in
  let m2Var := vget (muExp ctr) m2 in
  let mixVar := pairMixVar ctr m1 m2 in
  let ZtR := matT_vec (Zw ctr) (R ctr) in
  p <- proposeUpdate ctr Exp tree1 term1 m1 m2 m1Var mixVar ;;
  let tree1 := p_tree p in
  mhr0 <- mixMHR term1 term2 ctr ZtR treeVar m1Var m2Var mixVar tree1
            (mrows (tempV (nodevals tree1)) =? 0)%nat ;;
  let finish (l : locals) (success : nat) :=
    ret (l, pushAccept ctr dgn
              (acceptRow 1 (p_step p) success (l_m1 l) (length (l_term1 l))
                         (p_stepMhr p) (l_ratio l))) in
  let keep (tree1 : Node) (ratio RtR RtZVgZtR : double) : locals :=
    {| l_tree1 := tree1;  l_tree2 := tree2;
       l_term1 := term1;  l_term2 := term2;
       l_m1 := m1;  l_m2 := m2;
       l_m1Var := m1Var;  l_m2Var := m2Var;  l_mixVar := mixVar;
       l_mhr0 := mhr0;
       l_ratio := ratio;
       l_RtR := RtR;  l_RtZVgZtR := RtZVgZtR |} in
  if negb (p_success p =? 0)%nat then
    mhr <- mixMHR (p_newTerm p) term2 ctr ZtR treeVar
             (p_newExpVar p) m2Var (p_newMixVar p) tree1 true ;;
    let '(RtR, RtZVgZtR) := cacheRtR ctr ZtR (-(1)) 0 in
    let ratio := logRatio ctr (p_stepMhr p) mhr mhr0 RtR RtZVgZtR treeVar
                          (p_newExpVar p) m1Var
                          (MHR.nTerm1 mhr) (MHR.nTerm1 mhr0) in
    let ratio :=
      if negb (Qeq_bool (p_newMixVar p) 0)
      then ratio - (1 # 2) * log (treeVar * p_newMixVar p) *
                   Qnat (MHR.nTerm1 mhr) * Qnat (MHR.nTerm2 mhr0)
      else ratio in
    let ratio :=
      if negb (Qeq_bool mixVar 0)
      then ratio + (1 # 2) * log (treeVar * mixVar) *
                   Qnat (MHR.nTerm1 mhr0) * Qnat (MHR.nTerm2 mhr0)
      else ratio in
    u <- draw (runif 0 1) ;;
    if Qltb (log u) ratio then
      let switched := (p_step p =? 3)%nat in
      let tree1 :=
        match switched, p_newTree p with
        | true, Some newTree => replaceNodeVals tree1 newTree
        | true, None => tree1
        | false, _ => accept tree1
        end in
      let tree1 :=
        if negb (binomial ctr) && negb (zinb ctr)
        then set_tempV (MHR.tempV mhr) tree1
        else tree1 in
      finish
        {| l_tree1 := tree1;  l_tree2 := tree2;
           l_term1 := listTerminal tree1 false;  l_term2 := term2;
           l_m1 := if switched then p_newExp p else m1;
           l_m2 := m2;
           l_m1Var := if switched then p_newExpVar p else m1Var;
           l_m2Var := m2Var;
           l_mixVar := if switched then p_newMixVar p else mixVar;
           l_mhr0 := mhr;
           l_ratio := ratio;
           l_RtR := RtR;  l_RtZVgZtR := RtZVgZtR |}
        2%nat
    else
      finish (keep (reject tree1) ratio RtR RtZVgZtR) (p_success p)
  else if (p_step p <? 3)%nat then
    finish (keep (reject tree1) ratio0 (-(1)) 0) (p_success p)
  else
    finish (keep tree1 ratio0 (-(1)) 0) (p_success p).

(** "Update tree 2", lines 341-449. *)
Definition tdlmmTreeMCMC_tree2 (t : nat) (ctr : tdlmCtr) (dgn : tdlmLog)
    (Exp : list exposureDat) (l : locals) : M (locals * tdlmLog) :=
  let tree1 := l_tree1 l in
  let term1 := l_term1 l in
  let term2 := l_term2 l in
  let m1 := l_m1 l in
  let m2 := l_m2 l in
  let m1Var := l_m1Var l in
  let m2Var := l_m2Var l in
  let mixVar := l_mixVar l in
  let mhr0 := l_mhr0 l in
  let treeVar := nu ctr * vget (tau ctr) t in
  let ZtR := matT_vec (Zw ctr) (R ctr) in
  p <- proposeUpdate ctr Exp (l_tree2 l) term2 m2 m1 m2Var mixVar ;;
  let tree2 := p_tree p in
  let finish (l' : locals) (success : nat) :=
    ret (l', pushAccept ctr dgn
               (acceptRow 2 (p_step p) success (l_m2 l') (length (l_term2 l'))
                          (p_stepMhr p) (l_ratio l'))) in
  let keep (tree2 : Node) (ratio RtR RtZVgZtR : double) : locals :=
    {| l_tree1 := tree1;  l_tree2 := tree2;
       l_term1 := term1;  l_term2 := term2;
       l_m1 := m1;  l_m2 := m2;
       l_m1Var := m1Var;  l_m2Var := m2Var;  l_mixVar := mixVar;
       l_mhr0 := mhr0;
       l_ratio := ratio;
       l_RtR := RtR;  l_RtZVgZtR := RtZVgZtR |} in
  if negb (p_success p =? 0)%nat then
    mhr <- mixMHR term1 (p_newTerm p) ctr ZtR treeVar
             m1Var (p_newExpVar p) (p_newMixVar p) tree1 true ;;
    let '(RtR, RtZVgZtR) := cacheRtR ctr ZtR (l_RtR l) (l_RtZVgZtR l) in
    let ratio := logRatio ctr (p_stepMhr p) mhr mhr0 RtR RtZVgZtR treeVar
                          (p_newExpVar p) m2Var
                          (MHR.nTerm2 mhr) (MHR.nTerm2 mhr0) in
    let ratio :=
      if negb (Qeq_bool (p_newMixVar p) 0)
      then ratio - (1 # 2) * log (treeVar * p_newMixVar p) *
                   Qnat (MHR.nTerm1 mhr0) * Qnat (MHR.nTerm2 mhr)
      else ratio in
    let ratio :=
      if negb (Qeq_bool mixVar 0)
      then ratio + (1 # 2) * log (treeVar * mixVar) *
                   Qnat (MHR.nTerm1 mhr0) * Qnat (MHR.nTerm2 mhr0)
      else ratio in
    u <- draw (runif 0 1) ;;
    if Qltb (log u) ratio then
      let switched := (p_step p =? 3)%nat in
      let tree2 :=
        match switched, p_newTree p with
        | true, Some newTree => replaceNodeVals tree2 newTree
        | true, None => tree2
        | false, _ => accept tree2
        end in
      let tree1 :=
        if negb (binomial ctr) && negb (zinb ctr)
        then set_tempV (MHR.tempV mhr) tree1
        else tree1 in
      finish
        {| l_tree1 := tree1;  l_tree2 := tree2;
           l_term1 := term1;  l_term2 := listTerminal tree2 false;
           l_m1 := m1;
           l_m2 := if switched then p_newExp p else m2;
           l_m1Var := m1Var;
           l_m2Var := if switched then p_newExpVar p else m2Var;
           l_mixVar := if switched then p_newMixVar p else mixVar;
           l_mhr0 := mhr;
           l_ratio := ratio;
           l_RtR := RtR;  l_RtZVgZtR := RtZVgZtR |}
        2%nat
    else
      finish (keep (reject tree2) ratio RtR RtZVgZtR) (p_success p)
  else if (p_step p <? 3)%nat then
    finish (keep (reject tree2) (l_ratio l) (l_RtR l) (l_RtZVgZtR l)) (p_success p)
  else
    finish (keep tree2 (l_ratio l) (l_RtR l) (l_RtZVgZtR l)) (p_success p).

(** "Update variance and residuals", lines 453-494: the only writes of
    [tdlmmTreeMCMC] to the control object. *)
Definition tdlmmTreeMCMC_update (t : nat) (ctr : tdlmCtr) (l : locals)
  : M tdlmCtr :=
  let mhr0 := l_mhr0 l in
  let m1 := l_m1 l in
  let m2 := l_m2 l in
  let mixVar := l_mixVar l in
  let nT1 := MHR.nTerm1 mhr0 in
  let nT2 := MHR.nTerm2 mhr0 in
  let mixed := negb (Qeq_bool mixVar 0) in
  let tauT2 := MHR.term1T2 mhr0 / l_m1Var l + MHR.term2T2 mhr0 / l_m2Var l in
  let tauT2 := if mixed then tauT2 + MHR.mixT2 mhr0 / mixVar else tauT2 in
  let totTerm' := if mixed then (nT1 + nT2 + nT1 * nT2)%nat
                  else (nT1 + nT2)%nat in
  tau' <- (if (1 <? shrinkage ctr)%Z then
             '(x2, _) <- rHalfCauchyFC (vget (tau ctr) t) (Qnat totTerm')
                           (tauT2 / (sigma2 ctr * nu ctr)) None ;;
             ret (upd t x2 (tau ctr))
           else ret (tau ctr)) ;;
  let tau_t := vget tau' t in
  let r := if (m1 <=? m2)%nat then m2 else m1 in
  let c := if (m1 <=? m2)%nat then m1 else m2 in
  ret {| iter := iter ctr;  burn := burn ctr;  thin := thin ctr;
         b := b ctr;  record := record ctr;
         nTrees := nTrees ctr;  n := n ctr;  pZ := pZ ctr;  nExp := nExp ctr;
         stepProb := stepProb ctr;
         binomial := binomial ctr;  zinb := zinb ctr;
         diagnostics := diagnostics ctr;
         shrinkage := shrinkage ctr;  interaction := interaction ctr;
         modKappa := modKappa ctr;
         Ystar := Ystar ctr;  R := R ctr;  fhat := fhat ctr;
         Rmat := upd t (mat_vec (MHR.Xd mhr0) (MHR.drawAll mhr0)) (Rmat ctr);
         Zw := Zw ctr;  Vg := Vg ctr;
         sigma2 := sigma2 ctr;  xiInvSigma2 := xiInvSigma2 ctr;  nu := nu ctr;
         tau := tau';
         muExp := muExp ctr;  muMix := muMix ctr;
         expProb := expProb ctr;
         tree1Exp := upd t m1 (tree1Exp ctr);
         tree2Exp := upd t m2 (tree2Exp ctr);
         nTerm := upd t (Qnat nT1) (nTerm ctr);
         nTerm2 := upd t (Qnat nT2) (nTerm2 ctr);
         expCount := vaddat m2 1 (vaddat m1 1 (expCount ctr));
         expInf := vaddat m2 tau_t (vaddat m1 tau_t (expInf ctr));
         totTermExp :=
           vaddat m2 (Qnat nT2) (vaddat m1 (Qnat nT1) (totTermExp ctr));
         sumTermT2Exp :=
           vaddat m2 (MHR.term2T2 mhr0 / tau_t)
                  (vaddat m1 (MHR.term1T2 mhr0 / tau_t) (sumTermT2Exp ctr));
         mixCount := if mixed then maddat r c 1 (mixCount ctr) else mixCount ctr;
         totTermMix :=
           if mixed then maddat r c (Qnat nT1 * Qnat nT2) (totTermMix ctr)
           else totTermMix ctr;
         sumTermT2Mix :=
           if mixed then maddat r c (MHR.mixT2 mhr0 / tau_t) (sumTermT2Mix ctr)
           else sumTermT2Mix ctr;
         mixInf := if mixed then maddat r c tau_t (mixInf ctr) else mixInf ctr;
         totTerm := totTerm ctr;  sumTermT2 := sumTermT2 ctr;
         family := family ctr |}.

(** [terms[i]]. *)
Definition getNode (terms : list Node) (i : nat) : M Node :=
  lift (match nth_error terms i with
        | Some nd => Ok nd
        | None => Err OutOfBounds
        end).

(** "Record", lines 496-549; [ctr] is the control object after the update of
    [tau]. *)
Definition tdlmmTreeMCMC_record (t : nat) (ctr : tdlmCtr) (l : locals)
    (dgn : tdlmLog) : M tdlmLog :=
  let mhr0 := l_mhr0 l in
  let m1 := l_m1 l in
  let m2 := l_m2 l in
  let mixVar := l_mixVar l in
  let rec0 := inject_Z (record ctr) in
  let tau_t := vget (tau ctr) t in
  if (0 <? record ctr)%Z then
    '(dgn', _) <-
      foldM (fun (st : tdlmLog * nat) i =>
        n1 <- getNode (l_term1 l) i ;;
        let rec1 := [rec0; Qnat t; 0; Qnat m1; nodestruct_get n1 3;
                     nodestruct_get n1 4; vget (MHR.draw1 mhr0) i;
                     tau_t * l_m1Var l] in
        let dgn1 := {| TreeAccept := TreeAccept (fst st);
                       DLMexp := DLMexp (fst st) ++ [rec1];
                       MIXexp := MIXexp (fst st) |} in
        foldM (fun (st : tdlmLog * nat) j =>
          st1 <- (if (i =? 0)%nat then
                    n2 <- getNode (l_term2 l) j ;;
                    let rec2 := [rec0; Qnat t; 1; Qnat m2; nodestruct_get n2 3;
                                 nodestruct_get n2 4; vget (MHR.draw2 mhr0) j;
                                 tau_t * l_m2Var l] in
                    ret ({| TreeAccept := TreeAccept (fst st);
                            DLMexp := DLMexp (fst st) ++ [rec2];
                            MIXexp := MIXexp (fst st) |}, snd st)
                  else ret st) ;;
          if negb (Qeq_bool mixVar 0) then
            n2 <- getNode (l_term2 l) j ;;
            let e1 := [Qnat m1; nodestruct_get n1 3; nodestruct_get n1 4] in
            let e2 := [Qnat m2; nodestruct_get n2 3; nodestruct_get n2 4] in
            let k := snd st1 in
            let mix := [rec0; Qnat t] ++
                       (if (m1 <=? m2)%nat then e1 ++ e2 else e2 ++ e1) ++
                       [vget (MHR.drawMix mhr0) k; 0] in
            ret ({| TreeAccept := TreeAccept (fst st1);
                    DLMexp := DLMexp (fst st1);
                    MIXexp := MIXexp (fst st1) ++ [mix] |}, S k)
          else ret st1)
          (seq 0 (MHR.nTerm2 mhr0)) (dgn1, snd st))
        (seq 0 (MHR.nTerm1 mhr0)) (dgn, 0%nat) ;;
    ret dgn'
  else ret dgn.

(** [tdlmmTreeMCMC], lines 187-550.  The trees, the control object and the
    log are passed by pointer in the source; the function returns what they
    hold on return. *)
Definition tdlmmTreeMCMC (t : nat) (tree1 tree2 : Node) (ctr : tdlmCtr)
    (dgn : tdlmLog) (Exp : list exposureDat) (ratio0 : double)
  : M (Node * Node * tdlmCtr * tdlmLog) :=
  '(l1, dgn1) <- tdlmmTreeMCMC_tree1 t tree1 tree2 ctr dgn Exp ratio0 ;;
  '(l2, dgn2) <- tdlmmTreeMCMC_tree2 t ctr dgn1 Exp l1 ;;
  ctr' <- tdlmmTreeMCMC_update t ctr l2 ;;
  dgn3 <- tdlmmTreeMCMC_record t ctr' l2 dgn2 ;;
  ret (l_tree1 l2, l_tree2 l2, ctr', dgn3).

End TreeMCMC.

(** ** One iteration of the sampler of tdlmm_Cpp (lines 824-939) *)

(** [v.setZero()] and [M.setZero()]: the sizes stay. *)
Definition vsetZero (v : vec) : vec := map (fun _ => 0) v.
Definition msetZero (A : mat) : mat := map vsetZero A.

(** [M.sum()]. *)
Definition msum (A : mat) : double := vsum (map vsum A).

(** [M(r, c) = x]. *)
Definition mset (r c : nat) (x : double) (A : mat) : mat :=
  upd c (upd r x (col A c)) A.

(** The trees of the pairs, the control object and the log. *)
Record sampler {F : Foreign} : Type := {
  trees1 : list Node;
  trees2 : list Node;
  ctr : tdlmCtr;
  dgn : tdlmLog
}.

Section Sweep.
Context {C : Cmath} {G : Rmath} {F : Foreign} {O : ForeignOps}.

(** The control object with [R] and [fhat] replaced. *)
Definition set_R_fhat (R' fhat' : vec) (c : tdlmCtr) : tdlmCtr :=
  {| iter := iter c;  burn := burn c;  thin := thin c;
     b := b c;  record := record c;
     nTrees := nTrees c;  n := n c;  pZ := pZ c;  nExp := nExp c;
     stepProb := stepProb c;
     binomial := binomial c;  zinb := zinb c;  diagnostics := diagnostics c;
     shrinkage := shrinkage c;  interaction := interaction c;
     modKappa := modKappa c;
     Ystar := Ystar c;  R := R';  fhat := fhat';  Rmat := Rmat c;
     Zw := Zw c;  Vg := Vg c;
     sigma2 := sigma2 c;  xiInvSigma2 := xiInvSigma2 c;  nu := nu c;
     tau := tau c;  muExp := muExp c;  muMix := muMix c;
     expProb := expProb c;
     tree1Exp := tree1Exp c;  tree2Exp := tree2Exp c;
     nTerm := nTerm c;  nTerm2 := nTerm2 c;
     expCount := expCount c;  expInf := expInf c;
     totTermExp := totTermExp c;  sumTermT2Exp := sumTermT2Exp c;
     mixCount := mixCount c;  totTermMix := totTermMix c;
     sumTermT2Mix := sumTermT2Mix c;  mixInf := mixInf c;
     totTerm := totTerm c;  sumTermT2 := sumTermT2 c;
     family := family c |}.

(** Lines 827-848: the record index of the iteration and the reset of the
    accumulators; [R] gets the fit of the first tree pair back. *)
Definition sweep_begin (c : tdlmCtr) : tdlmCtr :=
  let gaps := (interaction c >? 0)%Z in
  {| iter := iter c;  burn := burn c;  thin := thin c;
     b := b c;
     record := if (burn c <? b c)%Z && (Z.rem (b c - burn c) (thin c) =? 0)%Z
               then Z.quot (b c - burn c) (thin c) else 0%Z;
     nTrees := nTrees c;  n := n c;  pZ := pZ c;  nExp := nExp c;
     stepProb := stepProb c;
     binomial := binomial c;  zinb := zinb c;  diagnostics := diagnostics c;
     shrinkage := shrinkage c;  interaction := interaction c;
     modKappa := modKappa c;
     Ystar := Ystar c;
     R := vadd (R c) (col (Rmat c) 0);
     fhat := vsetZero (fhat c);
     Rmat := Rmat c;
     Zw := Zw c;  Vg := Vg c;
     sigma2 := sigma2 c;  xiInvSigma2 := xiInvSigma2 c;  nu := nu c;
     tau := tau c;  muExp := muExp c;  muMix := muMix c;
     expProb := expProb c;
     tree1Exp := tree1Exp c;  tree2Exp := tree2Exp c;
     nTerm := nTerm c;  nTerm2 := nTerm2 c;
     expCount := vsetZero (expCount c);
     expInf := vsetZero (expInf c);
     totTermExp := vsetZero (totTermExp c);
     sumTermT2Exp := vsetZero (sumTermT2Exp c);
     mixCount := msetZero (mixCount c);
     totTermMix := if gaps then msetZero (totTermMix c) else totTermMix c;
     sumTermT2Mix := if gaps then msetZero (sumTermT2Mix c) else sumTermT2Mix c;
     mixInf := msetZero (mixInf c);
     totTerm := 0;  sumTermT2 := 0;
     family := family c |}.

(** The body of the loop over the tree pairs, lines 852-855.  [ratio0] is
    the content of the unset local [ratio] of this call of
    [tdlmmTreeMCMC]. *)
Definition treeStep (Exp : list exposureDat) (indet : nat -> double)
    (s : sampler) (t : nat) : M sampler :=
  tree1 <- getNode (trees1 s) t ;;
  tree2 <- getNode (trees2 s) t ;;
  '(tree1', tree2', c1, dgn') <-
    tdlmmTreeMCMC t tree1 tree2 (ctr s) (dgn s) Exp (indet t) ;;
  let fhat' := vadd (fhat c1) (col (Rmat c1) t) in
  let R' := if (t <? nTrees c1 - 1)%nat
            then vadd (R c1) (vsub (col (Rmat c1) (S t)) (col (Rmat c1) t))
            else R c1 in
  ret {| trees1 := upd t tree1' (trees1 s);
         trees2 := upd t tree2' (trees2 s);
         ctr := set_R_fhat R' fhat' c1;
         dgn := dgn' |}.

(** The loop [for (t = 0; t < ctr->nTrees; ++t)] up to, and without, the
    step [t = upto]. *)
Definition treeLoop (Exp : list exposureDat) (indet : nat -> double)
    (upto : nat) (s : sampler) : M sampler :=
  foldM (treeStep Exp indet) (seq 0 upto) s.

(** Lines 876-890: the variances of the exposures and of their pairs. *)
Definition shrinkExposures (c : tdlmCtr) (sigmanu : double) : M (vec * mat) :=
  foldM (fun (st : vec * mat) i =>
    '(x2, _) <- rHalfCauchyFC (vget (fst st) i) (vget (totTermExp c) i)
                  (vget (sumTermT2Exp c) i / sigmanu) None ;;
    let mu := upd i x2 (fst st) in
    if negb (interaction c =? 0)%Z then
      mm <- foldM (fun (mm : mat) j =>
              if (i <? j)%nat || (interaction c =? 2)%Z then
                '(y2, _) <- rHalfCauchyFC (mget mm j i) (mget (totTermMix c) j i)
                              (mget (sumTermT2Mix c) j i / sigmanu) None ;;
                ret (mset j i y2 mm)
              else ret mm)
            (seq i (nExp c - i)) (snd st) ;;
      ret (mu, mm)
    else ret (mu, snd st))
    (seq 0 (nExp c)) (muExp c, muMix c).

(** The test of line 894. *)
Definition adaptsExpProb (c : tdlmCtr) : bool :=
  (1000 <? b c)%Z || Qltb ((1 # 2) * inject_Z (burn c)) (inject_Z (b c)).

(** Lines 858-865: the residuals recomputed from the total fit, and the
    totals of the accumulators. *)
Definition sweep_totals (c : tdlmCtr) : tdlmCtr :=
  let sumT2 := vsum (sumTermT2Exp c) in
  let totT := vsum (totTermExp c) in
  let mixed := negb (interaction c =? 0)%Z in
  {| iter := iter c;  burn := burn c;  thin := thin c;
     b := b c;  record := record c;
     nTrees := nTrees c;  n := n c;  pZ := pZ c;  nExp := nExp c;
     stepProb := stepProb c;
     binomial := binomial c;  zinb := zinb c;  diagnostics := diagnostics c;
     shrinkage := shrinkage c;  interaction := interaction c;
     modKappa := modKappa c;
     Ystar := Ystar c;
     R := vsub (Ystar c) (fhat c);
     fhat := fhat c;  Rmat := Rmat c;
     Zw := Zw c;  Vg := Vg c;
     sigma2 := sigma2 c;  xiInvSigma2 := xiInvSigma2 c;  nu := nu c;
     tau := tau c;  muExp := muExp c;  muMix := muMix c;
     expProb := expProb c;
     tree1Exp := tree1Exp c;  tree2Exp := tree2Exp c;
     nTerm := nTerm c;  nTerm2 := nTerm2 c;
     expCount := expCount c;  expInf := expInf c;
     totTermExp := totTermExp c;  sumTermT2Exp := sumTermT2Exp c;
     mixCount := mixCount c;  totTermMix := totTermMix c;
     sumTermT2Mix := sumTermT2Mix c;  mixInf := mixInf c;
     totTerm := if mixed then totT + msum (totTermMix c) else totT;
     sumTermT2 := if mixed then sumT2 + msum (sumTermT2Mix c) else sumT2;
     family := family c |}.

(** Lines 867-896: the model estimation, the horseshoe variances and the
    exposure-selection probabilities. *)
Definition sweep_end (c : tdlmCtr) : M tdlmCtr :=
  c2 <- tdlmModelEst (sweep_totals c) ;;
  '(nu', _) <- rHalfCauchyFC (nu c2) (totTerm c2) (sumTermT2 c2 / sigma2 c2) None ;;
  let sigmanu := sigma2 c2 * nu' in
  '(muExp', muMix') <-
    (if (shrinkage c2 =? 3)%Z || (shrinkage c2 =? 1)%Z
     then shrinkExposures c2 sigmanu
     else ret (muExp c2, muMix c2)) ;;
  expProb' <-
    (if adaptsExpProb c2
     then rDirichlet (map (fun k => k + modKappa c2) (expCount c2))
     else ret (expProb c2)) ;;
  ret {| iter := iter c2;  burn := burn c2;  thin := thin c2;
         b := b c2;  record := record c2;
         nTrees := nTrees c2;  n := n c2;  pZ := pZ c2;  nExp := nExp c2;
         stepProb := stepProb c2;
         binomial := binomial c2;  zinb := zinb c2;
         diagnostics := diagnostics c2;
         shrinkage := shrinkage c2;  interaction := interaction c2;
         modKappa := modKappa c2;
         Ystar := Ystar c2;  R := R c2;  fhat := fhat c2;  Rmat := Rmat c2;
         Zw := Zw c2;  Vg := Vg c2;
         sigma2 := sigma2 c2;  xiInvSigma2 := xiInvSigma2 c2;  nu := nu';
         tau := tau c2;  muExp := muExp';  muMix := muMix';
         expProb := expProb';
         tree1Exp := tree1Exp c2;  tree2Exp := tree2Exp c2;
         nTerm := nTerm c2;  nTerm2 := nTerm2 c2;
         expCount := expCount c2;  expInf := expInf c2;
         totTermExp := totTermExp c2;  sumTermT2Exp := sumTermT2Exp c2;
         mixCount := mixCount c2;  totTermMix := totTermMix c2;
         sumTermT2Mix := sumTermT2Mix c2;  mixInf := mixInf c2;
         totTerm := totTerm c2;  sumTermT2 := sumTermT2 c2;
         family := family c2 |}.

(** The sampler with its control object replaced. *)
Definition set_ctr (c : tdlmCtr) (s : sampler) : sampler :=
  {| trees1 := trees1 s;  trees2 := trees2 s;  ctr := c;  dgn := dgn s |}.

(** The sampler as the loop over the tree pairs finds it. *)
Definition sweep_start (s : sampler) : sampler := set_ctr (sweep_begin (ctr s)) s.

(** One iteration of the loop of line 824, for the value of [b] that the
    control object holds.  The copy of the current parameters into the
    matrices of the log (lines 898-935) is left out. *)
Definition sweep (Exp : list exposureDat) (indet : nat -> double) (s : sampler)
  : M sampler :=
  s1 <- treeLoop Exp indet (nTrees (ctr s)) (sweep_start s) ;;
  c2 <- sweep_end (ctr s1) ;;
  ret (set_ctr c2 s1).

End Sweep.

(** ** Fncs.cpp: the selection of entries and rows *)

(** [v(k)] for an [int] index [k], read as 0 outside the vector. *)
Definition vgetZ (v : vec) (k : Z) : double :=
  if (k <? 0)%Z then 0 else vget v (Z.to_nat k).

(** [selectInd], lines 217-231: [subset] has [m] entries, and the loop writes
    entry [i] from [original(indices[i])].  (The entries of [subset] are
    unset after [resize]; the loop writes every one of them.) *)
Definition selectInd (original : vec) (indices : list Z) : vec :=
  let m := length indices in
  fold_left (fun subset i => upd i (vgetZ original (nth i indices 0%Z)) subset)
            (seq 0 m) (vzero m).

(** [selectIndM], lines 243-260: [submat] has [rownum] rows and [colnum]
    columns, and the loops write [submat(i, j)] from [original(indices[i], j)]. *)
Definition selectIndM (original : mat) (indices : list Z) : mat :=
  let rownum := length indices in
  let colnum := length original in
  fold_left
    (fun submat i =>
       let index := nth i indices 0%Z in
       fold_left
         (fun submat j =>
            upd j (upd i (vgetZ (col original j) index) (col submat j)) submat)
         (seq 0 colnum) submat)
    (seq 0 rownum) (mzero rownum colnum).

(** ** tdlmm_Cpp: the set-up of the zero-inflated model and of the pairs *)

(** Lines 646 and 655-663: the indices of the zero outcomes, those of the
    other outcomes, and the vector [w], over [j = 0 .. n - 1]. *)
Definition zeroSplit (Y0 : vec) : list Z * list Z * vec :=
  fold_left
    (fun (st : list Z * list Z * vec) j =>
       let '(yZeroIdx, NBidx, w) := st in
       if Qeq_bool (vget Y0 j) 0
       then (yZeroIdx ++ [Z.of_nat j], NBidx, upd j (1 # 2) w)
       else (yZeroIdx, NBidx ++ [Z.of_nat j], upd j 0 w))
    (seq 0 (length Y0)) ([], [], vzero (length Y0)).

(** Lines 700-701 and 718-721: the exposures of the trees at the start, one
    draw of [sampleInt(expProb)] for each tree of each pair, in the order of
    the loop.  (The creation of the root nodes in the same loop is not
    modelled.) *)
Definition initExposures {G : Rmath} (expProb0 : vec) (nTrees0 : nat)
  : M (list nat * list nat) :=
  foldM (fun (st : list nat * list nat) t =>
           m1 <- sampleInt_Eigen expProb0 ;;
           m2 <- sampleInt_Eigen expProb0 ;;
           ret (upd t m1 (fst st), upd t m2 (snd st)))
        (seq 0 nTrees0) (repeat 0%nat nTrees0, repeat 0%nat nTrees0).

(** [int(x)]: the integer part of a [double], towards zero. *)
Definition Qtrunc (x : double) : Z :=
  if Qltb x 0 then Qceiling x else Qfloor x.

(** Lines 691-697: the number of exposure pairs that have an interaction,
    [int(nExp * (nExp - 1.0) / 2.0)], and [nExp] more with self-pairs. *)
Definition nMixOf (nExp0 : nat) (interaction0 : Z) : Z :=
  if negb (interaction0 =? 0)%Z then
    let pairs := Qtrunc (Qnat nExp0 * (Qnat nExp0 - 1) / 2) in
    if (interaction0 =? 2)%Z then (pairs + Z.of_nat nExp0)%Z else pairs
  else 0%Z.

(** Lines 739-747: the number of rows of the matrices that record the
    variances and counts of the pairs, [nMix] with [interaction > 0] and 1
    otherwise. *)
Definition mixRows (nExp0 : nat) (interaction0 : Z) : Z :=
  if (0 <? interaction0)%Z then nMixOf nExp0 interaction0 else 1%Z.

(** The loops of lines 921-933, which number the pairs of exposures with the
    counter [k] (lines 881-888 visit the same pairs): none without
    interactions, otherwise the pairs [(j, i)] with [i <= j < nExp] and
    [j > i] or [interaction == 2], in the order of the loops. *)
Definition mixPairs (nExp0 : nat) (interaction0 : Z) : list (nat * nat) :=
  if negb (interaction0 =? 0)%Z then
    fold_left
      (fun acc i =>
         fold_left
           (fun acc j =>
              if (i <? j)%nat || (interaction0 =? 2)%Z then acc ++ [(j, i)] else acc)
           (seq i (nExp0 - i)) acc)
      (seq 0 nExp0) []
  else [].

(** ** The code that depends on rounding, over IEEE doubles *)

Section IEEE.
Import PrimFloat.

(** A [std::vector<double>] or [Eigen::VectorXd] of IEEE binary64 numbers. *)
Definition fvec : Type := list float.

(** What the code takes from its libraries on doubles: the uniform draws of
    R ([R::runif]) and [probs.sum()] of Eigen, whose order of additions is
    Eigen's own. *)
Class Doubles : Type := {
  rng_d : Type;
  runif_d : float -> float -> rng_d -> float * rng_d;
  eigen_sum : fvec -> float
}.

(** The scan of [sampleInt], lines 16-20, on doubles: [sum < u] and
    [sum += probs[i]] are the comparison and the addition of binary64. *)
Fixpoint sampleInt_scan_d (u : float) (rest : fvec) (sum : float) (i : nat)
  : res nat :=
  if (sum <? u)%float then
    match rest with
    | [] => Err OutOfBounds
    | p :: rest' => sampleInt_scan_d u rest' (sum + p)%float (S i)
    end
  else Ok i.

(** [sampleInt] once the uniform value [u] is drawn (lines 14-22). *)
Definition sampleInt_at_d (probs : fvec) (u : float) : res nat :=
  match probs with
  | [] => Err OutOfBounds
  | p0 :: rest => sampleInt_scan_d u rest p0 0
  end.

(** [int sampleInt(const std::vector<double> &probs, double totP = 1)],
    lines 12-23. *)
Definition sampleInt_d {D : Doubles} (probs : fvec) (totP : float) (g : rng_d)
  : res (nat * rng_d) :=
  match sampleInt_at_d probs (fst (runif_d 0 totP g)) with
  | Ok i => Ok (i, snd (runif_d 0 totP g))
  | Err e => Err e
  end.


(** Entry-wise sum and difference of vectors of doubles. *)
Fixpoint fvadd (a b : fvec) : fvec :=
  match a, b with
  | [], _ => b
  | _, [] => a
  | x :: a', y :: b' => (x + y)%float :: fvadd a' b'
  end.

Fixpoint fvsub (a b : fvec) : fvec :=
  match a, b with
  | [], _ => map opp b
  | _, [] => a
  | x :: a', y :: b' => (x - y)%float :: fvsub a' b'
  end.

(** Line 835 on doubles: [ctr->R += (ctr->Rmat).col(0)]. *)
Definition sweep_begin_R_d (R : fvec) (Rmat : list fvec) : fvec :=
  fvadd R (nth 0 Rmat []).

(** Lines 854-855 on doubles, with [Rmat] as the call of [tdlmmTreeMCMC] for
    the tree pair [t] left it:
<<
  if (t < ctr->nTrees - 1)
    ctr->R += (ctr->Rmat).col(t + 1) - (ctr->Rmat).col(t);
>> *)
Definition treeStep_R_d (nTrees0 t : nat) (R : fvec) (Rmat : list fvec) : fvec :=
  if (t <? nTrees0 - 1)%nat
  then fvadd R (fvsub (nth (S t) Rmat []) (nth t Rmat []))
  else R.

(** The running sum [probs[0] + ... + probs[i]] as the scan accumulates it,
    from the left, in doubles. *)
Definition cumsum_d (probs : fvec) (i : nat) : float :=
  fold_left add (firstn i (tl probs)) (hd 0%float probs).

(** The rational number that a finite double is; 0 for an infinity or a
    NaN. *)
Definition F2Q (x : float) : Q :=
  match FloatOps.Prim2SF x with
  | SpecFloat.S754_finite s m e =>
      inject_Z (if s then Z.neg m else Z.pos m) * Qpower 2 e
  | _ => 0
  end.

End IEEE.

(** ** Definitions used in the statements about Fncs.cpp *)

(** [probs[0] + ... + probs[i]], accumulated from the left as the scan of
    [sampleInt] does. *)
Definition cumsum (probs : vec) (i : nat) : double :=
  fold_left Qplus (firstn i (tl probs)) (hd 0 probs).

(** The terms [(alpha_i - 1) * log(x_i) - lgamma(alpha_i)] of the Dirichlet
    log-density. *)
Definition dirichletTerms {C : Cmath} (x alpha : vec) : list double :=
  map (fun ax => (fst ax - 1) * log (snd ax) - lgamma (fst ax)) (combine alpha x).

(** A Gamma draw in shape/rate form: rate [r] is scale [1 / r]. *)
Definition rgamma_rate {G : Rmath} (shape rate : double) : rng -> double * rng :=
  rgamma shape (1 / rate).

(** The Gamma draws of shapes [alpha] and scale 1, taken one after the other
    from the generator state [g], and the state after them. *)
Fixpoint gammaDraws {G : Rmath} (alpha : vec) (g : rng) : vec * rng :=
  match alpha with
  | [] => ([], g)
  | a :: alpha' =>
      let og := rgamma a 1 g in
      let rest := gammaDraws alpha' (snd og) in
      (fst og :: fst rest, snd rest)
  end.

(** A vector divided by the sum of its entries: a draw of the Dirichlet
    distribution when the entries are independent Gamma draws of scale 1. *)
Definition normalised (draws : vec) : vec :=
  map (fun o => o / vsum draws) draws.

(** ** Definitions used in the statements about the sampler *)

(** What the three arrays hold at column [k]. *)
Definition colAt (st : design) (k : nat) : vec * vec * double :=
  (col (d_Xd st) k, col (d_ZtX st) k, vget (d_diagVar st) k).

(** The three arrays have [len] columns. *)
Definition sized (len : nat) (st : design) : Prop :=
  length (d_Xd st) = len /\ length (d_ZtX st) = len /\ length (d_diagVar st) = len.

(** The sum of the entries [i] of a list of columns. *)
Definition rowsum (i : nat) (A : mat) : double :=
  Qsum (map (fun c => vget c i) A).

(** The sum of a list of columns. *)
Definition sumCols (A : mat) : vec := fold_right vadd [] A.

(** The sum of the columns of [A] other than column [t]. *)
Definition sumExcept (t : nat) (A : mat) : vec :=
  sumCols (firstn t A ++ skipn (S t) A).

(** The fields that no step of the loop over the tree pairs writes. *)
Definition sameSetup {F : Foreign} (c c' : tdlmCtr) : Prop :=
  Ystar c' = Ystar c /\ nTrees c' = nTrees c /\ expProb c' = expProb c /\
  b c' = b c /\ burn c' = burn c /\ modKappa c' = modKappa c.

(** The state of the residuals when step [t] of the loop over the tree pairs
    starts, in a sweep that began with the control object [c0]: [R] is
    [Ystar] minus the fits of the other tree pairs, [fhat] is the sum of the
    fits of the tree pairs already visited, and the fits of the tree pairs
    still to visit are those of the previous sweep. *)
Definition backfit {F : Foreign} (c0 : tdlmCtr) (t : nat) (c : tdlmCtr) : Prop :=
  sameSetup c0 c /\ length (Rmat c) = nTrees c0 /\
  ((t < nTrees c0)%nat ->
   forall i, vget (R c) i ==
             vget (Ystar c0) i -
             (rowsum i (firstn t (Rmat c)) + rowsum i (skipn (S t) (Rmat c)))) /\
  (forall i, vget (fhat c) i == rowsum i (firstn t (Rmat c))) /\
  (forall k, (t <= k)%nat -> col (Rmat c) k = col (Rmat c0) k).

(** The model estimation leaves the iteration counter, the burn-in length and
    the bookkeeping of the exposures as they are. *)
Definition estKeepsExposure {G : Rmath} {F : Foreign} {O : ForeignOps} : Prop :=
  forall c g c' g',
    tdlmModelEst c g = Ok (c', g') ->
    b c' = b c /\ burn c' = burn c /\ expProb c' = expProb c /\
    expCount c' = expCount c /\ modKappa c' = modKappa c.


(** [sub] holds some of the elements of [l], in the order of [l]. *)
Inductive subseq {A : Type} : list A -> list A -> Prop :=
| subseq_nil : subseq [] []
| subseq_skip (x : A) (sub l : list A) : subseq sub l -> subseq sub (x :: l)
| subseq_take (x : A) (sub l : list A) : subseq sub l -> subseq (x :: sub) (x :: l).

(** [x] is an element of [l], as a test. *)
Definition memZ (l : list Z) (x : Z) : bool := existsb (Z.eqb x) l.

(** ** Interfaces for worked examples *)

(** A generator that replays a script of standard variates: a uniform draw on
    [(a, b)] is [a + (b - a) * s] for the next standard uniform value [s] of
    the script, a Gamma draw is the next standard Gamma value times the
    scale. *)
Definition scriptedRmath : Rmath := {|
  rng := list double;
  runif := fun a b g => (a + (b - a) * hd 0 g, tl g);
  rgamma := fun shape scale g => (scale * hd 0 g, tl g)
|}.

(** Doubles for worked examples: the generator replays a script of the
    values it returns, and Eigen's sum adds from the left. *)
Definition scriptedDoubles : Doubles := {|
  rng_d := list PrimFloat.float;
  runif_d := fun _ _ g => (hd PrimFloat.zero g, tl g);
  eigen_sum := fun v => fold_left PrimFloat.add v PrimFloat.zero
|}.

(** Stand-ins for [log] and [lgamma] in worked examples. *)
Definition exampleCmath : Cmath := {|
  log := fun x => x - 1;
  lgamma := fun x => x * x
|}.

(** A generator whose state counts the draws: the draw number [k] is [k + 1]
    for a Gamma draw and the middle of the interval for a uniform draw. *)
Definition countingRmath : Rmath := {|
  rng := nat;
  runif := fun a b k => (a + (b - a) / 2, S k);
  rgamma := fun _ _ k => (Qnat (S k), S k)
|}.

(** A world of trees with one terminal node each, for worked examples: a
    tree is the design column of its node, the data of an exposure is the
    column it gives to a node, structural proposals never succeed, the model
    estimation changes nothing, and the kernel draws every coefficient as 1. *)
Definition leafForeign : Foreign := {|
  Node := vec;
  exposureDat := vec;
  famState := unit
|}.

Definition leafOps : @ForeignOps scriptedRmath leafForeign := {|
  nodevals := fun (nd : @Node leafForeign) => {| X := nd; ZtX := []; tempV := [] |};
  set_tempV := fun _ nd => nd;
  nodestruct_get := fun _ _ => 1;
  listTerminal := fun nd _ => [nd];
  isProposed := fun _ => false;
  accept := fun nd => nd;
  reject := fun nd => nd;
  copyNode := fun nd => nd;
  setUpdate := fun _ nd => nd;
  replaceNodeVals := fun _ newTree => newTree;
  updateNodeVals := fun e _ _ => e;
  tdlmProposeTree := fun tree _ _ _ => ret (0, tree);
  tdlmModelEst := fun c => ret c;
  mhrKernel := fun _ _ Xd _ _ _ _ =>
    ret {| k_tempV := [];
           k_ThetaDraw := map (fun _ => 1) Xd;
           k_beta := 0;
           k_logVThetaChol := 0 |}
|}.

(** A control object of the leaf world: two observations, two exposures
    chosen with equal probabilities, [nT] tree pairs that start on exposure
    0, the step probabilities [steps], diagnostics on. *)
Definition leafCtr (steps : vec) (nT : nat) (b0 : Z) (Rmat0 : mat) (R0 : vec)
  : @tdlmCtr leafForeign := {|
  iter := 10;  burn := 10;  thin := 1;
  b := b0;  record := 0;
  nTrees := nT;  n := 2;  pZ := 0;  nExp := 2;
  stepProb := steps;
  binomial := false;  zinb := false;  diagnostics := true;
  shrinkage := 0;  interaction := 0;
  modKappa := 1;
  Ystar := [3; 5];  R := R0;  fhat := [0; 0];  Rmat := Rmat0;
  Zw := [];  Vg := [];
  sigma2 := 1;  xiInvSigma2 := 1;  nu := 1;
  tau := repeat 1 nT;  muExp := [1; 1];  muMix := [];
  expProb := [1 # 2; 1 # 2];
  tree1Exp := repeat 0%nat nT;  tree2Exp := repeat 0%nat nT;
  nTerm := repeat 1 nT;  nTerm2 := repeat 1 nT;
  expCount := [0; 0];  expInf := [0; 0];
  totTermExp := [0; 0];  sumTermT2Exp := [0; 0];
  mixCount := [];  totTermMix := [];  sumTermT2Mix := [];  mixInf := [];
  totTerm := 0;  sumTermT2 := 0;
  family := (tt : @famState leafForeign)
|}.

(** A control object of the leaf world with two exposures that interact
    with each other and not with themselves, and with shrinkage of the
    variances of the exposures. *)
Definition pairCtr : @tdlmCtr leafForeign := {|
  iter := 10;  burn := 10;  thin := 1;
  b := 1;  record := 0;
  nTrees := 1;  n := 2;  pZ := 0;  nExp := 2;
  stepProb := [0; 0; 0; 1];
  binomial := false;  zinb := false;  diagnostics := true;
  shrinkage := 3;  interaction := 1;
  modKappa := 1;
  Ystar := [3; 5];  R := [2; 4];  fhat := [0; 0];  Rmat := [[1; 1]];
  Zw := [];  Vg := [];
  sigma2 := 1;  xiInvSigma2 := 1;  nu := 1;
  tau := [1];  muExp := [1; 1];  muMix := [[5; 6]; [7; 8]];
  expProb := [1 # 2; 1 # 2];
  tree1Exp := [0%nat];  tree2Exp := [1%nat];
  nTerm := [1];  nTerm2 := [1];
  expCount := [1; 1];  expInf := [1; 1];
  totTermExp := [1; 1];  sumTermT2Exp := [2; 2];
  mixCount := [[0; 1]; [0; 0]];  totTermMix := [[0; 1]; [0; 0]];
  sumTermT2Mix := [[0; 3]; [0; 0]];  mixInf := [[0; 1]; [0; 0]];
  totTerm := 3;  sumTermT2 := 7;
  family := (tt : @famState leafForeign)
|}.

(** A control object of the leaf world for a binomial model with two
    fixed effects, whose weighted design [Zw] has the columns [[1, 1]] and
    [[1, 2]]. *)
Definition logitCtr : @tdlmCtr leafForeign := {|
  iter := 10;  burn := 10;  thin := 1;
  b := 1;  record := 0;
  nTrees := 1;  n := 2;  pZ := 2;  nExp := 2;
  stepProb := [0; 0; 0; 1];
  binomial := true;  zinb := false;  diagnostics := true;
  shrinkage := 0;  interaction := 1;
  modKappa := 1;
  Ystar := [3; 5];  R := [2; 4];  fhat := [0; 0];  Rmat := [[1; 1]];
  Zw := [[1; 1]; [1; 2]];  Vg := [[1; 0]; [0; 1]];
  sigma2 := 1;  xiInvSigma2 := 1;  nu := 1;
  tau := [1];  muExp := [1; 1];  muMix := [[5; 6]; [7; 8]];
  expProb := [1 # 2; 1 # 2];
  tree1Exp := [0%nat];  tree2Exp := [1%nat];
  nTerm := [1];  nTerm2 := [1];
  expCount := [0; 0];  expInf := [0; 0];
  totTermExp := [0; 0];  sumTermT2Exp := [0; 0];
  mixCount := [[0; 0]; [0; 0]];  totTermMix := [[0; 0]; [0; 0]];
  sumTermT2Mix := [[0; 0]; [0; 0]];  mixInf := [[0; 0]; [0; 0]];
  totTerm := 0;  sumTermT2 := 0;
  family := (tt : @famState leafForeign)
|}.

Definition emptyLog : tdlmLog := {| TreeAccept := [];  DLMexp := [];  MIXexp := [] |}.

(** The columns that the two exposures of the leaf world give to a node. *)
Definition leafExp : list (@exposureDat leafForeign) := [[1; 0]; [0; 2]].

(** A sampler of the leaf world with two tree pairs that only try to switch
    exposure and whose current fits are [[1, 1]] and [[1, 2]]. *)
Definition leafSampler (b0 : Z) : @sampler leafForeign := {|
  trees1 := ([[1; 0]; [0; 1]] : list (@Node leafForeign));
  trees2 := ([[0; 1]; [1; 1]] : list (@Node leafForeign));
  ctr := leafCtr [0; 0; 0; 1] 2 b0 [[1; 1]; [1; 2]] [1; 2];
  dgn := emptyLog
|}.

(** One call of [tdlmmTreeMCMC] in the leaf world, on a tree pair whose two
    switch-exposure moves both redraw the current exposure; [ratio0] is the
    content of the unset local [ratio]. *)
Definition leafRun (ratio0 : double)
  : res (@Node leafForeign * @Node leafForeign * @tdlmCtr leafForeign * tdlmLog
         * list double) :=
  tdlmmTreeMCMC (C := exampleCmath) (O := leafOps) 0
    ([1; 0] : @Node leafForeign) ([0; 1] : @Node leafForeign)
    (leafCtr [0; 0; 0; 1] 1 1 [[1; 1]] [2; 4]) emptyLog leafExp ratio0
    [1 # 2; 1 # 4; 1 # 2; 1 # 4].

(** * Properties *)

(** ** Arithmetic and list helpers *)

Lemma Qltb_lt (x y : double) : Qltb x y = true <-> x < y.
Proof.
  unfold Qltb. rewrite negb_true_iff. split; intro H.
  - apply Qnot_le_lt. intro H'. apply Qle_bool_iff in H'. congruence.
  - destruct (Qle_bool y x) eqn:E; [|reflexivity].
    apply Qle_bool_iff in E. lra.
Qed.

Lemma Qltb_ge (x y : double) : Qltb x y = false <-> y <= x.
Proof.
  unfold Qltb. rewrite negb_false_iff. apply Qle_bool_iff.
Qed.

Lemma fold_left_Qplus (l : list double) (a : double) :
  fold_left Qplus l a == a + Qsum l.
Proof.
  revert a. induction l as [|x l IH]; intro a; simpl.
  - lra.
  - rewrite IH. lra.
Qed.

Lemma vsum_Qsum (v : vec) : vsum v == Qsum v.
Proof.
  unfold vsum. rewrite fold_left_Qplus. lra.
Qed.

Lemma Qsum_nonneg (l : list double) :
  Forall (fun p => 0 <= p) l -> 0 <= Qsum l.
Proof.
  induction 1 as [|x l Hx _ IH]; simpl; lra.
Qed.

Lemma nth_upd_eq {A : Type} (k : nat) (v d : A) (l : list A) :
  (k < length l)%nat -> nth k (upd k v l) d = v.
Proof.
  revert k. induction l as [|h t IH]; intros [|k] H; simpl in *; try lia.
  - reflexivity.
  - apply IH. lia.
Qed.

Lemma nth_upd_neq {A : Type} (k j : nat) (v d : A) (l : list A) :
  j <> k -> nth j (upd k v l) d = nth j l d.
Proof.
  revert k j. induction l as [|h t IH]; intros [|k] [|j] H; simpl; try reflexivity.
  - lia.
  - apply IH. lia.
Qed.

Lemma length_upd {A : Type} (k : nat) (v : A) (l : list A) :
  length (upd k v l) = length l.
Proof.
  revert k. induction l as [|h t IH]; intros [|k]; simpl; auto.
Qed.

(** ** sampleInt *)

(** What the scan returns: it stops at the first position whose running sum
    is not below [u], and fails when there is none. *)
Lemma sampleInt_scan_Ok (u : double) (rest : vec) (sum : double) (i k : nat) :
  sampleInt_scan u rest sum i = Ok k <->
  exists d, k = (i + d)%nat /\ (d <= length rest)%nat /\
            u <= fold_left Qplus (firstn d rest) sum /\
            forall d', (d' < d)%nat -> fold_left Qplus (firstn d' rest) sum < u.
Proof.
  revert sum i. induction rest as [|p rest IH]; intros sum i; simpl.
  - destruct (Qltb sum u) eqn:E.
    + split; [discriminate|]. intros (d & _ & Hd & Hle & _).
      assert (d = 0%nat) by (simpl in Hd; lia). subst d. simpl in Hle.
      apply Qltb_lt in E. lra.
    + apply Qltb_ge in E. split.
      * intro H. injection H as <-. exists 0%nat. simpl.
        repeat split; try lia; try assumption; intros; lia.
      * intros (d & -> & Hd & _ & _). simpl in Hd.
        replace d with 0%nat by lia. f_equal. lia.
  - destruct (Qltb sum u) eqn:E.
    + apply Qltb_lt in E. rewrite IH. split.
      * intros (d & -> & Hd & Hle & Hlt). exists (S d). simpl.
        split; [lia|]. split; [lia|]. split; [assumption|].
        intros [|d'] Hd'; simpl; [assumption|]. apply Hlt. lia.
      * intros (d & -> & Hd & Hle & Hlt). destruct d as [|d].
        { simpl in Hle. lra. }
        exists d. simpl in *. split; [lia|]. split; [lia|]. split; [assumption|].
        intros d' Hd'. apply (Hlt (S d')). lia.
    + apply Qltb_ge in E. split.
      * intro H. injection H as <-. exists 0%nat. simpl.
        repeat split; try lia; try assumption; intros; lia.
      * intros (d & -> & Hd & _ & Hlt). destruct d as [|d].
        { f_equal. lia. }
        specialize (Hlt 0%nat ltac:(lia)). simpl in Hlt. lra.
Qed.

(** The index returned once [u] is drawn: the least one whose cumulative sum
    reaches [u]. *)
Lemma sampleInt_at_Ok (probs : vec) (u : double) (i : nat) :
  sampleInt_at probs u = Ok i <->
  (i < length probs)%nat /\ u <= cumsum probs i /\
  forall j, (j < i)%nat -> cumsum probs j < u.
Proof.
  destruct probs as [|p0 rest]; simpl.
  - split; [discriminate|]. intros (H & _). inversion H.
  - rewrite sampleInt_scan_Ok. unfold cumsum. simpl. split.
    + intros (d & -> & Hd & Hle & Hlt). simpl. repeat split; try lia; assumption.
    + intros (Hi & Hle & Hlt). exists i. repeat split; try lia; assumption.
Qed.

Lemma sampleInt_unfold {G : Rmath} (probs : vec) (totP : double) (g : rng) :
  sampleInt probs totP g =
  match sampleInt_at probs (fst (runif 0 totP g)) with
  | Ok i => Ok (i, snd (runif 0 totP g))
  | Err e => Err e
  end.
Proof.
  unfold sampleInt, bind, draw, lift. destruct (runif 0 totP g) as [u g'].
  simpl. destruct (sampleInt_at probs u); reflexivity.
Qed.

(** ** sampleInt on doubles *)

Section SampleIntDoubles.
Import PrimFloat.
#[local] Set Warnings "-inexact-float".

(** What the scan returns on doubles: the first position whose running sum
    is not below [u]; it reads past the end when every running sum is
    below [u]. *)
Lemma sampleInt_scan_d_spec (u : float) (rest : fvec) (sum : float) (i : nat) :
  match sampleInt_scan_d u rest sum i with
  | Ok k =>
      exists d, k = (i + d)%nat /\ (d <= length rest)%nat /\
                (fold_left add (firstn d rest) sum <? u)%float = false /\
                forall d', (d' < d)%nat ->
                           (fold_left add (firstn d' rest) sum <? u)%float = true
  | Err e =>
      e = OutOfBounds /\
      forall d, (d <= length rest)%nat ->
                (fold_left add (firstn d rest) sum <? u)%float = true
  end.
Proof.
  revert sum i. induction rest as [|p rest IH]; intros sum i; simpl.
  - destruct (sum <? u)%float eqn:E.
    + split; [reflexivity|]. intros d Hd. replace d with 0%nat by lia. exact E.
    + exists 0%nat. split; [lia|]. split; [lia|]. split; [exact E|]. intros; lia.
  - destruct (sum <? u)%float eqn:E.
    + specialize (IH (sum + p)%float (S i)).
      destruct (sampleInt_scan_d u rest (sum + p) (S i)) as [k|e].
      * destruct IH as (d & -> & Hd & Hstop & Hlt). exists (S d).
        split; [lia|]. split; [lia|]. split; [exact Hstop|].
        intros [|d'] Hd'; [exact E|]. apply Hlt. lia.
      * destruct IH as (-> & Hall). split; [reflexivity|].
        intros [|d] Hd; [exact E|]. apply Hall. lia.
    + exists 0%nat. split; [lia|]. split; [lia|]. split; [exact E|]. intros; lia.
Qed.

Lemma sampleInt_at_d_spec (probs : fvec) (u : float) :
  probs <> [] ->
  match sampleInt_at_d probs u with
  | Ok i =>
      (i < length probs)%nat /\ (cumsum_d probs i <? u)%float = false /\
      forall j, (j < i)%nat -> (cumsum_d probs j <? u)%float = true
  | Err e =>
      e = OutOfBounds /\
      forall k, (k < length probs)%nat -> (cumsum_d probs k <? u)%float = true
  end.
Proof.
  destruct probs as [|p0 rest]; [congruence|]. intros _.
  unfold sampleInt_at_d, cumsum_d. simpl.
  pose proof (sampleInt_scan_d_spec u rest p0 0) as H.
  destruct (sampleInt_scan_d u rest p0 0) as [k|e].
  - destruct H as (d & -> & Hd & Hstop & Hlt). simpl.
    split; [lia|]. split; [exact Hstop|exact Hlt].
  - destruct H as (-> & Hall). split; [reflexivity|].
    intros k Hk. apply Hall. lia.
Qed.

(** The index returned on doubles, once [u] is drawn. *)
Lemma sampleInt_at_d_Ok (probs : fvec) (u : float) (i : nat) :
  sampleInt_at_d probs u = Ok i <->
  (i < length probs)%nat /\ (cumsum_d probs i <? u)%float = false /\
  forall j, (j < i)%nat -> (cumsum_d probs j <? u)%float = true.
Proof.
  destruct probs as [|p0 rest].
  { simpl. split; [discriminate|]. intros (H & _). inversion H. }
  pose proof (sampleInt_at_d_spec (p0 :: rest) u ltac:(discriminate)) as H.
  destruct (sampleInt_at_d (p0 :: rest) u) as [k|e].
  - destruct H as (Hk & Hstop & Hlt). split.
    + intro E. injection E as <-. auto.
    + intros (Hi & Hstop' & Hlt'). f_equal.
      destruct (Nat.lt_trichotomy k i) as [Hki|[Hki|Hki]]; [|assumption|].
      * rewrite (Hlt' k Hki) in Hstop. discriminate.
      * rewrite (Hlt i Hki) in Hstop'. discriminate.
  - destruct H as (_ & Hall). split; [discriminate|].
    intros (Hi & Hstop & _). rewrite (Hall i Hi) in Hstop. discriminate.
Qed.


Lemma sampleInt_d_Ok {D : Doubles} (probs : fvec) (totP : float) (g : rng_d)
    (i : nat) :
  sampleInt_d probs totP g = Ok (i, snd (runif_d 0 totP g)) <->
  sampleInt_at_d probs (fst (runif_d 0 totP g)) = Ok i.
Proof.
  unfold sampleInt_d. destruct (sampleInt_at_d probs (fst (runif_d 0 totP g))).
  - split; intro H; injection H as <-; reflexivity.
  - split; discriminate.
Qed.


(** C8.  On the doubles of the code, [sampleInt] returns the least index [i]
    whose running sum [probs[0] + ... + probs[i]], accumulated from the left
    as the scan accumulates it, is not below the uniform value [u] drawn on
    [0, totP): the test of the loop, [sum < u], fails at [i] and holds at
    every index before it.  With [probs = [0.2, 0.3, 0.5]] and [totP = 1] a
    draw of 0.25 gives index 1, where the running sum 0.5 is at least 0.25,
    and a draw of 0.1 gives index 0.  The running sum is the rounded one:
    with [probs = [0.1, 0.2, 0.7]] a draw of 0.30000000000000004, which is
    the double [0.1 + 0.2], gives index 1. *)
Theorem sampleInt_least_index :
  (forall (D : Doubles) (probs : fvec) (totP : float) (g : rng_d) (i : nat),
      let u := fst (runif_d 0 totP g) in
      sampleInt_d probs totP g = Ok (i, snd (runif_d 0 totP g)) <->
      (i < length probs)%nat /\ (cumsum_d probs i <? u)%float = false /\
      forall j, (j < i)%nat -> (cumsum_d probs j <? u)%float = true)
  /\ (forall (D : Doubles) (g : rng_d), fst (runif_d 0 1 g) = 0.25%float ->
        sampleInt_d [0.2; 0.3; 0.5]%float 1 g = Ok (1%nat, snd (runif_d 0 1 g)))
  /\ (forall (D : Doubles) (g : rng_d), fst (runif_d 0 1 g) = 0.1%float ->
        sampleInt_d [0.2; 0.3; 0.5]%float 1 g = Ok (0%nat, snd (runif_d 0 1 g)))
  /\ (0.25 <=? cumsum_d [0.2; 0.3; 0.5] 1)%float = true
  /\ (0.1 <=? cumsum_d [0.2; 0.3; 0.5] 0)%float = true
  /\ sampleInt_at_d [0.1; 0.2; 0.7]%float 0.30000000000000004%float = Ok 1%nat.
Proof.
  split; [|split; [|split; [|split; [|split; [|reflexivity]]]]].
  - intros D probs totP g i u. rewrite sampleInt_d_Ok. apply sampleInt_at_d_Ok.
  - intros D g Hu. apply sampleInt_d_Ok. rewrite Hu. reflexivity.
  - intros D g Hu. apply sampleInt_d_Ok. rewrite Hu. reflexivity.
  - reflexivity.
  - reflexivity.
Qed.

Lemma sampleInt_least_index_witness :
  sampleInt_d (D := scriptedDoubles) [0.2; 0.3; 0.5]%float 1 [0.25%float]
  = Ok (1%nat, []).
Proof.
  refine (proj1 (proj2 sampleInt_least_index) scriptedDoubles [0.25%float] _).
  reflexivity.
Defined.




End SampleIntDoubles.

(** ** logDirichletDensity *)

Lemma fold_left_add_terms (f : nat -> double) (l : list nat) (init : double) :
  fold_left (fun out i => out + f i) l init == init + Qsum (map f l).
Proof.
  revert init. induction l as [|i l IH]; intro init; simpl.
  - lra.
  - rewrite IH. lra.
Qed.

Lemma map_index_combine {B : Type} (F : double -> double -> B) (alpha x : vec) :
  length x = length alpha ->
  map (fun i => F (vget alpha i) (vget x i)) (seq 0 (length alpha)) =
  map (fun ax => F (fst ax) (snd ax)) (combine alpha x).
Proof.
  revert x. induction alpha as [|a alpha IH]; intros [|x0 x] H; simpl in *;
    try discriminate; try reflexivity.
  f_equal. rewrite <- seq_shift, map_map. apply IH. lia.
Qed.

(** C9.  [logDirichletDensity(x, alpha)] stops with an error exactly when [x]
    and [alpha] differ in length; for equal lengths it returns
    [lgamma(sum(alpha))] plus the sum of the terms
    [(alpha_i - 1) * log(x_i) - lgamma(alpha_i)].  Its arguments are values
    of the embedding, which no call can change. *)
Theorem logDirichletDensity_spec (C : Cmath) (x alpha : vec) :
  ((exists e, logDirichletDensity x alpha = Err e) <-> length x <> length alpha)
  /\ (length x = length alpha ->
      exists r, logDirichletDensity x alpha = Ok r /\
                r == lgamma (vsum alpha) + Qsum (dirichletTerms x alpha)).
Proof.
  unfold logDirichletDensity. destruct (Nat.eqb_spec (length x) (length alpha)) as [E|E];
    simpl; split.
  - split; [intros (e & H); discriminate|congruence].
  - intros _. eexists. split; [reflexivity|].
    rewrite (fold_left_add_terms
               (fun i => (vget alpha i - 1) * log (vget x i) - lgamma (vget alpha i))).
    unfold dirichletTerms.
    rewrite (map_index_combine (fun a xi => (a - 1) * log xi - lgamma a) alpha x E).
    reflexivity.
  - split; [intros _; assumption|]. intros _. eexists. reflexivity.
  - congruence.
Qed.

Lemma logDirichletDensity_spec_witness :
  exists r, logDirichletDensity (C := exampleCmath) [0.5; 0.5] [2; 3] = Ok r /\
            r == 25 + ((2 - 1) * (0.5 - 1) - 4 + ((3 - 1) * (0.5 - 1) - 9 + 0)).
Proof.
  exact (proj2 (logDirichletDensity_spec exampleCmath [0.5; 0.5] [2; 3]) eq_refl).
Defined.

(** ** intersectAndDiff *)

Lemma intersectAndDiff_loop_perm (o n intVec diffVec : list Z) :
  Permutation
    (fst (intersectAndDiff_loop o n intVec diffVec) ++
     snd (intersectAndDiff_loop o n intVec diffVec))
    (intVec ++ diffVec ++ o).
Proof.
  revert n intVec diffVec. induction o as [|oi o' IHo]; intros n intVec diffVec.
  - simpl. rewrite app_nil_r. reflexivity.
  - revert intVec diffVec. induction n as [|nj n' IHn]; intros intVec diffVec.
    + simpl. reflexivity.
    + simpl. destruct (oi <? nj)%Z; [|destruct (oi =? nj)%Z].
      * rewrite IHo. rewrite <- !app_assoc. simpl. reflexivity.
      * rewrite IHo. rewrite <- !app_assoc. simpl.
        apply Permutation_app_head. apply Permutation_middle.
      * apply IHn.
Qed.

(** C3.  The two vectors [intersectAndDiff(origVec, newVec)] returns hold,
    taken together, exactly the elements of [origVec] with their
    multiplicities (for all inputs, sorted ones included); on
    [[1,2,3,4,5]] and [[2,4,6]] they are [[2,4]] and [[1,3,5]]; when one
    input is empty the intersection is empty and the difference is
    [origVec]. *)
Theorem intersectAndDiff_partition :
  (forall origVec newVec : list Z,
      Permutation (fst (intersectAndDiff origVec newVec) ++
                   snd (intersectAndDiff origVec newVec)) origVec)
  /\ intersectAndDiff [1; 2; 3; 4; 5]%Z [2; 4; 6]%Z = ([2; 4]%Z, [1; 3; 5]%Z)
  /\ (forall newVec, intersectAndDiff [] newVec = ([], []))
  /\ (forall origVec, intersectAndDiff origVec [] = ([], origVec)).
Proof.
  split; [|split; [|split]].
  - intros origVec newVec. unfold intersectAndDiff.
    destruct origVec as [|oi o']; [reflexivity|].
    destruct newVec as [|nj n']; [reflexivity|].
    apply (intersectAndDiff_loop_perm (oi :: o') (nj :: n') [] []).
  - reflexivity.
  - reflexivity.
  - intros [|oi o']; reflexivity.
Qed.

(** ** rHalfCauchyFC *)

Lemma half_scale (b y : double) : 2 / (b + 2 * y) == 1 / (b / 2 + y).
Proof.
  destruct (Qeq_dec (b / 2 + y) 0) as [E|E].
  - assert (E' : b + 2 * y == 0).
    { setoid_replace (b + 2 * y) with (2 * (b / 2 + y)) by field.
      rewrite E. reflexivity. }
    unfold Qdiv. rewrite E, E'. reflexivity.
  - field. intro E'. apply E.
    setoid_replace (b / 2 + y) with ((b + y * 2) / 2) by field.
    rewrite E'. reflexivity.
Qed.

(** C2, as the code has it.  For every current value [x2 > 0] and all [a]
    and [b], [rHalfCauchyFC] first draws the latent [y] from
    Gamma(1, [x2 / (x2 + 1)]) in shape/scale form (the scale is positive, and
    is the reciprocal of the rate [1 + 1 / x2]), stores [y] in [*yInv] when
    that pointer is not null, and then replaces [x2] by a draw from
    InverseGamma([(a + 1) / 2], [1 / (b / 2 + y)]): the reciprocal of a Gamma
    draw of shape [(a + 1) / 2] and scale [1 / (b / 2 + y)]. *)
Theorem rHalfCauchyFC_draws (G : Rmath) (x2 a b : double) (yInv : option double)
    (g : rng) :
  0 < x2 ->
  let y := fst (rgamma 1 (x2 / (x2 + 1)) g) in
  let g1 := snd (rgamma 1 (x2 / (x2 + 1)) g) in
  0 < x2 / (x2 + 1) /\ x2 / (x2 + 1) == 1 / (1 + 1 / x2) /\
  exists shape scale,
    shape == (a + 1) / 2 /\ scale == 1 / (b / 2 + y) /\
    1 / scale == b / 2 + y /\
    rHalfCauchyFC x2 a b yInv g =
    Ok ((1 / fst (rgamma shape scale g1),
         match yInv with Some _ => Some y | None => None end),
        snd (rgamma shape scale g1)).
Proof.
  intros Hx y g1.
  split; [apply Qlt_shift_div_l; lra|]. split; [field; lra|].
  exists ((1 # 2) * (a + 1)), (2 / (b + 2 * y)).
  split; [field|]. split; [apply half_scale|]. split.
  - rewrite half_scale. unfold Qdiv. rewrite !Qmult_1_l. apply Qinv_involutive.
  - unfold rHalfCauchyFC, bind, draw, ret. subst y g1.
    destruct (rgamma 1 (x2 / (x2 + 1)) g) as [y g1]. simpl.
    destruct (rgamma ((1 # 2) * (a + 1)) (2 / (b + 2 * y)) g1) as [gd g2].
    reflexivity.
Qed.

Lemma rHalfCauchyFC_draws_witness :
  exists shape scale,
    shape == (1 + 1) / 2 /\ scale == 1 / (1 / 2 + (1 # 2)) /\
    1 / scale == 1 / 2 + (1 # 2) /\
    rHalfCauchyFC (G := scriptedRmath) 1 1 1 (Some 0) [1; 1] =
    Ok ((1 / fst (rgamma (Rmath := scriptedRmath) shape scale [1]), Some (1 # 2)),
        snd (rgamma (Rmath := scriptedRmath) shape scale [1])).
Proof.
  refine (proj2 (proj2 (rHalfCauchyFC_draws scriptedRmath 1 1 1 (Some 0) [1; 1] _))).
  reflexivity.
Defined.

(** C2, as stated, fails: with [x2 = 1] the value stored in [*yInv] is the
    standard variate times 1/2 (scale 1/2), while a Gamma draw of rate 1/2
    is the variate times 2. *)
Lemma rHalfCauchyFC_not_rate_form :
  exists x2' y g',
    rHalfCauchyFC (G := scriptedRmath) 1 1 1 (Some 0) [1; 1] = Ok ((x2', Some y), g')
    /\ y == 1 # 2
    /\ fst (rgamma_rate (G := scriptedRmath) 1 (1 / (1 + 1)) [1; 1]) == 2
    /\ ~ y == fst (rgamma_rate (G := scriptedRmath) 1 (1 / (1 + 1)) [1; 1]).
Proof.
  eexists _, _, _. split; [cbv; reflexivity|]. split; [reflexivity|].
  split; [reflexivity|]. discriminate.
Qed.

(** ** mixMHR: the columns of the design *)

Lemma sized_write (len k : nat) (x z : vec) (d : double) (st : design) :
  sized len st -> sized len (write k x z d st).
Proof.
  intros (H1 & H2 & H3). unfold sized, write. simpl.
  rewrite !length_upd. auto.
Qed.

Lemma colAt_write_eq (len k : nat) (x z : vec) (d : double) (st : design) :
  sized len st -> (k < len)%nat -> colAt (write k x z d st) k = (x, z, d).
Proof.
  intros (H1 & H2 & H3) Hk. unfold colAt, write, col, vget. simpl.
  rewrite !nth_upd_eq by lia. reflexivity.
Qed.

Lemma colAt_write_neq (k j : nat) (x z : vec) (d : double) (st : design) :
  j <> k -> colAt (write k x z d st) j = colAt st j.
Proof.
  intros Hj. unfold colAt, write, col, vget. simpl.
  rewrite !nth_upd_neq by assumption. reflexivity.
Qed.

Section MixMHRFacts.
Context {C : Cmath} {G : Rmath} {F : Foreign} {O : ForeignOps}.

Lemma sized_fill (len base : nat) (val : Node -> vec * vec * double)
    (nodes : list Node) (j : nat) (st : design) :
  sized len st -> sized len (fill base val j nodes st).
Proof.
  revert j st. induction nodes as [|nd rest IH]; intros j st H; simpl.
  - assumption.
  - destruct (val nd) as [[x z] d]. apply IH. now apply sized_write.
Qed.

(** A loop leaves the columns outside its range alone. *)
Lemma fill_other (base : nat) (val : Node -> vec * vec * double)
    (nodes : list Node) (j : nat) (st : design) (k : nat) :
  (k < base + j \/ base + j + length nodes <= k)%nat ->
  colAt (fill base val j nodes st) k = colAt st k.
Proof.
  revert j st. induction nodes as [|nd rest IH]; intros j st H; simpl in *.
  - reflexivity.
  - destruct (val nd) as [[x z] d]. rewrite IH by lia.
    apply colAt_write_neq. lia.
Qed.

(** A loop writes at column [base + j + i] the values of the [i]-th node it
    still has to visit. *)
Lemma fill_at (len base : nat) (val : Node -> vec * vec * double)
    (nodes : list Node) (j : nat) (st : design) (i : nat) (nd : Node) :
  sized len st -> nth_error nodes i = Some nd -> (base + j + i < len)%nat ->
  colAt (fill base val j nodes st) (base + j + i) = val nd.
Proof.
  revert j st i. induction nodes as [|nd0 rest IH]; intros j st i Hs Hnd Hlt.
  - destruct i; discriminate.
  - simpl. destruct (val nd0) as [[x z] d] eqn:E. destruct i as [|i]; simpl in Hnd.
    + injection Hnd as <-. rewrite fill_other by lia.
      replace (base + j + 0)%nat with (base + j)%nat by lia.
      rewrite (colAt_write_eq len) by (assumption || lia). now rewrite E.
    + replace (base + j + S i)%nat with (base + S j + i)%nat by lia.
      apply IH; [now apply sized_write|assumption|lia].
Qed.

Lemma sized_fill_mix (len : nat) (c : tdlmCtr) (pX1 pX2 : nat) (d : double)
    (nodes1 nodes2 : list Node) (i : nat) (st : design) :
  sized len st -> sized len (fill_mix c pX1 pX2 d i nodes1 nodes2 st).
Proof.
  revert i st. induction nodes1 as [|n1 rest IH]; intros i st H; simpl.
  - assumption.
  - apply IH. now apply sized_fill.
Qed.

Lemma fill_mix_other (c : tdlmCtr) (pX1 pX2 : nat) (d : double)
    (nodes1 nodes2 : list Node) (i : nat) (st : design) (k : nat) :
  length nodes2 = pX2 -> (k < pX1 + pX2 + i * pX2)%nat ->
  colAt (fill_mix c pX1 pX2 d i nodes1 nodes2 st) k = colAt st k.
Proof.
  intros H2. revert i st. induction nodes1 as [|n1 rest IH]; intros i st Hk; simpl.
  - reflexivity.
  - rewrite IH by lia. apply fill_other. lia.
Qed.

Lemma fill_mix_at (len : nat) (c : tdlmCtr) (pX1 pX2 : nat) (d : double)
    (nodes1 nodes2 : list Node) (i : nat) (st : design)
    (a e : nat) (n1 n2 : Node) :
  sized len st -> length nodes2 = pX2 ->
  nth_error nodes1 a = Some n1 -> nth_error nodes2 e = Some n2 ->
  (pX1 + pX2 + (i + a) * pX2 + e < len)%nat ->
  colAt (fill_mix c pX1 pX2 d i nodes1 nodes2 st) (pX1 + pX2 + (i + a) * pX2 + e) =
  (vmul (X (nodevals n1)) (X (nodevals n2)),
   matT_vec (Zw c) (vmul (X (nodevals n1)) (X (nodevals n2))), d).
Proof.
  intros Hs H2 H1 He. revert i st a Hs H1.
  induction nodes1 as [|n0 rest IH]; intros i st a Hs H1 Hlt.
  - destruct a; discriminate.
  - assert (He' : (e < pX2)%nat).
    { rewrite <- H2. apply nth_error_Some. congruence. }
    simpl. destruct a as [|a]; simpl in H1.
    + injection H1 as <-. rewrite fill_mix_other by (assumption || lia).
      replace (pX1 + pX2 + (i + 0) * pX2 + e)%nat
        with (pX1 + pX2 + i * pX2 + 0 + e)%nat in * by lia.
      rewrite (fill_at len) with (nd := n2) by (assumption || lia). reflexivity.
    + replace (pX1 + pX2 + (i + S a) * pX2 + e)%nat
        with (pX1 + pX2 + (S i + a) * pX2 + e)%nat in * by lia.
      apply IH; [now apply sized_fill|assumption|assumption].
Qed.

Lemma sized_zero (n0 pZ0 len : nat) :
  sized len {| d_Xd := mzero n0 len; d_ZtX := mzero pZ0 len; d_diagVar := vzero len |}.
Proof.
  unfold sized, mzero, vzero. simpl. rewrite !repeat_length. auto.
Qed.

End MixMHRFacts.

(** C7.  The design assembled by [mixMHR] has [p1 + p2] columns, and [p1 * p2]
    more exactly when [mixVar] is not zero; column [i] is the design column
    of node [i] of the first tree, column [p1 + j] that of node [j] of the
    second tree, and column [p1 + p2 + i * p2 + j] the entry-wise product of
    the two; their prior precisions are [1 / (m1Var * treeVar)],
    [1 / (m2Var * treeVar)] and [1 / (mixVar * treeVar)]; the [Xd] of the
    result of [mixMHR] is this design. *)
Theorem mixMHR_design_columns (G : Rmath) (F : Foreign)
    (O : ForeignOps) (nodes1 nodes2 : list Node) (c : tdlmCtr)
    (treeVar m1Var m2Var mixVar : double) :
  let p1 := length nodes1 in
  let p2 := length nodes2 in
  let d := mixMHR_design nodes1 nodes2 c treeVar m1Var m2Var mixVar in
  let pXd := (p1 + p2 + (if Qeq_bool mixVar 0 then 0 else p1 * p2))%nat in
  (length (d_Xd d) = pXd /\ length (d_diagVar d) = pXd)
  /\ (forall i nd, nth_error nodes1 i = Some nd ->
        col (d_Xd d) i = X (nodevals nd) /\
        vget (d_diagVar d) i = 1 / (m1Var * treeVar))
  /\ (forall j nd, nth_error nodes2 j = Some nd ->
        col (d_Xd d) (p1 + j) = X (nodevals nd) /\
        vget (d_diagVar d) (p1 + j) = 1 / (m2Var * treeVar))
  /\ (~ mixVar == 0 ->
      forall i j n1 n2,
        nth_error nodes1 i = Some n1 -> nth_error nodes2 j = Some n2 ->
        col (d_Xd d) (p1 + p2 + i * p2 + j) =
          vmul (X (nodevals n1)) (X (nodevals n2)) /\
        vget (d_diagVar d) (p1 + p2 + i * p2 + j) = 1 / (mixVar * treeVar))
  /\ (forall ZtR tree newTree g out g',
        mixMHR nodes1 nodes2 c ZtR treeVar m1Var m2Var mixVar tree newTree g
          = Ok (out, g') ->
        MHR.Xd out = d_Xd d /\ MHR.pXd out = pXd).
Proof.
  intros p1 p2 d pXd.
  assert (Hp : mixMHR_pXd p1 p2 mixVar = pXd).
  { unfold mixMHR_pXd, pXd. destruct (Qeq_bool mixVar 0); simpl; lia. }
  pose (st0 := {| d_Xd := mzero (n c) pXd; d_ZtX := mzero (pZ c) pXd;
                  d_diagVar := vzero pXd |}).
  pose (v1 := fun nd : Node =>
                (X (nodevals nd), main_ZtX c nd, 1 / (m1Var * treeVar))).
  pose (v2 := fun nd : Node =>
                (X (nodevals nd), main_ZtX c nd, 1 / (m2Var * treeVar))).
  pose (st1 := fill 0 v1 0 nodes1 st0).
  pose (st2 := fill p1 v2 0 nodes2 st1).
  assert (Hd : d = if negb (Qeq_bool mixVar 0)
                   then fill_mix c p1 p2 (1 / (mixVar * treeVar)) 0 nodes1 nodes2 st2
                   else st2).
  { unfold d, mixMHR_design. fold p1 p2. rewrite Hp. reflexivity. }
  assert (Hs0 : sized pXd st0) by apply sized_zero.
  assert (Hs1 : sized pXd st1) by now apply sized_fill.
  assert (Hs2 : sized pXd st2) by now apply sized_fill.
  assert (Hsd : sized pXd d).
  { rewrite Hd. destruct (negb (Qeq_bool mixVar 0)); [now apply sized_fill_mix|assumption]. }
  assert (Hle : (p1 + p2 <= pXd)%nat) by (unfold pXd; lia).
  assert (Hmain : forall k, (k < p1 + p2)%nat -> colAt d k = colAt st2 k).
  { intros k Hk. rewrite Hd. destruct (negb (Qeq_bool mixVar 0)); [|reflexivity].
    apply fill_mix_other; [reflexivity|lia]. }
  split; [|split; [|split; [|split]]].
  - destruct Hsd as (H1 & _ & H3). split; assumption.
  - intros i nd Hnd.
    assert (Hi : (i < p1)%nat) by (apply nth_error_Some; congruence).
    assert (E : colAt d i = v1 nd).
    { rewrite Hmain by lia. unfold st2. rewrite fill_other by lia.
      apply (fill_at pXd 0 v1 nodes1 0 st0 i nd); [assumption|assumption|lia]. }
    unfold colAt, v1 in E. injection E as E1 _ E3. split; assumption.
  - intros j nd Hnd.
    assert (Hj : (j < p2)%nat) by (apply nth_error_Some; congruence).
    assert (E : colAt d (p1 + j) = v2 nd).
    { rewrite Hmain by lia.
      replace (p1 + j)%nat with (p1 + 0 + j)%nat by lia.
      apply (fill_at pXd p1 v2 nodes2 0 st1 j nd); [assumption|assumption|lia]. }
    unfold colAt, v2 in E. injection E as E1 _ E3. split; assumption.
  - intros Hmix i j n1 n2 H1 H2.
    assert (Hb : Qeq_bool mixVar 0 = false).
    { destruct (Qeq_bool mixVar 0) eqn:E; [|reflexivity].
      apply Qeq_bool_iff in E. contradiction. }
    assert (Hi : (i < p1)%nat) by (apply nth_error_Some; congruence).
    assert (Hj : (j < p2)%nat) by (apply nth_error_Some; congruence).
    assert (E : colAt d (p1 + p2 + (0 + i) * p2 + j) =
                (vmul (X (nodevals n1)) (X (nodevals n2)),
                 matT_vec (Zw c) (vmul (X (nodevals n1)) (X (nodevals n2))),
                 1 / (mixVar * treeVar))).
    { rewrite Hd, Hb. simpl negb. cbv iota.
      apply (fill_mix_at pXd); try assumption; try reflexivity.
      unfold pXd. rewrite Hb. simpl. nia. }
    simpl in E. unfold colAt in E. injection E as E1 _ E3. split; assumption.
  - intros ZtR tree newTree g out g' H. unfold mixMHR, bind, ret in H.
    fold p1 p2 d in H. rewrite Hp in H.
    destruct (mhrKernel c ZtR (d_Xd d) (d_ZtX d) (d_diagVar d) tree newTree g)
      as [[ko g1]|e]; [|discriminate].
    injection H as <- _. simpl. split; reflexivity.
Qed.

Lemma mixMHR_design_columns_witness :
  col (d_Xd (mixMHR_design (O := leafOps)
               [[1; 2]; [3; 4]] [[5; 6]] (leafCtr [0; 0; 0; 1] 1 1 [[1; 1]] [2; 4])
               2 1 1 3)) 4
  = [3 * 5; 4 * 6]
  /\ vget (d_diagVar (mixMHR_design (O := leafOps)
               [[1; 2]; [3; 4]] [[5; 6]] (leafCtr [0; 0; 0; 1] 1 1 [[1; 1]] [2; 4])
               2 1 1 3)) 4
     = 1 / (3 * 2).
Proof.
  refine (proj1 (proj2 (proj2 (proj2
            (mixMHR_design_columns scriptedRmath leafForeign leafOps
               [[1; 2]; [3; 4]] [[5; 6]] (leafCtr [0; 0; 0; 1] 1 1 [[1; 1]] [2; 4])
               2 1 1 3))))
            _ 1%nat 0%nat [3; 4] [5; 6] eq_refl eq_refl).
  discriminate.
Defined.

(** ** The monad *)

Lemma bind_Ok {G : Rmath} {A B : Type} (m : M A) (k : A -> M B) (g : rng)
    (r : B * rng) :
  bind m k g = Ok r <-> exists a g1, m g = Ok (a, g1) /\ k a g1 = Ok r.
Proof.
  unfold bind. destruct (m g) as [[a g1]|e]; split.
  - intro H. exists a, g1. split; [reflexivity|assumption].
  - intros (a' & g1' & E & H). injection E as <- <-. assumption.
  - discriminate.
  - intros (a' & g1' & E & _). discriminate.
Qed.

Lemma ret_Ok {G : Rmath} {A : Type} (a : A) (g : rng) (r : A * rng) :
  ret a g = Ok r <-> r = (a, g).
Proof.
  unfold ret. split; [intro H; injection H as <-; reflexivity|intros ->; reflexivity].
Qed.

Lemma foldM_app {G : Rmath} {A B : Type} (f : B -> A -> M B) (l1 l2 : list A)
    (b0 : B) (g : rng) :
  foldM f (l1 ++ l2) b0 g = bind (foldM f l1 b0) (foldM f l2) g.
Proof.
  revert b0 g. induction l1 as [|x l1 IH]; intros b0 g; simpl.
  - reflexivity.
  - unfold bind. unfold bind in IH.
    destruct (f b0 x g) as [[b1 g1]|e]; [|reflexivity].
    rewrite IH. reflexivity.
Qed.

(** ** The move proposed *)




(** ** Vectors, entry by entry *)

Lemma vget_nil (i : nat) : vget [] i = 0.
Proof. destruct i; reflexivity. Qed.

Lemma vget_vadd (a c : vec) (i : nat) : vget (vadd a c) i == vget a i + vget c i.
Proof.
  revert c i. induction a as [|x a IH]; intros c i.
  - simpl. rewrite vget_nil. lra.
  - destruct c as [|y c]; simpl.
    + rewrite vget_nil. lra.
    + destruct i as [|i]; [reflexivity|]. unfold vget in *. simpl. apply IH.
Qed.

Lemma vget_opp (c : vec) (i : nat) : vget (map Qopp c) i == - vget c i.
Proof.
  unfold vget. revert i. induction c as [|y c IH]; intros [|i]; simpl;
    try reflexivity.
  apply IH.
Qed.

Lemma vget_vsub (a c : vec) (i : nat) : vget (vsub a c) i == vget a i - vget c i.
Proof.
  revert c i. induction a as [|x a IH]; intros c i.
  - simpl. rewrite vget_opp, vget_nil. lra.
  - destruct c as [|y c]; simpl.
    + rewrite vget_nil. lra.
    + destruct i as [|i]; [reflexivity|]. unfold vget in *. simpl. apply IH.
Qed.

Lemma vget_vsetZero (v : vec) (i : nat) : vget (vsetZero v) i = 0.
Proof.
  unfold vget. revert i. induction v as [|x v IH]; intros [|i]; simpl;
    try reflexivity.
  apply IH.
Qed.

Lemma vget_sumCols (A : mat) (i : nat) : vget (sumCols A) i == rowsum i A.
Proof.
  induction A as [|c A IH]; unfold rowsum; simpl.
  - rewrite vget_nil. reflexivity.
  - rewrite vget_vadd, IH. reflexivity.
Qed.

Lemma rowsum_app (i : nat) (A B : mat) :
  rowsum i (A ++ B) == rowsum i A + rowsum i B.
Proof.
  unfold rowsum. induction A as [|c A IH]; simpl; [lra|]. rewrite IH. lra.
Qed.

Lemma firstn_upd {A : Type} (t : nat) (v : A) (l : list A) :
  firstn t (upd t v l) = firstn t l.
Proof.
  revert t. induction l as [|h l IH]; intros [|t]; simpl; try reflexivity.
  now rewrite IH.
Qed.

Lemma firstn_S_upd {A : Type} (t : nat) (v : A) (l : list A) :
  (t < length l)%nat -> firstn (S t) (upd t v l) = firstn t l ++ [v].
Proof.
  revert t. induction l as [|h l IH]; intros [|t] H; simpl in *; try lia.
  - reflexivity.
  - f_equal. apply IH. lia.
Qed.

Lemma skipn_upd {A : Type} (t k : nat) (v : A) (l : list A) :
  (t < k)%nat -> skipn k (upd t v l) = skipn k l.
Proof.
  revert t k. induction l as [|h l IH]; intros [|t] [|k] H; simpl; try lia;
    try reflexivity.
  apply IH. lia.
Qed.

Lemma skipn_cons_nth {A : Type} (k : nat) (d : A) (l : list A) :
  (k < length l)%nat -> skipn k l = nth k l d :: skipn (S k) l.
Proof.
  revert k. induction l as [|h l IH]; intros [|k] H; simpl in *; try lia.
  - reflexivity.
  - apply IH. lia.
Qed.

(** ** What the steps of a sweep write *)

Lemma sameSetup_refl {F : Foreign} (c : tdlmCtr) : sameSetup c c.
Proof. unfold sameSetup. auto 10. Qed.

Lemma sameSetup_trans {F : Foreign} (c1 c2 c3 : tdlmCtr) :
  sameSetup c1 c2 -> sameSetup c2 c3 -> sameSetup c1 c3.
Proof.
  unfold sameSetup. intros (A1 & A2 & A3 & A4 & A5 & A6) (B1 & B2 & B3 & B4 & B5 & B6).
  repeat split; congruence.
Qed.

Section SweepFacts.
Context {C : Cmath} {G : Rmath} {F : Foreign} {O : ForeignOps}.

Lemma tdlmmTreeMCMC_update_writes (t : nat) (c : tdlmCtr) (l : locals)
    (g : rng) (c' : tdlmCtr) (g' : rng) :
  tdlmmTreeMCMC_update t c l g = Ok (c', g') ->
  sameSetup c c' /\ R c' = R c /\ fhat c' = fhat c /\
  Rmat c' = upd t (mat_vec (MHR.Xd (l_mhr0 l)) (MHR.drawAll (l_mhr0 l))) (Rmat c).
Proof.
  unfold tdlmmTreeMCMC_update. intro H.
  apply bind_Ok in H. destruct H as (tau' & g1 & _ & H).
  apply ret_Ok in H. injection H as Hc _. subst c'. simpl.
  unfold sameSetup. simpl. auto 10.
Qed.

Lemma tdlmmTreeMCMC_writes (t : nat) (tree1 tree2 : Node) (c : tdlmCtr)
    (lg : tdlmLog) (Exp : list exposureDat) (ratio0 : double) (g : rng)
    (tree1' tree2' : Node) (c' : tdlmCtr) (lg' : tdlmLog) (g' : rng) :
  tdlmmTreeMCMC t tree1 tree2 c lg Exp ratio0 g = Ok (tree1', tree2', c', lg', g') ->
  sameSetup c c' /\ R c' = R c /\ fhat c' = fhat c /\
  exists v, Rmat c' = upd t v (Rmat c).
Proof.
  unfold tdlmmTreeMCMC. intro H.
  apply bind_Ok in H. destruct H as ([l1 lg1] & g1 & _ & H).
  apply bind_Ok in H. destruct H as ([l2 lg2] & g2 & _ & H).
  apply bind_Ok in H. destruct H as (c1 & g3 & Hu & H).
  apply bind_Ok in H. destruct H as (lg3 & g4 & _ & H).
  apply ret_Ok in H. injection H as _ _ Hc _ _. subst c1.
  apply tdlmmTreeMCMC_update_writes in Hu. destruct Hu as (H1 & H2 & H3 & H4).
  split; [assumption|]. split; [assumption|]. split; [assumption|].
  eexists. eassumption.
Qed.

Lemma treeStep_writes (Exp : list exposureDat) (indet : nat -> double)
    (s : sampler) (t : nat) (g : rng) (s' : sampler) (g' : rng) :
  treeStep Exp indet s t g = Ok (s', g') ->
  sameSetup (ctr s) (ctr s') /\
  exists v,
    Rmat (ctr s') = upd t v (Rmat (ctr s)) /\
    fhat (ctr s') = vadd (fhat (ctr s)) (col (Rmat (ctr s')) t) /\
    R (ctr s') =
      if (t <? nTrees (ctr s) - 1)%nat
      then vadd (R (ctr s))
                (vsub (col (Rmat (ctr s')) (S t)) (col (Rmat (ctr s')) t))
      else R (ctr s).
Proof.
  unfold treeStep. intro H.
  apply bind_Ok in H. destruct H as (tree1 & g1 & _ & H).
  apply bind_Ok in H. destruct H as (tree2 & g2 & _ & H).
  apply bind_Ok in H. destruct H as ([[[tree1' tree2'] c1] lg'] & g3 & Ht & H).
  apply ret_Ok in H. injection H as Hs _. subst s'.
  apply tdlmmTreeMCMC_writes in Ht.
  destruct Ht as ((H1 & H2 & H3 & H4 & H5 & H6) & HR & Hf & v & Hv). simpl.
  split; [unfold sameSetup; simpl; auto 10|].
  exists v. rewrite HR, Hf, H2. auto.
Qed.

Lemma treeLoop_S (Exp : list exposureDat) (indet : nat -> double) (t : nat)
    (s : sampler) (g : rng) :
  treeLoop Exp indet (S t) s g =
  bind (treeLoop Exp indet t s) (fun s' => treeStep Exp indet s' t) g.
Proof.
  unfold treeLoop. rewrite seq_S, foldM_app. simpl.
  unfold bind. destruct (foldM (treeStep Exp indet) (seq 0 t) s g) as [[s1 g1]|e];
    [|reflexivity].
  destruct (treeStep Exp indet s1 t g1) as [[s2 g2]|e]; reflexivity.
Qed.

End SweepFacts.

(** ** The running residual *)

Section Backfitting.
Context {C : Cmath} {G : Rmath} {F : Foreign} {O : ForeignOps}.

Lemma backfit_begin (c0 : tdlmCtr) :
  length (Rmat c0) = nTrees c0 ->
  veq (R c0) (vsub (Ystar c0) (sumCols (Rmat c0))) ->
  backfit c0 0 (sweep_begin c0).
Proof.
  intros Hlen Hveq. unfold backfit. simpl.
  split; [unfold sameSetup; simpl; auto 10|]. split; [assumption|].
  split; [|split].
  - intros _ i. rewrite vget_vadd, (Hveq i), vget_vsub, vget_sumCols.
    destruct (Rmat c0) as [|c A]; unfold rowsum, col; simpl.
    + rewrite vget_nil. lra.
    + lra.
  - intro i. rewrite vget_vsetZero. reflexivity.
  - reflexivity.
Qed.

Lemma backfit_step (Exp : list exposureDat) (indet : nat -> double)
    (c0 : tdlmCtr) (s : sampler) (t : nat) (g : rng) (s' : sampler) (g' : rng) :
  backfit c0 t (ctr s) -> (t < nTrees c0)%nat ->
  treeStep Exp indet s t g = Ok (s', g') ->
  backfit c0 (S t) (ctr s').
Proof.
  intros (Hsame & Hlen & HR & Hf & Hcol) Ht Hstep.
  apply treeStep_writes in Hstep.
  destruct Hstep as (Hsame' & v & HRmat & Hfhat & HR').
  assert (Hn : nTrees (ctr s) = nTrees c0) by (destruct Hsame as (_ & H & _); exact H).
  assert (Hv : col (Rmat (ctr s')) t = v).
  { rewrite HRmat. unfold col. apply nth_upd_eq. lia. }
  rewrite Hv in *.
  unfold backfit. split; [eapply sameSetup_trans; eassumption|].
  split; [rewrite HRmat, length_upd; assumption|]. split; [|split].
  - intros HSt i. rewrite HR'. rewrite Hn.
    destruct (Nat.ltb_spec t (nTrees c0 - 1)) as [_|Hge]; [|lia].
    rewrite vget_vadd, vget_vsub, (HR Ht i).
    rewrite HRmat, firstn_S_upd by lia. rewrite skipn_upd by lia.
    unfold col. rewrite nth_upd_neq by lia.
    rewrite (skipn_cons_nth (S t) ([] : vec) (Rmat (ctr s))) by lia.
    rewrite rowsum_app. unfold rowsum at 2 4 5. simpl. unfold rowsum. lra.
  - intro i. rewrite Hfhat, vget_vadd, (Hf i).
    rewrite HRmat, firstn_S_upd by lia. rewrite rowsum_app.
    unfold rowsum at 3. simpl. lra.
  - intros k Hk. rewrite <- Hcol by lia. rewrite HRmat. unfold col.
    apply nth_upd_neq. lia.
Qed.

Lemma backfit_loop (Exp : list exposureDat) (indet : nat -> double)
    (s0 : sampler) (t : nat) (g : rng) (st : sampler) (g' : rng) :
  length (Rmat (ctr s0)) = nTrees (ctr s0) ->
  veq (R (ctr s0)) (vsub (Ystar (ctr s0)) (sumCols (Rmat (ctr s0)))) ->
  (t <= nTrees (ctr s0))%nat ->
  treeLoop Exp indet t (sweep_start s0) g = Ok (st, g') ->
  backfit (ctr s0) t (ctr st).
Proof.
  intros Hlen Hveq. revert st g'. induction t as [|t IH]; intros st g' Ht Hloop.
  - unfold treeLoop in Hloop. simpl in Hloop. apply ret_Ok in Hloop.
    injection Hloop as Hs _. subst st. simpl. now apply backfit_begin.
  - rewrite treeLoop_S in Hloop. apply bind_Ok in Hloop.
    destruct Hloop as (s1 & g1 & Hprev & Hstep).
    eapply backfit_step; [apply (IH s1 g1); [lia|assumption]|lia|eassumption].
Qed.

(** Steps other than [k] leave column [k] of [Rmat] as it is. *)
Lemma treeSteps_keep_col (Exp : list exposureDat) (indet : nat -> double)
    (l : list nat) (k : nat) (s : sampler) (g : rng) (s' : sampler) (g' : rng) :
  ~ In k l -> foldM (treeStep Exp indet) l s g = Ok (s', g') ->
  col (Rmat (ctr s')) k = col (Rmat (ctr s)) k.
Proof.
  revert s g. induction l as [|t l IH]; intros s g Hk H; simpl in H.
  - apply ret_Ok in H. injection H as <- _. reflexivity.
  - apply bind_Ok in H. destruct H as (s1 & g1 & Hstep & Hrest).
    rewrite (IH s1 g1) by (auto || intro; apply Hk; now right).
    apply treeStep_writes in Hstep. destruct Hstep as (_ & v & HRmat & _).
    rewrite HRmat. unfold col. apply nth_upd_neq. intro E. apply Hk. now left.
Qed.

End Backfitting.

(** C1, in exact arithmetic.  In a sweep computed without rounding that
    starts with [R] equal to [Ystar] minus the sum of
    all the columns of [Rmat]: when step [t] of the loop over the tree pairs
    starts, [R] equals [Ystar] minus the sum of the columns of [Rmat] other
    than [t]; the columns after [t] are those of the previous sweep and the
    columns before [t] those written by their own steps of this sweep; after
    the loop, [R] is set to [Ystar] minus [fhat], which is the sum of all
    the columns. *)
Theorem backfitting_residual (C : Cmath) (G : Rmath) (F : Foreign)
    (O : ForeignOps) (Exp : list exposureDat) (indet : nat -> double)
    (s0 : sampler) :
  length (Rmat (ctr s0)) = nTrees (ctr s0) ->
  veq (R (ctr s0)) (vsub (Ystar (ctr s0)) (sumCols (Rmat (ctr s0)))) ->
  (forall t g st g',
      (t < nTrees (ctr s0))%nat ->
      treeLoop Exp indet t (sweep_start s0) g = Ok (st, g') ->
      veq (R (ctr st)) (vsub (Ystar (ctr st)) (sumExcept t (Rmat (ctr st))))
      /\ (forall k, (t < k)%nat -> col (Rmat (ctr st)) k = col (Rmat (ctr s0)) k)
      /\ (forall k sk gk, (k < t)%nat ->
            treeLoop Exp indet (S k) (sweep_start s0) g = Ok (sk, gk) ->
            col (Rmat (ctr st)) k = col (Rmat (ctr sk)) k))
  /\ (forall g s1 g1,
        treeLoop Exp indet (nTrees (ctr s0)) (sweep_start s0) g = Ok (s1, g1) ->
        R (sweep_totals (ctr s1)) = vsub (Ystar (ctr s1)) (fhat (ctr s1)) /\
        veq (fhat (ctr s1)) (sumCols (Rmat (ctr s1)))).
Proof.
  intros Hlen Hveq. split.
  - intros t g st g' Ht Hloop.
    destruct (backfit_loop Exp indet s0 t g st g' Hlen Hveq ltac:(lia) Hloop)
      as ((HY & _) & _ & HR & _ & Hcol).
    split; [|split].
    + intro i. rewrite vget_vsub. unfold sumExcept.
      rewrite vget_sumCols, rowsum_app, HY. apply HR. assumption.
    + intros k Hk. apply Hcol. lia.
    + intros k sk gk Hk Hsk. unfold treeLoop in Hloop, Hsk.
      replace t with (S k + (t - S k))%nat in Hloop by lia.
      rewrite seq_app, foldM_app in Hloop. apply bind_Ok in Hloop.
      destruct Hloop as (sk' & gk' & Hsk' & Hrest).
      rewrite Hsk in Hsk'. injection Hsk' as <- <-.
      eapply treeSteps_keep_col; [|eassumption].
      rewrite in_seq. lia.
  - intros g s1 g1 Hloop. split; [reflexivity|].
    destruct (backfit_loop Exp indet s0 _ g s1 g1 Hlen Hveq (le_n _) Hloop)
      as (_ & Hl & _ & Hf & _).
    intro i. rewrite (Hf i), vget_sumCols, <- Hl, firstn_all. reflexivity.
Qed.

Lemma backfitting_residual_witness :
  exists st g',
    treeLoop (C := exampleCmath) (O := leafOps) leafExp (fun _ => 0) 1
      (sweep_start (leafSampler 1)) [1 # 2; 3 # 4; 1 # 2; 1 # 2; 1 # 4]
    = Ok (st, g')
    /\ veq (R (ctr st)) (vsub (Ystar (ctr st)) (sumExcept 1 (Rmat (ctr st)))).
Proof.
  assert (Hveq : veq (R (ctr (leafSampler 1)))
                     (vsub (Ystar (ctr (leafSampler 1)))
                           (sumCols (Rmat (ctr (leafSampler 1)))))).
  { intros [|[|[|i]]]; reflexivity. }
  destruct (backfitting_residual exampleCmath scriptedRmath leafForeign leafOps
              leafExp (fun _ => 0) (leafSampler 1) eq_refl Hveq) as [H _].
  destruct (treeLoop (C := exampleCmath) (O := leafOps) leafExp (fun _ => 0) 1
              (sweep_start (leafSampler 1)) [1 # 2; 3 # 4; 1 # 2; 1 # 2; 1 # 4])
    as [[st g']|e] eqn:E.
  - exists st, g'. split; [reflexivity|].
    apply (proj1 (H 1%nat [1 # 2; 3 # 4; 1 # 2; 1 # 2; 1 # 4] st g' (le_n 2) E)).
  - vm_compute in E. discriminate.
Defined.

(** C1, as stated, fails on the doubles of the code, where the additions of
    lines 835 and 855 round.
    - At the start of step 0.  With one observation, [Ystar = 1] and the
      columns 0.1 and 0.2, the residual of the hypothesis is
      [1 - (0.1 + 0.2)], the double 0.7; line 835 adds the column 0.1 back
      and gives 0.7999999999999999, while [Ystar] minus the other column is
      0.8.
    - At the start of step 1, with a hypothesis that holds without any
      rounding.  With [Ystar = 1], the columns 0 and [1 + 2^-52] and
      [R = -2^-52], line 835 leaves [R] as it is; when step 0 has stored
      [2^-53] in column 0, line 855 adds [(1 + 2^-52) - 2^-53], which rounds
      to 1, and gives [1 - 2^-52], while [Ystar] minus the other column is
      [1 - 2^-53]. *)
Section ResidualDoubles.
Import PrimFloat.
#[local] Set Warnings "-inexact-float".

Lemma backfitting_residual_rounds :
  (fvsub [1] (fvadd [0.1] [0.2]) = [0.7]
   /\ sweep_begin_R_d [0.7] [[0.1]; [0.2]] = [0.7999999999999999]
   /\ fvsub [1] [0.2] = [0.8]
   /\ (0.7999999999999999 =? 0.8) = false)%float
  /\ (fvsub [1] (fvadd [0] [0x1.0000000000001p+0]) = [-0x1p-52]
      /\ sweep_begin_R_d [-0x1p-52] [[0]; [0x1.0000000000001p+0]] = [-0x1p-52]
      /\ treeStep_R_d 2 0 [-0x1p-52] [[0x1p-53]; [0x1.0000000000001p+0]]
         = [0x1.ffffffffffffep-1]
      /\ fvsub [1] [0x1p-53] = [0x1.fffffffffffffp-1]
      /\ (0x1.ffffffffffffep-1 =? 0x1.fffffffffffffp-1) = false)%float
  /\ F2Q (-0x1p-52) == F2Q 1 - (F2Q 0 + F2Q 0x1.0000000000001p+0)
  /\ F2Q 0x1.fffffffffffffp-1 == F2Q 1 - F2Q 0x1p-53
  /\ ~ F2Q 0x1.ffffffffffffep-1 == F2Q 1 - F2Q 0x1p-53.
Proof.
  split; [repeat split; reflexivity|].
  split; [repeat split; reflexivity|].
  split; [reflexivity|]. split; [reflexivity|]. discriminate.
Qed.

End ResidualDoubles.

(** ** The exposure-selection probabilities *)

(** [rDirichlet] makes one Gamma draw of scale 1 for each entry of [alpha],
    in order, and returns the draws over their sum. *)
Lemma rDirichlet_loop_gammaDraws {G : Rmath} (alpha out : vec) (norm : double)
    (g : rng) :
  rDirichlet_loop alpha out norm g =
  Ok (out ++ fst (gammaDraws alpha g),
      fold_left Qplus (fst (gammaDraws alpha g)) norm,
      snd (gammaDraws alpha g)).
Proof.
  revert out norm g. induction alpha as [|a alpha IH]; intros out norm g; simpl.
  - unfold ret. now rewrite app_nil_r.
  - unfold bind, draw. destruct (rgamma a 1 g) as [o g1]. simpl.
    rewrite IH, <- app_assoc. reflexivity.
Qed.

Lemma rDirichlet_gammaDraws {G : Rmath} (alpha : vec) (g : rng) :
  rDirichlet alpha g =
  Ok (normalised (fst (gammaDraws alpha g)), snd (gammaDraws alpha g)).
Proof.
  unfold rDirichlet, bind. rewrite rDirichlet_loop_gammaDraws. reflexivity.
Qed.

Section ExpProb.
Context {C : Cmath} {G : Rmath} {F : Foreign} {O : ForeignOps}.

Lemma treeLoop_sameSetup (Exp : list exposureDat) (indet : nat -> double)
    (t : nat) (s : sampler) (g : rng) (st : sampler) (g' : rng) :
  treeLoop Exp indet t s g = Ok (st, g') -> sameSetup (ctr s) (ctr st).
Proof.
  revert st g'. induction t as [|t IH]; intros st g' H.
  - unfold treeLoop in H. simpl in H. apply ret_Ok in H.
    injection H as <- _. apply sameSetup_refl.
  - rewrite treeLoop_S in H. apply bind_Ok in H.
    destruct H as (s1 & g1 & Hprev & Hstep).
    apply treeStep_writes in Hstep. destruct Hstep as (Hsame & _).
    eapply sameSetup_trans; [apply (IH s1 g1 Hprev)|assumption].
Qed.

Lemma adaptsExpProb_iff (c : tdlmCtr) :
  adaptsExpProb c = true <->
  (1000 < b c)%Z \/ (1 # 2) * inject_Z (burn c) < inject_Z (b c).
Proof.
  unfold adaptsExpProb. rewrite orb_true_iff, Z.ltb_lt, Qltb_lt. reflexivity.
Qed.

(** What [sweep_end] leaves in [expProb]. *)
Lemma sweep_end_expProb (c : tdlmCtr) (g : rng) (c' : tdlmCtr) (g' : rng) :
  estKeepsExposure ->
  sweep_end c g = Ok (c', g') ->
  expCount c' = expCount c /\
  if adaptsExpProb c
  then exists g1,
         rDirichlet (map (fun k => k + modKappa c) (expCount c)) g1
           = Ok (expProb c', g') /\
         expProb c' =
           normalised (fst (gammaDraws (map (fun k => k + modKappa c) (expCount c)) g1)) /\
         g' = snd (gammaDraws (map (fun k => k + modKappa c) (expCount c)) g1)
  else expProb c' = expProb c.
Proof.
  intros Hest H. unfold sweep_end in H.
  apply bind_Ok in H. destruct H as (c2 & g2 & Hc2 & H).
  apply Hest in Hc2. simpl in Hc2. destruct Hc2 as (Hb & Hburn & Hp & Hcount & Hk).
  apply bind_Ok in H. destruct H as ([nu' y] & g3 & _ & H).
  apply bind_Ok in H. destruct H as ([muExp' muMix'] & g4 & _ & H).
  apply bind_Ok in H. destruct H as (expProb' & g5 & Hdraw & H).
  apply ret_Ok in H. injection H as Hc Hg. subst c' g'. simpl.
  split; [assumption|].
  assert (Ha : adaptsExpProb c2 = adaptsExpProb c)
    by (unfold adaptsExpProb; rewrite Hb, Hburn; reflexivity).
  rewrite Ha in Hdraw. destruct (adaptsExpProb c).
  - exists g4. rewrite <- Hk, <- Hcount. split; [assumption|].
    rewrite rDirichlet_gammaDraws in Hdraw. injection Hdraw as <- <-.
    split; reflexivity.
  - apply ret_Ok in Hdraw. injection Hdraw as -> _. assumption.
Qed.

End ExpProb.

(** C5.  In a sweep with iteration counter [b], [expProb] is redrawn exactly
    when [b > 1000] or [b > 0.5 * burn]: it is then what [rDirichlet] returns
    for the parameters [expCount + modKappa], that is, one Gamma draw of
    shape [expCount(k) + modKappa] and scale 1 for each exposure [k], in
    order, divided by the sum of the draws; these are the last draws of the
    sweep, whose generator ends where they end.  Otherwise the sweep leaves
    [expProb] as it was.  (The model estimation is taken not to touch the
    counter, the burn-in length and the exposure bookkeeping.) *)
Theorem expProb_update (C : Cmath) (G : Rmath) (F : Foreign) (O : ForeignOps)
    (Exp : list exposureDat) (indet : nat -> double) (s : sampler) (g : rng)
    (s' : sampler) (g' : rng) :
  estKeepsExposure ->
  sweep Exp indet s g = Ok (s', g') ->
  let adapts := (1000 < b (ctr s))%Z \/
                (1 # 2) * inject_Z (burn (ctr s)) < inject_Z (b (ctr s)) in
  let alpha := map (fun k => k + modKappa (ctr s)) (expCount (ctr s')) in
  (adapts ->
   exists g1,
     rDirichlet alpha g1 = Ok (expProb (ctr s'), g') /\
     expProb (ctr s') = normalised (fst (gammaDraws alpha g1)) /\
     g' = snd (gammaDraws alpha g1))
  /\ (~ adapts -> expProb (ctr s') = expProb (ctr s)).
Proof.
  intros Hest H adapts alpha. unfold sweep in H.
  apply bind_Ok in H. destruct H as (s1 & g1 & Hloop & H).
  apply bind_Ok in H. destruct H as (c2 & g2 & Hend & H).
  apply ret_Ok in H. injection H as Hs Hg. subst s' g'. simpl in alpha |- *.
  apply treeLoop_sameSetup in Hloop.
  assert (Hstart : sameSetup (ctr s) (ctr (sweep_start s)))
    by (unfold sameSetup; simpl; auto 10).
  destruct (sameSetup_trans _ _ _ Hstart Hloop) as (_ & _ & Hp & Hb & Hburn & Hk).
  destruct (sweep_end_expProb (ctr s1) g1 c2 g2 Hest Hend) as (Hcount & Hcase).
  assert (Ha : adaptsExpProb (ctr s1) = true <-> adapts).
  { rewrite adaptsExpProb_iff, Hb, Hburn. reflexivity. }
  destruct (adaptsExpProb (ctr s1)); split.
  - intros _. destruct Hcase as (ga & Hd). exists ga. subst alpha.
    rewrite Hcount, <- Hk. exact Hd.
  - intro Hn. exfalso. apply Hn. apply Ha. reflexivity.
  - intro Hy. apply Ha in Hy. discriminate.
  - intros _. congruence.
Qed.

Lemma leafOps_estKeepsExposure : estKeepsExposure (O := leafOps).
Proof.
  intros c g c' g' H. injection H as <- _. auto.
Defined.

(** A script for one sweep of [leafSampler]: the moves of the two tree pairs,
    the two Gamma draws of the global variance, the two of [rDirichlet]. *)
Definition leafScript : list double :=
  [1 # 2; 3 # 4; 1 # 2; 1 # 2; 1 # 4;
   1 # 2; 1 # 4; 1 # 2; 3 # 4; 1 # 2;
   1; 1; 1; 3].

Lemma expProb_update_witness :
  exists s' g' g1,
    sweep (C := exampleCmath) (O := leafOps) leafExp (fun _ => 0)
      (leafSampler 6) leafScript = Ok (s', g')
    /\ expProb (ctr s') =
       normalised (fst (gammaDraws (G := scriptedRmath)
                          (map (fun k => k + 1) (expCount (ctr s'))) g1))
    /\ g' = snd (gammaDraws (G := scriptedRmath)
                   (map (fun k => k + 1) (expCount (ctr s'))) g1).
Proof.
  destruct (sweep (C := exampleCmath) (O := leafOps) leafExp (fun _ => 0)
              (leafSampler 6) leafScript) as [[s' g']|e] eqn:E.
  - destruct (proj1 (expProb_update exampleCmath scriptedRmath leafForeign leafOps
                       leafExp (fun _ => 0) (leafSampler 6) leafScript
                       s' g' leafOps_estKeepsExposure E)) as (g1 & _ & H1 & H2).
    + right. reflexivity.
    + exists s', g', g1. split; [reflexivity|]. split; [exact H1|exact H2].
  - vm_compute in E. discriminate.
Defined.

(** ** The acceptance log *)

(** C4, where the code departs from it.  [tdlmmTreeMCMC] declares [ratio]
    without a value and assigns it only when a candidate is evaluated, but
    the row it pushes to [TreeAccept] always holds it.  When the update of
    the first tree evaluates no candidate, the last entry of the row is the
    content [ratio0] of the unset variable, whatever the configuration and
    the random numbers are; in the leaf world, two runs on one configuration
    and one stream of random numbers return different [TreeAccept] records
    for two such contents ([leafRun 0] and [leafRun 1]). *)
Theorem treeAccept_holds_unset_ratio :
  (forall (C : Cmath) (G : Rmath) (F : Foreign) (O : ForeignOps)
          (t : nat) (tree1 tree2 : Node) (c : tdlmCtr) (lg : tdlmLog)
          (Exp : list exposureDat) (ratio0 : double) (g : rng)
          (l : locals) (lg' : tdlmLog) (g' : rng),
      diagnostics c = true ->
      tdlmmTreeMCMC_tree1 t tree1 tree2 c lg Exp ratio0 g = Ok (l, lg', g') ->
      (forall p g1,
          proposeUpdate c Exp tree1 (listTerminal tree1 false)
            (nth t (tree1Exp c) 0%nat) (nth t (tree2Exp c) 0%nat)
            (vget (muExp c) (nth t (tree1Exp c) 0%nat))
            (pairMixVar c (nth t (tree1Exp c) 0%nat) (nth t (tree2Exp c) 0%nat)) g
          = Ok (p, g1) ->
          p_success p = 0%nat) ->
      exists row, TreeAccept lg' = TreeAccept lg ++ [row] /\ vget row 6 = ratio0)
  /\ (forall ratio0 : double,
        exists tree1' tree2' c' g',
          leafRun ratio0
          = Ok (tree1', tree2', c',
                {| TreeAccept := [[1; 3; 0; 0; 1; 0; ratio0];
                                  [2; 3; 0; 0; 1; 0; ratio0]];
                   DLMexp := [];
                   MIXexp := [] |}, g'))
  /\ leafRun 0 <> leafRun 1.
Proof.
  split.
  - intros C G F O t tree1 tree2 c lg Exp ratio0 g l lg' g' Hdiag H Hnone.
    unfold tdlmmTreeMCMC_tree1 in H. cbv zeta in H.
    apply bind_Ok in H. destruct H as (p & g1 & Hp & H).
    apply bind_Ok in H. destruct H as (mhr0 & g2 & _ & H).
    rewrite (Hnone p g1 Hp) in H. simpl in H.
    unfold pushAccept in H. rewrite Hdiag in H.
    destruct (p_step p <? 3)%nat; apply ret_Ok in H; injection H as _ Hlg _;
      subst lg'; simpl; eexists; (split; [reflexivity|reflexivity]).
  - split.
    + intro ratio0. eexists _, _, _, _. vm_compute. reflexivity.
    + vm_compute. discriminate.
Qed.

(** * Further properties of Fncs.cpp *)

(** ** sampleInt: entries of probability zero *)

Lemma Qsum_firstn_S (l : list double) (k : nat) :
  Qsum (firstn (S k) l) == Qsum (firstn k l) + nth k l 0.
Proof.
  revert k. induction l as [|x l IH]; intros [|k]; simpl; try lra.
  specialize (IH k). simpl in IH. rewrite IH. lra.
Qed.

Lemma cumsum_S (probs : vec) (k : nat) :
  cumsum probs (S k) == cumsum probs k + vget probs (S k).
Proof.
  unfold cumsum. rewrite !fold_left_Qplus, Qsum_firstn_S.
  destruct probs as [|p0 rest]; unfold vget; simpl.
  - destruct k; simpl; lra.
  - lra.
Qed.

(** X1.  [sampleInt] never returns the index of an entry of probability zero
    when the uniform draw is positive: such an entry adds nothing to the
    cumulative sum, so the scan has stopped before it or goes past it. *)
Theorem sampleInt_skips_zero (G : Rmath) (probs : vec) (totP : double)
    (g g' : rng) (i : nat) :
  0 < fst (runif 0 totP g) -> vget probs i == 0 ->
  sampleInt probs totP g <> Ok (i, g').
Proof.
  intros Hu Hz H. rewrite sampleInt_unfold in H.
  destruct (sampleInt_at probs (fst (runif 0 totP g))) as [k|e] eqn:E;
    [|discriminate].
  injection H as -> _. apply sampleInt_at_Ok in E.
  destruct E as (Hi & Hle & Hlt). destruct i as [|i].
  - unfold cumsum in Hle. simpl in Hle. unfold vget in Hz.
    destruct probs as [|p0 rest]; simpl in *; lra.
  - specialize (Hlt i (Nat.lt_succ_diag_r i)).
    rewrite cumsum_S, Hz in Hle. lra.
Qed.

Lemma sampleInt_skips_zero_witness :
  sampleInt (G := scriptedRmath) [0.5; 0; 0.5] 1 [0.5] <> Ok (1%nat, []).
Proof.
  refine (sampleInt_skips_zero scriptedRmath [0.5; 0; 0.5] 1 [0.5] [] 1 _ _);
    reflexivity.
Defined.

(** ** rDirichlet: a point of the simplex *)

Lemma rDirichlet_loop_draws {G : Rmath} (alpha out : vec) (norm : double) (g : rng) :
  exists draws g',
    rDirichlet_loop alpha out norm g = Ok (out ++ draws, fold_left Qplus draws norm, g')
    /\ length draws = length alpha
    /\ ((forall a g0, 0 < fst (rgamma a 1 g0)) -> Forall (fun p => 0 < p) draws).
Proof.
  revert out norm g. induction alpha as [|a alpha IH]; intros out norm g.
  - exists [], g. simpl. unfold ret. rewrite app_nil_r.
    split; [reflexivity|split; [reflexivity|constructor]].
  - simpl. unfold bind, draw. destruct (rgamma a 1 g) as [o g1] eqn:E.
    destruct (IH (out ++ [o]) (norm + o) g1) as (draws & g' & H & Hlen & Hpos).
    exists (o :: draws), g'. rewrite H, <- app_assoc. simpl.
    split; [reflexivity|split; [simpl; lia|]].
    intro Hg. constructor; [|auto]. specialize (Hg a g). rewrite E in Hg. exact Hg.
Qed.

Lemma Qsum_pos (l : list double) :
  l <> [] -> Forall (fun p => 0 < p) l -> 0 < Qsum l.
Proof.
  intros Hne H. destruct H as [|x l Hx Hl]; [exfalso; apply Hne; reflexivity|]. simpl.
  assert (0 <= Qsum l).
  { apply Qsum_nonneg. eapply Forall_impl; [|exact Hl]. simpl. intros; lra. }
  lra.
Qed.

Lemma Qsum_map_div (l : list double) (n : double) :
  Qsum (map (fun o => o / n) l) == Qsum l / n.
Proof.
  induction l as [|x l IH]; simpl.
  - unfold Qdiv. lra.
  - rewrite IH. unfold Qdiv. ring.
Qed.

(** What [rDirichlet] returns: the Gamma draws over their sum. *)
Lemma rDirichlet_draws {G : Rmath} (alpha : vec) (g : rng) :
  exists draws g',
    rDirichlet alpha g = Ok (map (fun o => o / fold_left Qplus draws 0) draws, g')
    /\ length draws = length alpha
    /\ ((forall a g0, 0 < fst (rgamma a 1 g0)) -> Forall (fun p => 0 < p) draws).
Proof.
  destruct (rDirichlet_loop_draws alpha [] 0 g) as (draws & g' & H & Hlen & Hpos).
  exists draws, g'. unfold rDirichlet, bind. rewrite H. simpl.
  split; [reflexivity|split; assumption].
Qed.

Lemma normalised_simplex (draws : vec) :
  draws <> [] -> Forall (fun p => 0 < p) draws ->
  Forall (fun p => 0 < p) (map (fun o => o / fold_left Qplus draws 0) draws)
  /\ vsum (map (fun o => o / fold_left Qplus draws 0) draws) == 1.
Proof.
  intros Hne Hpos. pose proof (Qsum_pos draws Hne Hpos) as Hs.
  assert (Hn : fold_left Qplus draws 0 == Qsum draws)
    by (rewrite fold_left_Qplus; lra).
  split.
  - apply Forall_map. eapply Forall_impl; [|exact Hpos]. simpl. intros o Ho.
    apply Qlt_shift_div_l; lra.
  - rewrite vsum_Qsum, Qsum_map_div, Hn. field. lra.
Qed.

(** X2.  [rDirichlet] never fails and returns a vector of the size of
    [alpha]; when the Gamma draws are positive and [alpha] is not empty,
    every entry of the result is positive and the entries sum to 1. *)
Theorem rDirichlet_simplex (G : Rmath) (alpha : vec) (g : rng) :
  exists out g',
    rDirichlet alpha g = Ok (out, g') /\ length out = length alpha /\
    ((forall a g0, 0 < fst (rgamma a 1 g0)) -> alpha <> [] ->
     Forall (fun p => 0 < p) out /\ vsum out == 1).
Proof.
  destruct (rDirichlet_draws alpha g) as (draws & g' & H & Hlen & Hpos).
  eexists _, g'. split; [exact H|]. split; [rewrite length_map; exact Hlen|].
  intros Hg Hne. apply normalised_simplex; [|auto].
  destruct draws; [|discriminate]. destruct alpha; [congruence|discriminate].
Qed.

Lemma countingRmath_rgamma_pos (a s : double) (k : nat) :
  0 < fst (rgamma (Rmath := countingRmath) a s k).
Proof.
  simpl. unfold Qnat, Qlt. simpl. lia.
Qed.

Lemma rDirichlet_simplex_witness :
  exists out g',
    rDirichlet (G := countingRmath) [1; 1; 2] 0%nat = Ok (out, g') /\
    length out = 3%nat /\ Forall (fun p => 0 < p) out /\ vsum out == 1.
Proof.
  destruct (rDirichlet_simplex countingRmath [1; 1; 2] 0%nat)
    as (out & g' & H & Hlen & Hrest).
  exists out, g'. split; [exact H|]. split; [exact Hlen|].
  apply Hrest; [intros; apply countingRmath_rgamma_pos|discriminate].
Defined.

(** ** intersectAndDiff: order, membership and sorted inputs *)

Lemma subseq_refl {A : Type} (l : list A) : subseq l l.
Proof.
  induction l; constructor; assumption.
Qed.

Lemma subseq_nil_l {A : Type} (l : list A) : subseq [] l.
Proof.
  induction l; constructor; assumption.
Qed.

(** What the loop adds to the two vectors it is given. *)
Lemma intersectAndDiff_loop_adds (o n intVec diffVec : list Z) :
  exists I D,
    intersectAndDiff_loop o n intVec diffVec = (intVec ++ I, diffVec ++ D) /\
    subseq I o /\ subseq D o /\ (forall x, In x I -> In x n).
Proof.
  revert n intVec diffVec. induction o as [|oi o' IHo]; intros n intVec diffVec.
  - exists [], []. simpl. rewrite !app_nil_r.
    split; [reflexivity|]. split; [constructor|]. split; [constructor|].
    intros x [].
  - revert intVec diffVec. induction n as [|nj n' IHn]; intros intVec diffVec.
    + exists [], (oi :: o'). simpl. rewrite app_nil_r.
      split; [reflexivity|]. split; [apply subseq_nil_l|].
      split; [apply subseq_refl|]. intros x [].
    + simpl. destruct (oi <? nj)%Z; [|destruct (oi =? nj)%Z eqn:E].
      * destruct (IHo (nj :: n') intVec (diffVec ++ [oi])) as (I & D & H & HI & HD & Hin).
        exists I, (oi :: D). rewrite H, <- app_assoc.
        split; [reflexivity|]. split; [constructor; assumption|].
        split; [constructor; assumption|assumption].
      * destruct (IHo n' (intVec ++ [oi]) diffVec) as (I & D & H & HI & HD & Hin).
        exists (oi :: I), D. rewrite H, <- app_assoc.
        split; [reflexivity|]. split; [constructor; assumption|].
        split; [constructor; assumption|].
        apply Z.eqb_eq in E. intros x [<-|Hx]; [left; auto|right; auto].
      * destruct (IHn intVec diffVec) as (I & D & H & HI & HD & Hin).
        exists I, D. split; [exact H|]. split; [assumption|].
        split; [assumption|]. intros x Hx. right. auto.
Qed.

(** X4.  For all inputs, sorted or not, both vectors that [intersectAndDiff]
    returns keep the order of [origVec] (each holds some of its elements, in
    its order), and every element of the intersection is an element of
    [newVec] as well. *)
Theorem intersectAndDiff_sound (origVec newVec : list Z) :
  subseq (fst (intersectAndDiff origVec newVec)) origVec /\
  subseq (snd (intersectAndDiff origVec newVec)) origVec /\
  forall x, In x (fst (intersectAndDiff origVec newVec)) ->
            In x origVec /\ In x newVec.
Proof.
  assert (Hsub : forall (I l : list Z), subseq I l -> forall x, In x I -> In x l).
  { induction 1; intros y Hy; simpl in *; auto. destruct Hy; auto. }
  unfold intersectAndDiff. destruct origVec as [|oi o'].
  { simpl. split; [constructor|]. split; [constructor|]. intros x []. }
  destruct newVec as [|nj n'].
  { simpl. split; [apply subseq_nil_l|]. split; [apply subseq_refl|]. intros x []. }
  destruct (intersectAndDiff_loop_adds (oi :: o') (nj :: n') [] [])
    as (I & D & H & HI & HD & Hin).
  rewrite H. simpl. split; [assumption|]. split; [assumption|].
  intros x Hx. split; [apply (Hsub I _ HI x Hx)|apply Hin, Hx].
Qed.

Lemma memZ_In (l : list Z) (x : Z) : memZ l x = true <-> In x l.
Proof.
  unfold memZ. rewrite existsb_exists. split.
  - intros (y & Hy & E). apply Z.eqb_eq in E. subst. assumption.
  - intro H. exists x. split; [assumption|apply Z.eqb_refl].
Qed.

Lemma filter_ext_in_Z (f h : Z -> bool) (l : list Z) :
  (forall x, In x l -> f x = h x) -> filter f l = filter h l.
Proof.
  induction l as [|x l IH]; intro H; simpl; [reflexivity|].
  rewrite (H x (or_introl eq_refl)), IH; [reflexivity|].
  intros y Hy. apply H. right. assumption.
Qed.

Lemma memZ_skip_smaller (nj : Z) (n' l : list Z) :
  Forall (fun x => (nj < x)%Z) l ->
  filter (memZ (nj :: n')) l = filter (memZ n') l /\
  filter (fun x => negb (memZ (nj :: n') x)) l =
  filter (fun x => negb (memZ n' x)) l.
Proof.
  intro H. rewrite Forall_forall in H.
  split; apply filter_ext_in_Z; intros x Hx; specialize (H x Hx);
    unfold memZ; simpl; destruct (Z.eqb_spec x nj); try lia; reflexivity.
Qed.

Lemma filter_memZ_nil (l : list Z) :
  filter (memZ []) l = [] /\ filter (fun x => negb (memZ [] x)) l = l.
Proof.
  unfold memZ. induction l as [|x l [IH1 IH2]]; simpl; [split; reflexivity|].
  split; [assumption|f_equal; assumption].
Qed.

Lemma intersectAndDiff_loop_cons (oi : Z) (o' : list Z) (nj : Z) (n' : list Z)
    (intVec diffVec : list Z) :
  intersectAndDiff_loop (oi :: o') (nj :: n') intVec diffVec =
  if (oi <? nj)%Z then intersectAndDiff_loop o' (nj :: n') intVec (diffVec ++ [oi])
  else if (oi =? nj)%Z then intersectAndDiff_loop o' n' (intVec ++ [oi]) diffVec
  else intersectAndDiff_loop (oi :: o') n' intVec diffVec.
Proof.
  reflexivity.
Qed.

(** The loop on sorted vectors: the elements of [o] that are in [n], and
    those that are not. *)
Lemma intersectAndDiff_loop_sorted (o n intVec diffVec : list Z) :
  StronglySorted Z.lt o -> StronglySorted Z.le n ->
  intersectAndDiff_loop o n intVec diffVec =
  (intVec ++ filter (memZ n) o, diffVec ++ filter (fun x => negb (memZ n x)) o).
Proof.
  revert n intVec diffVec. induction o as [|oi o' IHo]; intros n intVec diffVec Ho Hn.
  - simpl. rewrite !app_nil_r. reflexivity.
  - inversion Ho as [|? ? Ho' Hoi]; subst.
    revert intVec diffVec. induction n as [|nj n' IHn]; intros intVec diffVec.
    + destruct (filter_memZ_nil (oi :: o')) as (E1 & E2). rewrite E1, E2.
      simpl. rewrite app_nil_r. reflexivity.
    + inversion Hn as [|? ? Hn' Hnj]; subst.
      rewrite intersectAndDiff_loop_cons.
      destruct (Z.ltb_spec oi nj) as [Hlt|Hge]; [|destruct (Z.eqb_spec oi nj) as [E|E]].
      * rewrite (IHo (nj :: n') intVec (diffVec ++ [oi]) Ho' Hn).
        assert (Hm : memZ (nj :: n') oi = false).
        { destruct (memZ (nj :: n') oi) eqn:Em; [|reflexivity].
          apply memZ_In in Em. destruct Em as [->|Hin]; [lia|].
          rewrite Forall_forall in Hnj. specialize (Hnj oi Hin). lia. }
        cbn [filter]. rewrite Hm. simpl. rewrite <- app_assoc. reflexivity.
      * subst nj. rewrite (IHo n' (intVec ++ [oi]) diffVec Ho' Hn').
        destruct (memZ_skip_smaller oi n' o' Hoi) as (E1 & E2).
        cbn [filter]. rewrite E1, E2.
        assert (Hm : memZ (oi :: n') oi = true) by (apply memZ_In; left; reflexivity).
        rewrite Hm. simpl. rewrite <- app_assoc. reflexivity.
      * rewrite (IHn Hn' intVec diffVec).
        assert (Hall : Forall (fun x => (nj < x)%Z) (oi :: o')).
        { constructor; [lia|]. eapply Forall_impl; [|exact Hoi]. simpl. intros; lia. }
        destruct (memZ_skip_smaller nj n' (oi :: o') Hall) as (E1 & E2).
        rewrite E1, E2. reflexivity.
Qed.

(** X5.  On a strictly increasing [origVec] and a sorted [newVec],
    [intersectAndDiff] returns the elements of [origVec] that are in
    [newVec] and those that are not, both in the order of [origVec]. *)
Theorem intersectAndDiff_sorted (origVec newVec : list Z) :
  StronglySorted Z.lt origVec -> StronglySorted Z.le newVec ->
  intersectAndDiff origVec newVec =
  (filter (memZ newVec) origVec, filter (fun x => negb (memZ newVec x)) origVec).
Proof.
  intros Ho Hn. unfold intersectAndDiff. destruct origVec as [|oi o']; [reflexivity|].
  destruct newVec as [|nj n'].
  - destruct (filter_memZ_nil (oi :: o')) as (E1 & E2). rewrite E1, E2. reflexivity.
  - apply (intersectAndDiff_loop_sorted (oi :: o') (nj :: n') [] [] Ho Hn).
Qed.

Lemma intersectAndDiff_sorted_witness :
  intersectAndDiff [1; 3; 4; 8]%Z [3; 3; 5; 8; 9]%Z =
  (filter (memZ [3; 3; 5; 8; 9]%Z) [1; 3; 4; 8]%Z,
   filter (fun x => negb (memZ [3; 3; 5; 8; 9]%Z x)) [1; 3; 4; 8]%Z).
Proof.
  apply intersectAndDiff_sorted;
    repeat (constructor; try lia).
Defined.

Lemma intersectAndDiff_loop_self (o intVec diffVec : list Z) :
  intersectAndDiff_loop o o intVec diffVec = (intVec ++ o, diffVec).
Proof.
  revert intVec diffVec. induction o as [|oi o' IH]; intros intVec diffVec.
  - simpl. rewrite app_nil_r. reflexivity.
  - simpl. rewrite Z.ltb_irrefl, Z.eqb_refl, IH, <- app_assoc. reflexivity.
Qed.

(** X6.  A vector compared with itself is its own intersection and leaves an
    empty difference, whatever its order and its repetitions. *)
Theorem intersectAndDiff_self (origVec : list Z) :
  intersectAndDiff origVec origVec = (origVec, []).
Proof.
  destruct origVec as [|oi o']; [reflexivity|].
  apply (intersectAndDiff_loop_self (oi :: o') [] []).
Qed.

(** ** selectInd and selectIndM *)

Lemma upd_app_length {A : Type} (pre : list A) (x v : A) (rest : list A) :
  upd (length pre) v (pre ++ x :: rest) = pre ++ v :: rest.
Proof.
  induction pre as [|p pre IH]; simpl; [reflexivity|]. now rewrite IH.
Qed.

(** A loop that rewrites position [j] from its own content, for each [j] in
    turn, rewrites every position independently. *)
Lemma fold_upd_seq {A : Type} (h : nat -> A -> A) (d : A) (rest pre : list A) :
  fold_left (fun acc j => upd j (h j (nth j acc d)) acc)
            (seq (length pre) (length rest)) (pre ++ rest) =
  pre ++ map (fun p => h (fst p) (snd p)) (combine (seq (length pre) (length rest)) rest).
Proof.
  revert pre. induction rest as [|x rest IH]; intro pre; simpl.
  - reflexivity.
  - rewrite nth_middle, upd_app_length.
    specialize (IH (pre ++ [h (length pre) x])).
    rewrite length_app, Nat.add_1_r, <- app_assoc in IH. simpl in IH.
    rewrite IH, <- app_assoc. reflexivity.
Qed.

Lemma map_combine_fst {A B C : Type} (f : A -> C) (l : list A) (r : list B) :
  length r = length l -> map (fun p => f (fst p)) (combine l r) = map f l.
Proof.
  revert r. induction l as [|a l IH]; intros [|b r] H; simpl in *;
    try discriminate; try reflexivity.
  f_equal. apply IH. lia.
Qed.

Lemma fold_upd_const {A : Type} (f : nat -> A) (l : list A) :
  fold_left (fun acc j => upd j (f j) acc) (seq 0 (length l)) l =
  map f (seq 0 (length l)).
Proof.
  destruct l as [|d l']; [reflexivity|]. set (l := d :: l').
  pose proof (fold_upd_seq (fun j _ => f j) d l []) as H. simpl in H.
  etransitivity; [exact H|].
  apply (map_combine_fst f (seq 0 (length l)) l). now rewrite length_seq.
Qed.

Lemma map_nth_seq {A B : Type} (g : A -> B) (d : A) (l : list A) :
  map (fun i => g (nth i l d)) (seq 0 (length l)) = map g l.
Proof.
  induction l as [|x l IH]; simpl; [reflexivity|].
  f_equal. rewrite <- seq_shift, map_map. exact IH.
Qed.

Lemma selectInd_map (original : vec) (indices : list Z) :
  selectInd original indices = map (vgetZ original) indices.
Proof.
  unfold selectInd.
  pose proof (fold_upd_const (fun i => vgetZ original (nth i indices 0%Z))
                (vzero (length indices))) as H.
  unfold vzero in H at 1 3. rewrite repeat_length in H.
  etransitivity; [exact H|]. apply map_nth_seq.
Qed.

Lemma vgetZ_of_nat (v : vec) (i : nat) : vgetZ v (Z.of_nat i) = vget v i.
Proof.
  unfold vgetZ. destruct (Z.ltb_spec (Z.of_nat i) 0); [lia|].
  now rewrite Nat2Z.id.
Qed.

(** X7.  With indices inside [original], [selectInd] returns the entries of
    [original] at the indices, in the order of the indices, one for each
    index (repeated indices repeat the entry); selecting all the indices in
    order gives the vector back. *)
Theorem selectInd_entries (original : vec) (indices : list Z) :
  Forall (fun k => (0 <= k < Z.of_nat (length original))%Z) indices ->
  selectInd original indices = map (fun k => nth (Z.to_nat k) original 0) indices
  /\ length (selectInd original indices) = length indices
  /\ selectInd original (map Z.of_nat (seq 0 (length original))) = original.
Proof.
  intro Hin. rewrite !selectInd_map. split; [|split].
  - apply map_ext_in. intros k Hk. rewrite Forall_forall in Hin.
    specialize (Hin k Hk). unfold vgetZ, vget.
    destruct (Z.ltb_spec k 0); [lia|reflexivity].
  - apply length_map.
  - rewrite map_map.
    rewrite (map_ext _ (fun i => nth i original 0)) by (intro; apply vgetZ_of_nat).
    etransitivity; [exact (map_nth_seq (fun x => x) 0 original)|apply map_id].
Qed.

Lemma selectInd_entries_witness :
  selectInd [10; 20; 30] [2; 0; 2]%Z = [30; 10; 30].
Proof.
  refine (proj1 (selectInd_entries [10; 20; 30] [2; 0; 2]%Z _)).
  repeat constructor; lia.
Defined.

Lemma combine_map_combine {A B : Type} (g : A -> B -> B) (l : list A) (s : list B) :
  combine l (map (fun p => g (fst p) (snd p)) (combine l s)) =
  map (fun p => (fst p, g (fst p) (snd p))) (combine l s).
Proof.
  revert s. induction l as [|a l IH]; intros [|x s]; simpl; try reflexivity.
  now rewrite IH.
Qed.

Lemma map_snd_combine {A B : Type} (l : list A) (s : list B) :
  length l = length s -> map (fun p => snd p) (combine l s) = s.
Proof.
  revert s. induction l as [|a l IH]; intros [|x s] H; simpl in *;
    try discriminate; try reflexivity.
  f_equal. apply IH. lia.
Qed.

Lemma map_combine_repeat {A B C : Type} (g : A -> B -> C) (x : B) (l : list A) :
  map (fun p => g (fst p) (snd p)) (combine l (repeat x (length l))) =
  map (fun j => g j x) l.
Proof.
  induction l as [|a l IH]; simpl; [reflexivity|]. now rewrite IH.
Qed.

(** The inner loop of [selectIndM] rewrites each column from its own content. *)
Lemma columns_loop (h : nat -> vec -> vec) (s : mat) :
  fold_left (fun submat j => upd j (h j (col submat j)) submat)
            (seq 0 (length s)) s =
  map (fun p => h (fst p) (snd p)) (combine (seq 0 (length s)) s).
Proof.
  exact (fold_upd_seq h [] s []).
Qed.

(** The two nested loops: column by column, the rows in turn. *)
Lemma rows_loop (G : nat -> nat -> vec -> vec) (li : list nat) (c : nat) (s : mat) :
  length s = c ->
  fold_left
    (fun submat i =>
       fold_left (fun submat j => upd j (G i j (col submat j)) submat)
                 (seq 0 c) submat)
    li s =
  map (fun p => fold_left (fun cl i => G i (fst p) cl) li (snd p))
      (combine (seq 0 c) s).
Proof.
  revert s. induction li as [|i li IH]; intros s Hs.
  - simpl. symmetry. apply map_snd_combine. now rewrite length_seq.
  - cbn [fold_left]. subst c. rewrite (columns_loop (G i) s).
    rewrite IH by (now rewrite length_map, length_combine, length_seq, Nat.min_id).
    rewrite (combine_map_combine (G i)), map_map. reflexivity.
Qed.

Lemma selectIndM_map (original : mat) (indices : list Z) :
  selectIndM original indices = map (fun c => selectInd c indices) original.
Proof.
  unfold selectIndM. cbv zeta.
  etransitivity.
  { apply (rows_loop
             (fun i j cl => upd i (vgetZ (col original j) (nth i indices 0%Z)) cl)
             (seq 0 (length indices)) (length original)
             (mzero (length indices) (length original))).
    apply repeat_length. }
  unfold mzero.
  pose proof (map_combine_repeat
                (fun j (cl : vec) =>
                   fold_left
                     (fun cl i => upd i (vgetZ (col original j) (nth i indices 0%Z)) cl)
                     (seq 0 (length indices)) cl)
                (vzero (length indices)) (seq 0 (length original))) as H.
  rewrite length_seq in H. etransitivity; [exact H|].
  exact (map_nth_seq (fun c => selectInd c indices) [] original).
Qed.

Lemma vget_vscale (x : double) (c : vec) (i : nat) :
  vget (vscale x c) i == x * vget c i.
Proof.
  unfold vget. revert i. induction c as [|y c IH]; intros [|i]; simpl;
    try ring. apply IH.
Qed.

Lemma vget_selectInd (w : vec) (indices : list Z) (i : nat) :
  vget (selectInd w indices) i =
  if (i <? length indices)%nat then vgetZ w (nth i indices 0%Z) else 0.
Proof.
  rewrite selectInd_map. unfold vget. destruct (Nat.ltb_spec i (length indices)).
  - rewrite (nth_indep _ 0 (vgetZ w 0%Z)) by (now rewrite length_map).
    apply map_nth.
  - apply nth_overflow. now rewrite length_map.
Qed.

Lemma selectInd_linear (x : double) (a c : vec) (indices : list Z) (i : nat) :
  vget (selectInd (vadd (vscale x a) c) indices) i ==
  x * vget (selectInd a indices) i + vget (selectInd c indices) i.
Proof.
  rewrite !vget_selectInd. destruct (i <? length indices)%nat; [|ring].
  unfold vgetZ. destruct (nth i indices 0 <? 0)%Z; [ring|].
  rewrite vget_vadd, vget_vscale. reflexivity.
Qed.

(** X8.  On a matrix whose columns have [n] rows, with indices inside
    [0, n), [selectIndM] returns, column by column, what [selectInd] returns
    on the column; and taking the rows of a product [M * v] at the indices is
    the same as multiplying the selected rows of [M] by [v]. *)
Theorem selectIndM_columns (original : mat) (indices : list Z) (n : nat) (v : vec) :
  Forall (fun c => length c = n) original ->
  Forall (fun k => (0 <= k < Z.of_nat n)%Z) indices ->
  selectIndM original indices = map (fun c => selectInd c indices) original
  /\ veq (mat_vec (selectIndM original indices) v)
         (selectInd (mat_vec original v) indices).
Proof.
  intros _ _. split; [apply selectIndM_map|].
  rewrite selectIndM_map. intro i. revert v.
  induction original as [|c M IH]; intros v.
  - simpl. rewrite vget_selectInd, vget_nil. unfold vgetZ.
    destruct (i <? length indices)%nat; [|reflexivity].
    destruct (nth i indices 0 <? 0)%Z; [reflexivity|]. now rewrite vget_nil.
  - destruct v as [|x v'].
    + simpl. rewrite vget_selectInd, vget_nil. unfold vgetZ.
      destruct (i <? length indices)%nat; [|reflexivity].
      destruct (nth i indices 0 <? 0)%Z; [reflexivity|]. now rewrite vget_nil.
    + cbn [map mat_vec]. rewrite vget_vadd, vget_vscale, IH, selectInd_linear.
      reflexivity.
Qed.

Lemma selectIndM_columns_witness :
  selectIndM [[1; 2; 3]; [4; 5; 6]] [2; 0]%Z = [[3; 1]; [6; 4]]
  /\ veq (mat_vec [[3; 1]; [6; 4]] [1; 10]) (selectInd [41; 52; 63] [2; 0]%Z).
Proof.
  refine (selectIndM_columns [[1; 2; 3]; [4; 5; 6]] [2; 0]%Z 3 [1; 10] _ _);
    repeat constructor; lia.
Defined.

(** * Further properties of tdlmm_Cpp.cpp *)

(** ** The set-up of the zero-inflated model *)

Lemma zeroSplit_fold (Y0 : vec) (l : list nat) (a c : list Z) (w : vec) :
  fold_left
    (fun (st : list Z * list Z * vec) j =>
       let '(yZeroIdx, NBidx, w) := st in
       if Qeq_bool (vget Y0 j) 0
       then (yZeroIdx ++ [Z.of_nat j], NBidx, upd j (1 # 2) w)
       else (yZeroIdx, NBidx ++ [Z.of_nat j], upd j 0 w))
    l (a, c, w) =
  (a ++ map Z.of_nat (filter (fun j => Qeq_bool (vget Y0 j) 0) l),
   c ++ map Z.of_nat (filter (fun j => negb (Qeq_bool (vget Y0 j) 0)) l),
   fold_left (fun w j => upd j (if Qeq_bool (vget Y0 j) 0 then 1 # 2 else 0) w) l w).
Proof.
  revert a c w. induction l as [|j l IH]; intros a c w.
  - simpl. rewrite !app_nil_r. reflexivity.
  - cbn [fold_left filter]. destruct (Qeq_bool (vget Y0 j) 0); rewrite IH; simpl;
      rewrite <- app_assoc; reflexivity.
Qed.

Lemma map_filter_swap {A B : Type} (f : B -> bool) (g : A -> B) (l : list A) :
  filter f (map g l) = map g (filter (fun a => f (g a)) l).
Proof.
  induction l as [|a l IH]; simpl; [reflexivity|].
  destruct (f (g a)); simpl; now rewrite IH.
Qed.

(** X9.  The set-up loop of the zero-inflated model puts every observation
    index in exactly one of the two lists, in increasing order: [yZeroIdx]
    holds the indices of the outcomes equal to 0 and [NBidx] the others;
    [w] is 1/2 at the first and 0 at the second.  The outcomes that
    [selectInd] picks with [NBidx] are the non-zero outcomes, in their
    order. *)
Theorem zeroSplit_spec (Y0 : vec) :
  zeroSplit Y0 =
  (map Z.of_nat (filter (fun j => Qeq_bool (vget Y0 j) 0) (seq 0 (length Y0))),
   map Z.of_nat (filter (fun j => negb (Qeq_bool (vget Y0 j) 0)) (seq 0 (length Y0))),
   map (fun y => if Qeq_bool y 0 then 1 # 2 else 0) Y0)
  /\ selectInd Y0 (snd (fst (zeroSplit Y0))) =
     filter (fun y => negb (Qeq_bool y 0)) Y0.
Proof.
  assert (H : zeroSplit Y0 =
    (map Z.of_nat (filter (fun j => Qeq_bool (vget Y0 j) 0) (seq 0 (length Y0))),
     map Z.of_nat (filter (fun j => negb (Qeq_bool (vget Y0 j) 0)) (seq 0 (length Y0))),
     map (fun y => if Qeq_bool y 0 then 1 # 2 else 0) Y0)).
  { unfold zeroSplit. rewrite zeroSplit_fold. simpl. f_equal.
    pose proof (fold_upd_const
                  (fun j => if Qeq_bool (vget Y0 j) 0 then 1 # 2 else 0)
                  (vzero (length Y0))) as Hw.
    unfold vzero in Hw at 1 3. rewrite repeat_length in Hw.
    etransitivity; [exact Hw|].
    exact (map_nth_seq (fun y => if Qeq_bool y 0 then 1 # 2 else 0) 0 Y0). }
  split; [exact H|]. rewrite H. simpl. rewrite selectInd_map, map_map.
  rewrite (map_ext _ (fun i => vget Y0 i)) by (intro; apply vgetZ_of_nat).
  rewrite <- (map_filter_swap (fun y => negb (Qeq_bool y 0)) (fun i => vget Y0 i)).
  f_equal. etransitivity; [exact (map_nth_seq (fun x => x) 0 Y0)|apply map_id].
Qed.

(** ** The numbering of the exposure pairs *)

Lemma pairs_inner (keep : nat -> bool) (i : nat) (l : list nat)
    (acc : list (nat * nat)) :
  fold_left (fun acc j => if keep j then acc ++ [(j, i)] else acc) l acc =
  acc ++ map (fun j => (j, i)) (filter keep l).
Proof.
  revert acc. induction l as [|j l IH]; intro acc; simpl.
  - now rewrite app_nil_r.
  - rewrite IH. destruct (keep j); simpl; [now rewrite <- app_assoc|reflexivity].
Qed.

Lemma pairs_outer (keep : nat -> nat -> bool) (row : nat -> list nat) (l : list nat)
    (acc : list (nat * nat)) :
  fold_left
    (fun acc i => fold_left (fun acc j => if keep i j then acc ++ [(j, i)] else acc)
                            (row i) acc)
    l acc =
  acc ++ flat_map (fun i => map (fun j => (j, i)) (filter (keep i) (row i))) l.
Proof.
  revert acc. induction l as [|i l IH]; intro acc; simpl.
  - now rewrite app_nil_r.
  - rewrite IH, pairs_inner, <- app_assoc. reflexivity.
Qed.

(** The pairs kept in row [i]: all of [i .. n - 1] with self-pairs, and all
    but [i] itself without. *)
Lemma row_count (two : bool) (i k : nat) :
  length (filter (fun j => (i <? j)%nat || two) (seq i (S k))) =
  (if two then S k else k).
Proof.
  cbn [seq filter]. rewrite Nat.ltb_irrefl. simpl.
  assert (H : filter (fun j => (i <? j)%nat || two) (seq (S i) k) = seq (S i) k).
  { apply forallb_filter_id. apply forallb_forall. intros j Hj.
    apply in_seq in Hj. destruct (Nat.ltb_spec i j); [reflexivity|lia]. }
  rewrite H. destruct two; simpl; now rewrite length_seq.
Qed.

Lemma pairs_count (two : bool) (k a : nat) :
  (2 * length (flat_map
                 (fun i => map (fun j => (j, i))
                               (filter (fun j => (i <? j)%nat || two)
                                       (seq i (a + k - i))))
                 (seq a k)) =
   k * (k - 1) + (if two then 2 * k else 0))%nat.
Proof.
  revert a. induction k as [|k IH]; intro a.
  - simpl. destruct two; reflexivity.
  - cbn [seq flat_map]. rewrite length_app, length_map.
    replace (a + S k - a)%nat with (S k) by lia. rewrite row_count.
    specialize (IH (S a)). replace (S a + k)%nat with (a + S k)%nat in IH by lia.
    destruct two; nia.
Qed.

Lemma Qtrunc_inject_Z (x : double) (z : Z) : x == inject_Z z -> Qtrunc x = z.
Proof.
  intro H. unfold Qtrunc. destruct (Qltb x 0) eqn:E.
  - rewrite H. apply Qceiling_Z.
  - rewrite H. apply Qfloor_Z.
Qed.

Lemma mixPairs_nMixOf (nExp0 : nat) (interaction0 : Z) :
  Z.of_nat (length (mixPairs nExp0 interaction0)) = nMixOf nExp0 interaction0
  /\ Forall (fun p => (snd p <= fst p < nExp0)%nat) (mixPairs nExp0 interaction0).
Proof.
  unfold mixPairs, nMixOf. destruct (interaction0 =? 0)%Z; simpl;
    [split; [reflexivity|constructor]|].
  rewrite (pairs_outer (fun i j => (i <? j)%nat || (interaction0 =? 2)%Z)
             (fun i => seq i (nExp0 - i))). simpl. split.
  - pose proof (pairs_count (interaction0 =? 2)%Z nExp0 0) as H. simpl in H.
    set (L := length _) in *.
    assert (He : exists h, (Z.of_nat nExp0 * (Z.of_nat nExp0 - 1) = 2 * h)%Z).
    { destruct (Z.Even_or_Odd (Z.of_nat nExp0)) as [[h Hh]|[h Hh]].
      - exists (h * (Z.of_nat nExp0 - 1))%Z. lia.
      - exists (Z.of_nat nExp0 * h)%Z. lia. }
    destruct He as (h & Hh).
    assert (Hp : Qtrunc (Qnat nExp0 * (Qnat nExp0 - 1) / 2) = h).
    { apply Qtrunc_inject_Z. unfold Qnat.
      assert (Hq : inject_Z (Z.of_nat nExp0) * (inject_Z (Z.of_nat nExp0) - 1)
                   == inject_Z (2 * h)).
      { rewrite <- Hh. rewrite inject_Z_mult. unfold Zminus.
        rewrite inject_Z_plus. simpl. ring. }
      rewrite Hq, inject_Z_mult. field. }
    rewrite Hp. destruct nExp0 as [|m];
      [subst L; simpl; destruct (interaction0 =? 2)%Z; lia|].
    replace (S m - 1)%nat with m in H by lia.
    destruct (interaction0 =? 2)%Z; nia.
  - apply Forall_forall. intros [j i] Hin. apply in_flat_map in Hin.
    destruct Hin as (i' & Hi' & Hin). apply in_map_iff in Hin.
    destruct Hin as (j' & E & Hj'). injection E as <- <-.
    apply filter_In in Hj'. destruct Hj' as (Hj' & _).
    apply in_seq in Hi'. apply in_seq in Hj'. simpl. lia.
Qed.

(** X10.  The loops that number the exposure pairs for the record visit
    exactly [nMix] pairs, the number that the set-up computes, for every
    number of exposures and every value of [interaction]: the counter [k]
    ends at [nMix]; each pair [(j, i)] they visit has [i <= j < nExp].  With
    [interaction > 0] the matrices that record the pairs have [nMix] rows, so
    that [k] numbers exactly their rows; with [interaction = 0] they have
    one row and no pair is visited. *)
Theorem mixPairs_count (nExp0 : nat) (interaction0 : Z) :
  Z.of_nat (length (mixPairs nExp0 interaction0)) = nMixOf nExp0 interaction0
  /\ Forall (fun p => (snd p <= fst p < nExp0)%nat) (mixPairs nExp0 interaction0)
  /\ ((0 < interaction0)%Z ->
      Z.of_nat (length (mixPairs nExp0 interaction0)) = mixRows nExp0 interaction0)
  /\ (interaction0 = 0%Z ->
      mixPairs nExp0 interaction0 = [] /\ mixRows nExp0 interaction0 = 1%Z).
Proof.
  destruct (mixPairs_nMixOf nExp0 interaction0) as (Hn & Hr).
  split; [exact Hn|]. split; [exact Hr|]. split.
  - intro Hpos. unfold mixRows. apply Z.ltb_lt in Hpos. rewrite Hpos. exact Hn.
  - intros ->. split; reflexivity.
Qed.

(** ** Positive variances *)

Lemma Qinv_pos (x : double) : 0 < x -> 0 < 1 / x.
Proof.
  intro H. apply Qlt_shift_div_l; [assumption|lra].
Qed.

(** X11.  [rHalfCauchyFC] keeps a variance positive: when the Gamma draws of
    positive shape and scale are positive, a positive [x2] with [a >= 0] and
    [b >= 0] is replaced by a positive value, and the latent value stored
    through [yInv] is positive as well. *)
Theorem rHalfCauchyFC_positive (G : Rmath) (x2 a b : double) (yInv : option double)
    (g : rng) :
  (forall shape scale g0, 0 < shape -> 0 < scale -> 0 < fst (rgamma shape scale g0)) ->
  0 < x2 -> 0 <= a -> 0 <= b ->
  exists x2' yInv' g',
    rHalfCauchyFC x2 a b yInv g = Ok (x2', yInv', g') /\ 0 < x2' /\
    forall y, yInv' = Some y -> 0 < y.
Proof.
  intros Hg Hx Ha Hb. unfold rHalfCauchyFC, bind, draw, ret.
  assert (Hs1 : 0 < x2 / (x2 + 1)) by (apply Qlt_shift_div_l; lra).
  pose proof (Hg 1 (x2 / (x2 + 1)) g ltac:(lra) Hs1) as Hy.
  destruct (rgamma 1 (x2 / (x2 + 1)) g) as [yi g1]. simpl in Hy.
  assert (Hs2 : 0 < 2 / (b + 2 * yi)) by (apply Qlt_shift_div_l; lra).
  pose proof (Hg ((1 # 2) * (a + 1)) (2 / (b + 2 * yi)) g1 ltac:(lra) Hs2) as Hd.
  destruct (rgamma ((1 # 2) * (a + 1)) (2 / (b + 2 * yi)) g1) as [gd g2].
  simpl in Hd. eexists _, _, g2. split; [reflexivity|].
  split; [now apply Qinv_pos|].
  intros y E. destruct yInv; [|discriminate]. injection E as <-. exact Hy.
Qed.

Lemma rHalfCauchyFC_positive_witness :
  exists x2' yInv' g',
    rHalfCauchyFC (G := countingRmath) 1 2 3 (Some 0) 0%nat = Ok (x2', yInv', g') /\
    0 < x2' /\ forall y, yInv' = Some y -> 0 < y.
Proof.
  apply (rHalfCauchyFC_positive countingRmath 1 2 3 (Some 0) 0%nat).
  - intros shape scale g0 _ _. apply countingRmath_rgamma_pos.
  - reflexivity.
  - discriminate.
  - discriminate.
Defined.

(** ** The interaction variance of a pair of exposures *)

Lemma mixPairs_In (nExp0 : nat) (interaction0 : Z) (j i : nat) :
  In (j, i) (mixPairs nExp0 interaction0) <->
  interaction0 <> 0%Z /\ (i <= j < nExp0)%nat /\ ((i < j)%nat \/ interaction0 = 2%Z).
Proof.
  unfold mixPairs. destruct (Z.eqb_spec interaction0 0) as [E0|E0]; simpl.
  - split; [intros []|intros (H & _); contradiction].
  - rewrite (pairs_outer (fun i j => (i <? j)%nat || (interaction0 =? 2)%Z)
               (fun i => seq i (nExp0 - i))). simpl.
    rewrite in_flat_map. split.
    + intros (i' & Hi' & Hin). apply in_map_iff in Hin.
      destruct Hin as (j' & E & Hj'). injection E as <- <-.
      apply filter_In in Hj'. destruct Hj' as (Hj' & Hk).
      apply in_seq in Hi'. apply in_seq in Hj'.
      split; [assumption|]. split; [lia|].
      apply orb_true_iff in Hk. destruct Hk as [Hk|Hk].
      * left. now apply Nat.ltb_lt.
      * right. now apply Z.eqb_eq.
    + intros (_ & Hr & Hk). exists i. split; [apply in_seq; lia|].
      apply in_map_iff. exists j. split; [reflexivity|].
      apply filter_In. split; [apply in_seq; lia|].
      apply orb_true_iff. destruct Hk as [Hk|Hk].
      * left. now apply Nat.ltb_lt.
      * right. now apply Z.eqb_eq.
Qed.

(** X12.  The interaction variance of two exposures does not depend on
    which of the two trees holds which exposure; it is 0 for a pair that has
    no interaction, and otherwise the entry of [muMix] at row
    [max a e] and column [min a e], which is one of the entries that the
    loops over the pairs visit. *)
Theorem pairMixVar_entry (F : Foreign) (c : tdlmCtr) (a e : nat) :
  (a < nExp c)%nat -> (e < nExp c)%nat ->
  pairMixVar c a e = pairMixVar c e a /\
  ((~ In (Nat.max a e, Nat.min a e) (mixPairs (nExp c) (interaction c)) /\
    pairMixVar c a e = 0) \/
   (In (Nat.max a e, Nat.min a e) (mixPairs (nExp c) (interaction c)) /\
    pairMixVar c a e = mget (muMix c) (Nat.max a e) (Nat.min a e))).
Proof.
  intros Ha He. unfold pairMixVar. rewrite mixPairs_In. split.
  - destruct (Nat.eq_dec a e) as [->|Hne]; [reflexivity|].
    rewrite (proj2 (Nat.eqb_neq a e) Hne).
    rewrite (proj2 (Nat.eqb_neq e a)) by (intro; apply Hne; congruence).
    destruct (Nat.leb_spec a e), (Nat.leb_spec e a); try reflexivity; lia.
  - destruct (Z.eqb_spec (interaction c) 0) as [E0|E0]; simpl.
    { left. split; [intros (H & _); contradiction|reflexivity]. }
    destruct (Z.eqb_spec (interaction c) 2) as [E2|E2]; simpl.
    + right. split; [split; [assumption|split; [lia|right; assumption]]|].
      destruct (Nat.leb_spec a e).
      * rewrite Nat.max_r, Nat.min_l by lia. reflexivity.
      * rewrite Nat.max_l, Nat.min_r by lia. reflexivity.
    + destruct (Nat.eqb_spec a e) as [->|Hne]; simpl.
      * left. split; [|reflexivity]. intros (_ & _ & [H|H]); [lia|contradiction].
      * right. split; [split; [assumption|split; [lia|left; lia]]|].
        destruct (Nat.leb_spec a e).
        -- rewrite Nat.max_r, Nat.min_l by lia. reflexivity.
        -- rewrite Nat.max_l, Nat.min_r by lia. reflexivity.
Qed.

Lemma pairMixVar_entry_witness :
  pairMixVar pairCtr 0 1 = pairMixVar pairCtr 1 0 /\
  In (1%nat, 0%nat) (mixPairs 2 1) /\
  pairMixVar pairCtr 0 1 = 6.
Proof.
  destruct (pairMixVar_entry leafForeign pairCtr 0 1) as (Hsym & Hcase).
  - simpl. lia.
  - simpl. lia.
  - split; [exact Hsym|]. destruct Hcase as [(_ & H0)|(Hin & Hv)].
    + vm_compute in H0. discriminate H0.
    + split; [exact Hin|exact Hv].
Defined.

(** ** The record index of an iteration *)

(** X13.  With a positive thinning interval, [iter >= 0] and [b] not beyond
    [iter + burn], the record index that an iteration sets is 0 or a column
    index [1 .. iter / thin] of the recorded samples; it is positive exactly
    when [b] is past the burn-in and [b - burn] is a multiple of [thin], and
    then [b = burn + record * thin], so that two iterations never record
    into the same column. *)
Theorem sweep_begin_record (F : Foreign) (c : tdlmCtr) :
  (0 < thin c)%Z -> (0 <= iter c)%Z -> (b c <= iter c + burn c)%Z ->
  let r := record (sweep_begin c) in
  (0 <= r <= Z.quot (iter c) (thin c))%Z /\
  ((0 < r)%Z <-> (burn c < b c)%Z /\ Z.rem (b c - burn c) (thin c) = 0%Z) /\
  ((0 < r)%Z -> b c = (burn c + r * thin c)%Z).
Proof.
  intros Hthin Hiter Hb. simpl.
  destruct (Z.ltb_spec (burn c) (b c)) as [Hlt|Hge]; simpl.
  - destruct (Z.eqb_spec (Z.rem (b c - burn c) (thin c)) 0) as [Hr|Hr].
    + pose proof (Z.quot_rem' (b c - burn c) (thin c)) as Hq. rewrite Hr in Hq.
      assert (Hpos : (0 < Z.quot (b c - burn c) (thin c))%Z) by nia.
      split; [split; [lia|]|split; [split; [intros _; split; assumption|intros _; assumption]|]].
      * apply Z.quot_le_mono; lia.
      * intros _. lia.
    + split; [split; [lia|apply Z.quot_pos; lia]|].
      split; [split; [lia|intros (_ & H); contradiction]|lia].
  - split; [split; [lia|apply Z.quot_pos; lia]|].
    split; [split; [lia|intros (H & _); lia]|lia].
Qed.

Lemma sweep_begin_record_witness :
  (0 <= record (sweep_begin (leafCtr [0; 0; 0; 1]%Q 1 12 [[1; 1]]%Q [2; 4]%Q)) <= 10)%Z.
Proof.
  refine (proj1 (sweep_begin_record leafForeign
                   (leafCtr [0; 0; 0; 1] 1 12 [[1; 1]] [2; 4]) _ _ _)).
  - reflexivity.
  - discriminate.
  - discriminate.
Defined.

(** ** mixMHR: the blocks of the draw and the products with the fixed effects *)







(** The content of every column of the design: the column of a node of the
    first tree, of a node of the second tree, or of a pair of nodes. *)
Lemma mixMHR_design_colAt {G : Rmath} {F : Foreign} {O : ForeignOps}
    (nodes1 nodes2 : list Node) (c : tdlmCtr) (treeVar m1Var m2Var mixVar : double)
    (k : nat) :
  let p1 := length nodes1 in
  let p2 := length nodes2 in
  let d := mixMHR_design nodes1 nodes2 c treeVar m1Var m2Var mixVar in
  sized (mixMHR_pXd p1 p2 mixVar) d /\
  ((k < mixMHR_pXd p1 p2 mixVar)%nat ->
   (exists nd, In nd (nodes1 ++ nodes2) /\
               fst (colAt d k) = (X (nodevals nd), main_ZtX c nd)) \/
   (exists x, fst (colAt d k) = (x, matT_vec (Zw c) x))).
Proof.
  intros p1 p2 d. set (pXd := mixMHR_pXd p1 p2 mixVar).
  pose (st0 := {| d_Xd := mzero (n c) pXd; d_ZtX := mzero (pZ c) pXd;
                  d_diagVar := vzero pXd |}).
  pose (v1 := fun nd : Node =>
                (X (nodevals nd), main_ZtX c nd, 1 / (m1Var * treeVar))).
  pose (v2 := fun nd : Node =>
                (X (nodevals nd), main_ZtX c nd, 1 / (m2Var * treeVar))).
  pose (st1 := fill 0 v1 0 nodes1 st0).
  pose (st2 := fill p1 v2 0 nodes2 st1).
  assert (Hd : d = if negb (Qeq_bool mixVar 0)
                   then fill_mix c p1 p2 (1 / (mixVar * treeVar)) 0 nodes1 nodes2 st2
                   else st2) by reflexivity.
  assert (Hs0 : sized pXd st0) by apply sized_zero.
  assert (Hs1 : sized pXd st1) by now apply sized_fill.
  assert (Hs2 : sized pXd st2) by now apply sized_fill.
  assert (Hsd : sized pXd d).
  { rewrite Hd. destruct (negb (Qeq_bool mixVar 0)); [now apply sized_fill_mix|assumption]. }
  assert (Hle : (p1 + p2 <= pXd)%nat)
    by (unfold pXd, mixMHR_pXd; destruct (negb (Qeq_bool mixVar 0)); lia).
  assert (Hmain : forall k, (k < p1 + p2)%nat -> colAt d k = colAt st2 k).
  { intros k' Hk. rewrite Hd. destruct (negb (Qeq_bool mixVar 0)); [|reflexivity].
    apply fill_mix_other; [reflexivity|lia]. }
  assert (Hget : forall (l : list Node) i, (i < length l)%nat ->
                   exists nd, nth_error l i = Some nd).
  { intros l i Hi. destruct (nth_error l i) as [nd|] eqn:E; [now exists nd|].
    apply nth_error_None in E. lia. }
  split; [exact Hsd|]. intro Hk.
  destruct (Nat.lt_ge_cases k p1) as [H1|H1];
    [|destruct (Nat.lt_ge_cases k (p1 + p2)) as [H2|H2]].
  - left. destruct (Hget nodes1 k H1) as (nd & Hnd). exists nd.
    split; [apply in_or_app; left; eapply nth_error_In; eassumption|].
    rewrite Hmain by lia. unfold st2. rewrite fill_other by lia.
    pose proof (fill_at pXd 0 v1 nodes1 0 st0 k nd Hs0 Hnd ltac:(lia)) as E.
    change (colAt st1 k = v1 nd) in E. rewrite E. reflexivity.
  - left. destruct (Hget nodes2 (k - p1)%nat ltac:(fold p2; lia)) as (nd & Hnd).
    exists nd. split; [apply in_or_app; right; eapply nth_error_In; eassumption|].
    rewrite Hmain by lia.
    pose proof (fill_at pXd p1 v2 nodes2 0 st1 (k - p1) nd Hs1 Hnd ltac:(lia)) as E.
    replace (p1 + 0 + (k - p1))%nat with k in E by lia.
    change (colAt st2 k = v2 nd) in E. rewrite E. reflexivity.
  - right. unfold pXd, mixMHR_pXd in Hk. rewrite Hd.
    destruct (negb (Qeq_bool mixVar 0)) eqn:Hb; [|lia].
    assert (Hp2 : (0 < p2)%nat) by nia.
    set (q := (k - (p1 + p2))%nat).
    assert (Hq : q = (p2 * (q / p2) + q mod p2)%nat) by (apply Nat.div_mod; lia).
    assert (Hj : (q mod p2 < p2)%nat) by (apply Nat.mod_upper_bound; lia).
    assert (Hi : (q / p2 < p1)%nat) by (apply Nat.Div0.div_lt_upper_bound; unfold q; nia).
    destruct (Hget nodes1 (q / p2)%nat Hi) as (n1 & Hn1).
    destruct (Hget nodes2 (q mod p2)%nat Hj) as (n2 & Hn2).
    exists (vmul (X (nodevals n1)) (X (nodevals n2))).
    assert (Hk' : (p1 + p2 + (0 + q / p2) * p2 + q mod p2)%nat = k)
      by (unfold q in *; nia).
    pose proof (fill_mix_at pXd c p1 p2 (1 / (mixVar * treeVar)) nodes1 nodes2 0 st2
                  (q / p2) (q mod p2) n1 n2 Hs2 eq_refl Hn1 Hn2) as E.
    rewrite Hk' in E. rewrite E; [reflexivity|].
    unfold pXd, mixMHR_pXd. rewrite Hb. lia.
Qed.

(** X15.  The matrix [ZtX] that [mixMHR] hands to its linear algebra is the
    product of [Zw] transposed with the design, column by column: always in
    the binomial and zero-inflated models, and in the Gaussian model as soon
    as the product cached on each terminal node is that of the node's own
    design column (the columns of the pairs are computed afresh in every
    model). *)
Theorem mixMHR_design_ZtX (G : Rmath) (F : Foreign) (O : ForeignOps)
    (nodes1 nodes2 : list Node) (c : tdlmCtr) (treeVar m1Var m2Var mixVar : double) :
  (binomial c || zinb c = true \/
   Forall (fun nd => ZtX (nodevals nd) = matT_vec (Zw c) (X (nodevals nd)))
          (nodes1 ++ nodes2)) ->
  let d := mixMHR_design nodes1 nodes2 c treeVar m1Var m2Var mixVar in
  length (d_ZtX d) = length (d_Xd d) /\
  forall k, (k < length (d_Xd d))%nat ->
            col (d_ZtX d) k = matT_vec (Zw c) (col (d_Xd d) k).
Proof.
  intros Hcache d.
  destruct (mixMHR_design_colAt nodes1 nodes2 c treeVar m1Var m2Var mixVar 0)
    as ((HX & HZ & _) & _). fold d in HX, HZ.
  split; [congruence|]. intros k Hk.
  destruct (mixMHR_design_colAt nodes1 nodes2 c treeVar m1Var m2Var mixVar k)
    as (_ & Hcol). fold d in Hcol. rewrite HX in Hk.
  destruct (Hcol Hk) as [(nd & Hin & E)|(x & E)]; unfold colAt in E; simpl in E;
    injection E as -> ->; [|reflexivity].
  unfold main_ZtX. destruct Hcache as [Hb|Hall].
  - rewrite Hb. reflexivity.
  - destruct (binomial c || zinb c); [reflexivity|].
    rewrite Forall_forall in Hall. now apply Hall.
Qed.

Lemma mixMHR_design_ZtX_witness :
  col (d_ZtX (mixMHR_design (O := leafOps)
                [[1; 2]; [3; 4]] [[5; 6]] logitCtr 2 1 1 3)) 4 = [39; 63]
  /\ col (d_ZtX (mixMHR_design (O := leafOps)
                   [[1; 2]; [3; 4]] [[5; 6]] logitCtr 2 1 1 3)) 0 = [3; 5].
Proof.
  destruct (mixMHR_design_ZtX scriptedRmath leafForeign leafOps
              [[1; 2]; [3; 4]] [[5; 6]] logitCtr 2 1 1 3) as (_ & H).
  - left. reflexivity.
  - split.
    + exact (H 4%nat ltac:(simpl; lia)).
    + exact (H 0%nat ltac:(simpl; lia)).
Defined.

(** ** tdlmmTreeMCMC: the exposures of the pair and the log of the moves *)

Section TreeFacts.
Context {C : Cmath} {G : Rmath} {F : Foreign} {O : ForeignOps}.

Lemma lift_Ok {A : Type} (r : res A) (g : rng) (a : A) (g' : rng) :
  lift r g = Ok (a, g') -> r = Ok a /\ g' = g.
Proof.
  unfold lift. destruct r; [|discriminate]. intro H. injection H as <- <-. auto.
Qed.

Lemma sampleInt_Eigen_range (probs : vec) (g : rng) (i : nat) (g' : rng) :
  sampleInt_Eigen probs g = Ok (i, g') -> (i < length probs)%nat.
Proof.
  unfold sampleInt_Eigen. intro H. apply bind_Ok in H.
  destruct H as (u & g1 & _ & H). apply lift_Ok in H. destruct H as (H & _).
  now apply sampleInt_at_Ok in H.
Qed.

(** The exposure that a proposal names is the current one or an index of
    [expProb]. *)
Lemma proposeUpdate_newExp (c : tdlmCtr) (Exp : list exposureDat) (tree : Node)
    (term : list Node) (m other : nat) (mVar mixVar : double) (g : rng)
    (p : proposal) (g' : rng) :
  proposeUpdate c Exp tree term m other mVar mixVar g = Ok (p, g') ->
  p_newExp p = m \/ (p_newExp p < length (expProb c))%nat.
Proof.
  unfold proposeUpdate. intro H. apply bind_Ok in H.
  destruct H as (sampled & g1 & _ & H).
  destruct (chooseStep (length term) sampled <? 3)%nat.
  - unfold proposeStructural in H. apply bind_Ok in H.
    destruct H as (e & g2 & _ & H). apply bind_Ok in H.
    destruct H as ([stepMhr tree'] & g3 & _ & H). apply ret_Ok in H.
    injection H as -> _. left. reflexivity.
  - unfold proposeSwitch in H. apply bind_Ok in H.
    destruct H as (newExp & g2 & Hs & H). apply sampleInt_Eigen_range in Hs.
    destruct (negb (newExp =? m)%nat).
    + apply bind_Ok in H. destruct H as (newTree & g3 & _ & H).
      apply ret_Ok in H. injection H as -> _. right. exact Hs.
    + apply ret_Ok in H. injection H as -> _. right. exact Hs.
Qed.

(** The row of the first tree: what every path through the block leaves. *)
Lemma tree1_result (t : nat) (tree1 tree2 : Node) (c : tdlmCtr) (lg : tdlmLog)
    (Exp : list exposureDat) (ratio0 : double) (g : rng)
    (l : locals) (lg' : tdlmLog) (g' : rng) :
  tdlmmTreeMCMC_tree1 t tree1 tree2 c lg Exp ratio0 g = Ok (l, lg', g') ->
  (l_m1 l = nth t (tree1Exp c) 0%nat \/ (l_m1 l < length (expProb c))%nat) /\
  l_m2 l = nth t (tree2Exp c) 0%nat /\
  exists row, lg' = pushAccept c lg row /\ vget row 0 = Qnat 1 /\ length row = 7%nat.
Proof.
  unfold tdlmmTreeMCMC_tree1. intro H. apply bind_Ok in H.
  destruct H as (p & g1 & Hp & H). apply proposeUpdate_newExp in Hp.
  apply bind_Ok in H. destruct H as (mhr0 & g2 & _ & H).
  destruct (negb (p_success p =? 0)%nat).
  - apply bind_Ok in H. destruct H as (mhr & g3 & _ & H).
    destruct (cacheRtR c (matT_vec (Zw c) (R c)) (- (1)) 0) as [RtR RtZ].
    apply bind_Ok in H. destruct H as (u & g4 & _ & H).
    match type of H with (if ?b then _ else _) _ = _ => destruct b end;
      apply ret_Ok in H; injection H as -> -> _; simpl.
    + split; [destruct (p_step p =? 3)%nat; [exact Hp|left; reflexivity]|].
      split; [reflexivity|]. eexists. split; [reflexivity|]. split; reflexivity.
    + split; [left; reflexivity|]. split; [reflexivity|].
      eexists. split; [reflexivity|]. split; reflexivity.
  - destruct (p_step p <? 3)%nat; apply ret_Ok in H; injection H as -> -> _; simpl;
      (split; [left; reflexivity|]; split; [reflexivity|];
       eexists; split; [reflexivity|]; split; reflexivity).
Qed.

(** The row of the second tree. *)
Lemma tree2_result (t : nat) (c : tdlmCtr) (lg : tdlmLog)
    (Exp : list exposureDat) (l : locals) (g : rng)
    (l' : locals) (lg' : tdlmLog) (g' : rng) :
  tdlmmTreeMCMC_tree2 t c lg Exp l g = Ok (l', lg', g') ->
  l_m1 l' = l_m1 l /\
  (l_m2 l' = l_m2 l \/ (l_m2 l' < length (expProb c))%nat) /\
  exists row, lg' = pushAccept c lg row /\ vget row 0 = Qnat 2 /\ length row = 7%nat.
Proof.
  unfold tdlmmTreeMCMC_tree2. intro H. apply bind_Ok in H.
  destruct H as (p & g1 & Hp & H). apply proposeUpdate_newExp in Hp.
  destruct (negb (p_success p =? 0)%nat).
  - apply bind_Ok in H. destruct H as (mhr & g3 & _ & H).
    destruct (cacheRtR c (matT_vec (Zw c) (R c)) (l_RtR l) (l_RtZVgZtR l))
      as [RtR RtZ].
    apply bind_Ok in H. destruct H as (u & g4 & _ & H).
    match type of H with (if ?b then _ else _) _ = _ => destruct b end;
      apply ret_Ok in H; injection H as -> -> _; simpl.
    + split; [reflexivity|].
      split; [destruct (p_step p =? 3)%nat; [exact Hp|left; reflexivity]|].
      eexists. split; [reflexivity|]. split; reflexivity.
    + split; [reflexivity|]. split; [left; reflexivity|].
      eexists. split; [reflexivity|]. split; reflexivity.
  - destruct (p_step p <? 3)%nat; apply ret_Ok in H; injection H as -> -> _; simpl;
      (split; [reflexivity|]; split; [left; reflexivity|];
       eexists; split; [reflexivity|]; split; reflexivity).
Qed.

End TreeFacts.

Lemma foldM_inv {G : Rmath} {A B : Type} (P : B -> Prop) (f : B -> A -> M B)
    (l : list A) (b0 : B) (g : rng) (b' : B) (g' : rng) :
  (forall st x g0 st' g1, P st -> f st x g0 = Ok (st', g1) -> P st') ->
  P b0 -> foldM f l b0 g = Ok (b', g') -> P b'.
Proof.
  intro Hf. revert b0 g. induction l as [|x l IH]; intros b0 g H0 H; simpl in H.
  - apply ret_Ok in H. injection H as -> _. exact H0.
  - apply bind_Ok in H. destruct H as (b1 & g1 & H1 & H).
    eapply IH; [|exact H]. eapply Hf; eassumption.
Qed.

Section LogFacts.
Context {C : Cmath} {G : Rmath} {F : Foreign} {O : ForeignOps}.

Lemma pushAccept_keeps (c : tdlmCtr) (lg : tdlmLog) (row : vec) :
  TreeAccept (pushAccept c lg row) =
    TreeAccept lg ++ (if diagnostics c then [row] else []) /\
  DLMexp (pushAccept c lg row) = DLMexp lg /\
  MIXexp (pushAccept c lg row) = MIXexp lg.
Proof.
  unfold pushAccept. destruct (diagnostics c); simpl;
    [|rewrite app_nil_r]; auto.
Qed.

(** The record block never writes [TreeAccept], and writes nothing at all in
    an iteration that is not recorded. *)
Lemma record_keeps (t : nat) (c : tdlmCtr) (l : locals) (lg : tdlmLog) (g : rng)
    (lg' : tdlmLog) (g' : rng) :
  tdlmmTreeMCMC_record t c l lg g = Ok (lg', g') ->
  TreeAccept lg' = TreeAccept lg /\ ((record c <= 0)%Z -> lg' = lg).
Proof.
  unfold tdlmmTreeMCMC_record. destruct (Z.ltb_spec 0 (record c)) as [Hr|Hr]; intro H.
  - split; [|lia]. apply bind_Ok in H. destruct H as ([lg1 k] & g1 & H & Hret).
    apply ret_Ok in Hret. injection Hret as -> _.
    change (TreeAccept (fst (lg1, k)) = TreeAccept lg).
    refine (foldM_inv (fun st : tdlmLog * nat => TreeAccept (fst st) = TreeAccept lg)
              _ _ (lg, 0%nat) _ _ _ _ eq_refl H).
    clear. intros st i g0 st' g1 Hst Hi.
    apply bind_Ok in Hi. destruct Hi as (n1 & g2 & _ & Hi).
    revert Hi.
    apply (foldM_inv (fun st : tdlmLog * nat => TreeAccept (fst st) = TreeAccept lg));
      [|exact Hst].
    clear. intros st j g0 st' g1 Hst Hj.
    apply bind_Ok in Hj. destruct Hj as (st1 & g2 & H1 & Hj).
    assert (Hst1 : TreeAccept (fst st1) = TreeAccept lg).
    { destruct (i =? 0)%nat.
      - apply bind_Ok in H1. destruct H1 as (n2 & g3 & _ & H1).
        apply ret_Ok in H1. injection H1 as -> _. exact Hst.
      - apply ret_Ok in H1. injection H1 as -> _. exact Hst. }
    destruct (negb (Qeq_bool (l_mixVar l) 0)).
    + apply bind_Ok in Hj. destruct Hj as (n2 & g3 & _ & Hj).
      apply ret_Ok in Hj. injection Hj as -> _. exact Hst1.
    + apply ret_Ok in Hj. injection Hj as -> _. exact Hst1.
  - apply ret_Ok in H. injection H as -> _. split; [reflexivity|reflexivity].
Qed.

(** The writes of the update block to the bookkeeping of the exposures. *)
Lemma update_fields (t : nat) (c : tdlmCtr) (l : locals) (g : rng)
    (c' : tdlmCtr) (g' : rng) :
  tdlmmTreeMCMC_update t c l g = Ok (c', g') ->
  record c' = record c /\ expProb c' = expProb c /\
  expCount c' = vaddat (l_m2 l) 1 (vaddat (l_m1 l) 1 (expCount c)) /\
  tree1Exp c' = upd t (l_m1 l) (tree1Exp c) /\
  tree2Exp c' = upd t (l_m2 l) (tree2Exp c).
Proof.
  unfold tdlmmTreeMCMC_update. intro H.
  apply bind_Ok in H. destruct H as (tau' & g1 & _ & H).
  apply ret_Ok in H. injection H as -> _. simpl. auto.
Qed.

End LogFacts.

(** X16.  Every call of [tdlmmTreeMCMC] that returns has added exactly two
    rows to [TreeAccept] when diagnostics are on, one for each tree of the
    pair and tagged 1 and 2 in this order, whatever moves were proposed and
    whether they were accepted; it adds none when diagnostics are off, and
    leaves the records of the terminal nodes and of their pairs as they were
    in an iteration that is not recorded. *)
Theorem tdlmmTreeMCMC_log (C : Cmath) (G : Rmath) (F : Foreign) (O : ForeignOps)
    (t : nat) (tree1 tree2 : Node) (c : tdlmCtr) (lg : tdlmLog)
    (Exp : list exposureDat) (ratio0 : double) (g : rng)
    (tree1' tree2' : Node) (c' : tdlmCtr) (lg' : tdlmLog) (g' : rng) :
  tdlmmTreeMCMC t tree1 tree2 c lg Exp ratio0 g = Ok (tree1', tree2', c', lg', g') ->
  (exists row1 row2,
      vget row1 0 == 1 /\ vget row2 0 == 2 /\
      length row1 = 7%nat /\ length row2 = 7%nat /\
      TreeAccept lg' = TreeAccept lg ++ (if diagnostics c then [row1; row2] else []))
  /\ ((record c <= 0)%Z -> DLMexp lg' = DLMexp lg /\ MIXexp lg' = MIXexp lg).
Proof.
  unfold tdlmmTreeMCMC. intro H.
  apply bind_Ok in H. destruct H as ([l1 lg1] & g1 & H1 & H).
  apply bind_Ok in H. destruct H as ([l2 lg2] & g2 & H2 & H).
  apply bind_Ok in H. destruct H as (c1 & g3 & Hu & H).
  apply bind_Ok in H. destruct H as (lg3 & g4 & Hrec & H).
  apply ret_Ok in H. injection H as _ _ -> -> _.
  apply tree1_result in H1. destruct H1 as (_ & _ & row1 & -> & Hr1 & Hl1).
  apply tree2_result in H2. destruct H2 as (_ & _ & row2 & -> & Hr2 & Hl2).
  apply update_fields in Hu. destruct Hu as (Hrc & _).
  apply record_keeps in Hrec. destruct Hrec as (HT & Hsame).
  destruct (pushAccept_keeps c lg row1) as (A1 & D1 & M1).
  destruct (pushAccept_keeps c (pushAccept c lg row1) row2) as (A2 & D2 & M2).
  split.
  - exists row1, row2. rewrite Hr1, Hr2.
    split; [reflexivity|]. split; [reflexivity|].
    split; [exact Hl1|]. split; [exact Hl2|].
    rewrite HT, A2, A1, <- app_assoc. destruct (diagnostics c); reflexivity.
  - intro Hr. rewrite Hsame by (rewrite Hrc; exact Hr).
    split; congruence.
Qed.

Lemma tdlmmTreeMCMC_log_witness :
  exists t1 t2 c' lg' g' row1 row2,
    leafRun 7 = Ok (t1, t2, c', lg', g') /\
    vget row1 0 == 1 /\ vget row2 0 == 2 /\ TreeAccept lg' = [row1; row2].
Proof.
  destruct (leafRun 7) as [[[[[t1 t2] c'] lg'] g']|e] eqn:E.
  - destruct (tdlmmTreeMCMC_log exampleCmath scriptedRmath leafForeign leafOps
                _ _ _ _ _ _ _ _ _ _ _ _ _ E)
      as ((row1 & row2 & H1 & H2 & _ & _ & HT) & _).
    exists t1, t2, c', lg', g', row1, row2.
    split; [reflexivity|]. split; [exact H1|]. split; [exact H2|exact HT].
  - vm_compute in E. discriminate.
Defined.

(** ** The counts of the exposures over the loop of the tree pairs *)





Section CountFacts.
Context {C : Cmath} {G : Rmath} {F : Foreign} {O : ForeignOps}.




End CountFacts.




(** ** The variances of the exposure pairs *)

Lemma foldM_inv_In {G : Rmath} {A B : Type} (P : B -> Prop) (f : B -> A -> M B)
    (l : list A) (b0 : B) (g : rng) (b' : B) (g' : rng) :
  (forall st x g0 st' g1, In x l -> P st -> f st x g0 = Ok (st', g1) -> P st') ->
  P b0 -> foldM f l b0 g = Ok (b', g') -> P b'.
Proof.
  revert b0 g. induction l as [|x l IH]; intros b0 g Hf H0 H; simpl in H.
  - apply ret_Ok in H. injection H as -> _. exact H0.
  - apply bind_Ok in H. destruct H as (b1 & g1 & H1 & H).
    eapply IH; [|eapply Hf; [left; reflexivity|exact H0|exact H1]|exact H].
    intros st y g0 st' g2 Hy. apply Hf. right. exact Hy.
Qed.

Lemma mget_mset_other (r c0 : nat) (x : double) (A : mat) (r' c' : nat) :
  (r', c') <> (r, c0) -> mget (mset r c0 x A) r' c' = mget A r' c'.
Proof.
  intro Hne. unfold mget, mset, col.
  destruct (Nat.eq_dec c' c0) as [->|Hc]; [|now rewrite nth_upd_neq].
  destruct (Nat.lt_ge_cases c0 (length A)) as [Hlt|Hge].
  - rewrite nth_upd_eq by assumption. unfold vget. apply nth_upd_neq.
    intros ->. apply Hne. reflexivity.
  - rewrite !(nth_overflow _ _ Hge).
    rewrite nth_overflow by (now rewrite length_upd). reflexivity.
Qed.

Lemma length_mset (r c0 : nat) (x : double) (A : mat) :
  length (mset r c0 x A) = length A.
Proof.
  unfold mset. apply length_upd.
Qed.

(** X18.  The loop that redraws the variances of the exposures and of their
    pairs keeps the sizes of [muExp] and [muMix], and of [muMix] it writes
    only the entries of the pairs that the numbering of the pairs visits: no
    entry above the diagonal, no diagonal entry unless [interaction] is 2,
    and none at all without interactions. *)
Theorem shrinkExposures_frame (G : Rmath) (F : Foreign) (c : tdlmCtr)
    (sigmanu : double) (g : rng) (mu' : vec) (mm' : mat) (g' : rng) :
  shrinkExposures c sigmanu g = Ok (mu', mm', g') ->
  length mu' = length (muExp c) /\ length mm' = length (muMix c) /\
  (forall j i, ~ In (j, i) (mixPairs (nExp c) (interaction c)) ->
               mget mm' j i = mget (muMix c) j i) /\
  (forall j i, (j < i)%nat -> mget mm' j i = mget (muMix c) j i).
Proof.
  intro H.
  set (P := fun st : vec * mat =>
              length (fst st) = length (muExp c) /\
              length (snd st) = length (muMix c) /\
              forall j i, ~ In (j, i) (mixPairs (nExp c) (interaction c)) ->
                          mget (snd st) j i = mget (muMix c) j i).
  assert (HP : P (mu', mm')).
  { unfold shrinkExposures in H. revert H.
    apply (foldM_inv_In P); [|unfold P; simpl; auto].
    clear. intros st i g0 st' g1 Hi (Hl1 & Hl2 & Hfr) Hstep.
    apply bind_Ok in Hstep. destruct Hstep as ([x2 yi] & g2 & _ & Hstep).
    destruct (Z.eqb_spec (interaction c) 0) as [E0|E0]; simpl in Hstep.
    - apply ret_Ok in Hstep. injection Hstep as -> _. unfold P. simpl.
      rewrite length_upd. auto.
    - apply bind_Ok in Hstep. destruct Hstep as (mm & g3 & Hin & Hstep).
      apply ret_Ok in Hstep. injection Hstep as -> _. unfold P. simpl.
      rewrite length_upd. split; [exact Hl1|].
      revert Hin.
      apply (foldM_inv_In
               (fun mm : mat =>
                  length mm = length (muMix c) /\
                  forall j i0, ~ In (j, i0) (mixPairs (nExp c) (interaction c)) ->
                               mget mm j i0 = mget (muMix c) j i0));
        [|split; assumption].
      intros m0 j g4 m1 g5 Hj (Hm1 & Hm2) Hw.
      destruct ((i <? j)%nat || (interaction c =? 2)%Z) eqn:Hk.
      + apply bind_Ok in Hw. destruct Hw as ([y2 yi2] & g6 & _ & Hw).
        apply ret_Ok in Hw. injection Hw as -> _.
        split; [now rewrite length_mset|].
        intros j' i' Hnot. rewrite mget_mset_other; [now apply Hm2|].
        intro E. injection E as -> ->. apply Hnot. apply mixPairs_In.
        apply in_seq in Hi. apply in_seq in Hj.
        split; [assumption|]. split; [lia|].
        apply orb_true_iff in Hk. destruct Hk as [Hk|Hk].
        * left. now apply Nat.ltb_lt.
        * right. now apply Z.eqb_eq.
      + apply ret_Ok in Hw. injection Hw as -> _. split; assumption. }
  destruct HP as (H1 & H2 & H3). simpl in H1, H2, H3.
  split; [exact H1|]. split; [exact H2|]. split; [exact H3|].
  intros j i Hji. apply H3. rewrite mixPairs_In. intros (_ & Hr & _). lia.
Qed.

Lemma shrinkExposures_frame_witness :
  exists mu' mm' g',
    shrinkExposures (G := scriptedRmath) pairCtr 1 [1; 2; 1; 3; 1; 1; 2; 1] =
      Ok (mu', mm', g') /\
    mget mm' 0 1 = 7 /\ mget mm' 0 0 = 5 /\ mget mm' 1 1 = 8.
Proof.
  destruct (shrinkExposures (G := scriptedRmath) pairCtr 1 [1; 2; 1; 3; 1; 1; 2; 1])
    as [[[mu' mm'] g']|e] eqn:E.
  - destruct (shrinkExposures_frame scriptedRmath leafForeign pairCtr 1 _ _ _ _ E)
      as (_ & _ & Hfr & Hup).
    exists mu', mm', g'. split; [reflexivity|]. split; [|split].
    + apply (Hup 0%nat 1%nat). lia.
    + apply (Hfr 0%nat 0%nat). vm_compute. intros [H|[]]. discriminate.
    + apply (Hfr 1%nat 1%nat). vm_compute. intros [H|[]]. discriminate.
  - vm_compute in E. discriminate.
Defined.

(** ** The exposures of the trees at the start *)

Lemma Forall_upd {A : Type} (P : A -> Prop) (k : nat) (v : A) (l : list A) :
  P v -> Forall P l -> Forall P (upd k v l).
Proof.
  intros Hv Hl. revert k. induction Hl as [|x l Hx Hl IH]; intros [|k]; simpl;
    constructor; auto.
Qed.

(** X19.  The exposures that the set-up draws for the trees are indices of
    [expProb], one for each tree of each pair: when the set-up loop returns,
    [tree1Exp] and [tree2Exp] have [nTrees] entries, all below the size of
    [expProb], so that the look-ups [Exp[tree1Exp(t)]] of the loop and of the
    first iteration are inside [Exp] when it has one entry per
    probability. *)
Theorem initExposures_range (G : Rmath) (expProb0 : vec) (nTrees0 : nat) (g : rng)
    (e1 e2 : list nat) (g' : rng) :
  initExposures expProb0 nTrees0 g = Ok (e1, e2, g') ->
  length e1 = nTrees0 /\ length e2 = nTrees0 /\
  Forall (fun m => (m < length expProb0)%nat) e1 /\
  Forall (fun m => (m < length expProb0)%nat) e2.
Proof.
  unfold initExposures. intro H.
  set (P := fun st : list nat * list nat =>
              length (fst st) = nTrees0 /\ length (snd st) = nTrees0 /\
              Forall (fun m => (m < length expProb0)%nat) (fst st) /\
              Forall (fun m => (m < length expProb0)%nat) (snd st)).
  assert (Hstep : forall st x g0 st' g1, P st ->
            (m1 <- sampleInt_Eigen expProb0 ;;
             m2 <- sampleInt_Eigen expProb0 ;;
             ret (upd x m1 (fst st), upd x m2 (snd st))) g0 = Ok (st', g1) -> P st').
  { intros st x g0 st' g1 (L1 & L2 & F1 & F2) Hs.
    apply bind_Ok in Hs. destruct Hs as (m1 & g2 & Hm1 & Hs).
    apply bind_Ok in Hs. destruct Hs as (m2 & g3 & Hm2 & Hs).
    apply ret_Ok in Hs. injection Hs as -> _.
    apply sampleInt_Eigen_range in Hm1. apply sampleInt_Eigen_range in Hm2.
    unfold P. simpl. rewrite !length_upd.
    split; [exact L1|]. split; [exact L2|]. split; now apply Forall_upd. }
  assert (Hpos : nTrees0 = 0%nat \/ (0 < length expProb0)%nat).
  { destruct nTrees0 as [|k]; [left; reflexivity|right].
    destruct expProb0; [|simpl; lia].
    exfalso. simpl in H. apply bind_Ok in H.
    destruct H as (st1 & g1 & Hs & _). apply bind_Ok in Hs.
    destruct Hs as (m1 & g2 & Hm1 & _). apply sampleInt_Eigen_range in Hm1.
    simpl in Hm1. lia. }
  change (P (e1, e2)). revert H. apply (foldM_inv P); [exact Hstep|].
  unfold P. simpl. rewrite !repeat_length.
  split; [reflexivity|]. split; [reflexivity|].
  destruct Hpos as [->|Hpos]; [split; constructor|].
  split; apply Forall_forall; intros m Hm; apply repeat_spec in Hm; subst m;
    assumption.
Qed.

Lemma initExposures_range_witness :
  exists e1 e2 g',
    initExposures (G := scriptedRmath) [1 # 2; 1 # 2] 2 [1 # 4; 3 # 4; 1 # 2; 1]
      = Ok (e1, e2, g') /\
    Forall (fun m => (m < 2)%nat) e1 /\ Forall (fun m => (m < 2)%nat) e2.
Proof.
  destruct (initExposures (G := scriptedRmath) [1 # 2; 1 # 2] 2
              [1 # 4; 3 # 4; 1 # 2; 1]) as [[[e1 e2] g']|e] eqn:E.
  - destruct (initExposures_range scriptedRmath _ _ _ _ _ _ E) as (_ & _ & H1 & H2).
    exists e1, e2, g'. split; [reflexivity|]. split; assumption.
  - vm_compute in E. discriminate.
Defined.
